(** * Quiz attempt reconciliation and scoring

    A shallow embedding of the request handlers
    - [src/app/api/quiz/save/route.ts]   (draft save),
    - [src/app/api/quiz/submit/route.ts] (validation, scoring, finalisation),
    - [src/app/api/admin/question/route.ts] (the [move] branch of [PUT]),
    over the relational schema of
    [prisma/migrations/20251223_init/migration.sql], and further of
    - [src/lib/rateLimit.ts] (the fixed-window limiter),
    - [src/app/api/admin/question/route.ts] ([POST], [PUT] without [move],
      [DELETE]),
    - [src/app/api/admin/quiz/route.ts] ([PUT]),
    - the route of [/api/quiz] ([GET] of one quiz),
    - [src/app/quiz/QuizPaper.tsx] (the answers the page keeps and sends).

    Tables are lists of rows in insertion order.  JavaScript [Set]s and the
    [_AnswerToChoice] join table are [gset string]; the JavaScript [Map]
    [byQuestionId] is a [gmap string _].  A transaction is a function from
    the store to either a thrown error (the store is rolled back) or a
    result with the new store.  What a handler takes from its surroundings
    is an argument: the outcome of authentication, the verdict of the rate
    limiter, the clock, and the identifier generated for a new attempt.

    The file has two parts: the model (rows, requests, scoring, database
    operations, handlers, a scenario, the vocabulary the statements use, and
    the further code), then the properties, in the same order. *)

From stdpp Require Import base decidable option list strings gmap sets sorting.
From Stdlib Require Import ZArith Lia Ascii.

Local Open Scope string_scope.
Local Open Scope list_scope.
Local Open Scope Z_scope.

(** ** Enumerations of the schema *)

Inductive QuestionType := SINGLE_CHOICE | MULTIPLE_CHOICE.
Inductive AttemptStatus := IN_PROGRESS | SUBMITTED | GRADED.

#[global] Instance QuestionType_eq_dec : EqDecision QuestionType.
Proof. solve_decision. Defined.
#[global] Instance AttemptStatus_eq_dec : EqDecision AttemptStatus.
Proof. solve_decision. Defined.

(** ** Rows

    Columns that no modelled handler reads ([createdAt], [updatedAt], the
    texts of quizzes and choices, the generated [id] of an [Answer]) are left
    out.  The [User] table is not modelled: [auth.userId] is the subject of a
    token minted from a [User] row, and no handler deletes users, so
    [Attempt_userId_fkey] is taken to hold. *)

Module Quiz.
Record t := mk { id : string; isPublished : bool }.
End Quiz.

Module Question.
Record t := mk {
  id : string;
  prompt : string;
  type : QuestionType;
  order : Z;
  quizId : string }.
End Question.

Module Choice.
Record t := mk {
  id : string;
  isCorrect : bool;
  order : Z;
  questionId : string }.
End Choice.

Module Attempt.
Record t := mk {
  id : string;
  status : AttemptStatus;
  attemptNo : Z;
  startedAt : Z;
  submittedAt : option Z;
  score : option Z;
  userId : string;
  quizId : string }.
End Attempt.

(** An [Answer] row together with its rows of [_AnswerToChoice]: the join
    table has primary key (A, B), so the choices of an answer form a set. *)
Module Answer.
Record t := mk {
  attemptId : string;
  questionId : string;
  choices : gset string }.
End Answer.

Record Store := mkStore {
  quizzes : list Quiz.t;
  questions : list Question.t;
  choices : list Choice.t;
  attempts : list Attempt.t;
  answers : list Answer.t }.

#[global] Instance Quiz_eq_dec : EqDecision Quiz.t.
Proof. solve_decision. Defined.
#[global] Instance Question_eq_dec : EqDecision Question.t.
Proof. solve_decision. Defined.
#[global] Instance Choice_eq_dec : EqDecision Choice.t.
Proof. solve_decision. Defined.
#[global] Instance Attempt_eq_dec : EqDecision Attempt.t.
Proof. solve_decision. Defined.
#[global] Instance Answer_eq_dec : EqDecision Answer.t.
Proof. solve_decision. Defined.
#[global] Instance Store_eq_dec : EqDecision Store.
Proof. solve_decision. Defined.

(** ** JavaScript values *)

(** [Boolean(id)] on a string: only the empty string is falsy. *)
Definition truthy (x : string) : bool :=
  if decide (x = EmptyString) then false else true.

(** [new Set(xs)] *)
Definition Set_of (xs : list string) : gset string := list_to_set xs.

(** [new Map(qs.map((q) => [key q, q]))]: a later entry replaces an earlier
    one with the same key. *)
Definition Map_of {V} (key : V → string) (vs : list V) : gmap string V :=
  foldl (λ m v, <[key v := v]> m) ∅ vs.

(** ** Requests and responses *)

Record AuthContext := mkAuth { auth_userId : string; isAdmin : bool }.

(** One element of [body.answers]; [choiceIds] may be missing
    ([a.choiceIds ?? []]). *)
Module AnswerInput.
Record t := mk {
  questionId : string;
  choiceIds : option (list string) }.
End AnswerInput.

#[global] Instance AnswerInput_eq_dec : EqDecision AnswerInput.t.
Proof. solve_decision. Defined.

(** [a.choiceIds ?? []] *)
Definition choiceIdsOrEmpty (a : AnswerInput.t) : list string :=
  default [] (AnswerInput.choiceIds a).

(** [SaveBody] and [SubmitBody] have the same shape. *)
Module Body.
Record t := mk {
  quizId : string;
  attemptId : option string;
  answers : list AnswerInput.t }.
End Body.

(** What a handler sees of a request: the outcome of [requireAuth], the
    verdict of the rate limiter, and the parsed body ([None] when the JSON
    does not parse, is [null], or [answers] is not an array). *)
Record Request (B : Type) := mkRequest {
  auth : option AuthContext;
  rateOk : bool;
  body : option B }.
Arguments mkRequest {B}.
Arguments auth {B}.
Arguments rateOk {B}.
Arguments body {B}.

(** The clock and the identifier the client library generates for a new
    [Attempt] row. *)
Record Env := mkEnv { now : Z; newAttemptId : string }.

(** What a failed database statement throws. *)
Inductive TxError :=
| UniqueConstraint (index : string)
| ForeignKey (constraint : string)
| RecordNotFound
| ValueOutOfRange (column : string)
| AppError (message : string).

Inductive Payload :=
| ErrorBody (message : string)
| SaveOk (attemptId : string) (attemptNo : Z)
| SubmitOk (id : string) (score : option Z) (attemptNo : Z) (totalQuestions : Z)
| MoveOk
| LibraryError (e : TxError)
| Unhandled.

Record Response := mkResponse { status : Z; payload : Payload }.

Definition jsonError (message : string) (st : Z) : Response :=
  mkResponse st (ErrorBody message).
Definition jsonOk (p : Payload) : Response := mkResponse 200 p.
(** An exception that leaves the handler: the framework answers 500. *)
Definition uncaught : Response := mkResponse 500 Unhandled.

Definition is4xx (r : Response) : bool :=
  bool_decide (400 ≤ status r < 500).

(** ** Scoring ([submit/route.ts], lines 66-99) *)

(** A question as selected at lines 50-57: id, type and its choices. *)
Record QuestionSel := mkSel {
  sel_id : string;
  sel_type : QuestionType;
  sel_choices : list Choice.t }.

(** [new Set((a.choiceIds ?? []).filter(Boolean))] *)
Definition submittedSet (a : AnswerInput.t) : gset string :=
  Set_of (filter (λ c, truthy c = true) (choiceIdsOrEmpty a)).

(** [new Set(q.choices.map((c) => c.id))] *)
Definition validChoiceIds (q : QuestionSel) : gset string :=
  Set_of (Choice.id <$> sel_choices q).

(** [new Set(q.choices.filter((c) => c.isCorrect).map((c) => c.id))] *)
Definition correctSet (q : QuestionSel) : gset string :=
  Set_of (Choice.id <$> filter (λ c, Choice.isCorrect c = true) (sel_choices q)).

(** The immediately invoked arrow function of lines 83-96. *)
Definition isCorrect (ty : QuestionType) (submitted correct : gset string) : bool :=
  match ty with
  | SINGLE_CHOICE =>
      if decide (size submitted ≠ 1%nat) then false
      else match elements submitted with
           | cid :: _ => bool_decide (cid ∈ correct) && bool_decide (size correct = 1%nat)
           | [] => false
           end
  | MULTIPLE_CHOICE =>
      if decide (size submitted ≠ size correct) then false
      else forallb (λ cid, bool_decide (cid ∈ submitted)) (elements correct)
  end.

(** The loop of lines 67-99: an early [return] carries the error response. *)
Fixpoint scoreLoop (byQuestionId : gmap string QuestionSel)
    (answers : list AnswerInput.t) (score : Z) : Response + Z :=
  match answers with
  | [] => inr score
  | a :: rest =>
      match byQuestionId !! AnswerInput.questionId a with
      | None => inl (jsonError "Invalid questionId." 400)
      | Some q =>
          let submitted := submittedSet a in
          if forallb (λ cid, bool_decide (cid ∈ validChoiceIds q)) (elements submitted)
          then scoreLoop byQuestionId rest
                 (if isCorrect (sel_type q) submitted (correctSet q) then score + 1 else score)
          else inl (jsonError "Invalid choiceId." 400)
      end
  end.

(** ** The database layer

    Each operation of the client library is a function on the store.  The
    constraints are those of [migration.sql]: primary keys, the unique
    indexes [Attempt_userId_quizId_attemptNo_key],
    [Answer_attemptId_questionId_key] and [Question_quizId_order_key], and
    the foreign keys, and the range of the INTEGER columns.  Unique indexes
    are checked by each statement (none is declared deferrable).  A violated
    constraint throws. *)

(** A computation inside a transaction: it throws, or it returns a value
    and the store it leaves. *)
Definition Tx (A : Type) : Type := Store → TxError + (A * Store).

(** The columns ["order"], ["attemptNo"] and ["score"] are INTEGER
    ([migration.sql], lines 95, 108, 120 and 123): 32-bit signed.  A
    statement that writes a number outside this range is refused before any
    row is written, and throws. *)
Definition int4 (n : Z) : bool := bool_decide (-2147483648 ≤ n ≤ 2147483647).

#[global] Instance tx_ret : MRet Tx := λ A a s, inr (a, s).
#[global] Instance tx_bind : MBind Tx := λ A B k m s,
  match m s with
  | inl e => inl e
  | inr (a, s') => k a s'
  end.
Definition tx_throw {A} (e : TxError) : Tx A := λ _, inl e.
Definition tx_read {A} (f : Store → A) : Tx A := λ s, inr (f s, s).

(** [for (const a of xs) await f(a)] *)
Fixpoint tx_forEach {A} (f : A → Tx unit) (xs : list A) : Tx unit :=
  match xs with
  | [] => mret tt
  | a :: rest => _ ← f a; tx_forEach f rest
  end.

(** [prisma.$transaction(f)]: the body runs on the store; when it throws the
    caller is left with the store it started from. *)
Definition transaction {A} (f : Tx A) (s : Store) : TxError + (A * Store) := f s.

Definition with_attempts (f : list Attempt.t → list Attempt.t) (s : Store) : Store :=
  mkStore (quizzes s) (questions s) (choices s) (f (attempts s)) (answers s).
Definition with_answers (f : list Answer.t → list Answer.t) (s : Store) : Store :=
  mkStore (quizzes s) (questions s) (choices s) (attempts s) (f (answers s)).
Definition with_questions (f : list Question.t → list Question.t) (s : Store) : Store :=
  mkStore (quizzes s) (f (questions s)) (choices s) (attempts s) (answers s).

(** [findFirst] with an [orderBy]: the first row of the stable sort, where
    [before y x] says that [y] sorts strictly before [x].  Among rows with
    equal keys the database may return any; the model takes the first in
    table order, and no property below depends on that choice. *)
Definition firstBy {A} (before : A → A → bool) (rows : list A) : option A :=
  match rows with
  | [] => None
  | x :: rest => Some (foldl (λ best y, if before y best then y else best) x rest)
  end.

(** [prisma.quiz.findUnique({ where: { id } })] *)
Definition quiz_findUnique (id : string) (s : Store) : option Quiz.t :=
  head (filter (λ q, Quiz.id q = id) (quizzes s)).

(** [prisma.question.findMany({ where: { quizId }, select: { id, type, choices } })] *)
Definition question_findMany (quizId : string) (s : Store) : list QuestionSel :=
  (λ q, mkSel (Question.id q) (Question.type q)
          (filter (λ c, Choice.questionId c = Question.id q) (choices s)))
  <$> filter (λ q, Question.quizId q = quizId) (questions s).

(** [tx.attempt.findFirst({ where: { id, userId, quizId, status: "IN_PROGRESS" } })] *)
Definition attempt_findHinted (id userId quizId : string) (s : Store) : option Attempt.t :=
  head (filter (λ a, Attempt.id a = id ∧ Attempt.userId a = userId
                     ∧ Attempt.quizId a = quizId ∧ Attempt.status a = IN_PROGRESS)
          (attempts s)).

(** [tx.attempt.findFirst({ where: { userId, quizId, status: "IN_PROGRESS" },
    orderBy: { startedAt: "desc" } })] *)
Definition attempt_findLatest (userId quizId : string) (s : Store) : option Attempt.t :=
  firstBy (λ y x, Attempt.startedAt x <? Attempt.startedAt y)
    (filter (λ a, Attempt.userId a = userId ∧ Attempt.quizId a = quizId
                  ∧ Attempt.status a = IN_PROGRESS)
       (attempts s)).

(** The attempt numbers of (user, quiz), in table order. *)
Definition attemptNos (userId quizId : string) (s : Store) : list Z :=
  Attempt.attemptNo <$>
    filter (λ a, Attempt.userId a = userId ∧ Attempt.quizId a = quizId) (attempts s).

(** [tx.attempt.aggregate({ where: { userId, quizId }, _max: { attemptNo: true } })]:
    [None] is the [null] of an empty aggregate.  The [+ 1] of line 92 is
    exact on every number the column can hold; whether the sum still fits
    the column is checked by the insert ([attempt_create]). *)
Definition attempt_maxAttemptNo (userId quizId : string) (s : Store) : option Z :=
  match attemptNos userId quizId s with
  | [] => None
  | n :: rest => Some (foldl Z.max n rest)
  end.

(** Every id of a [connect] or [set] must name a [Choice] row. *)
Definition connectable (ids : list string) (s : Store) : bool :=
  forallb (λ c, bool_decide (c ∈ Choice.id <$> choices s)) ids.

(** Is there an answer row for [(attemptId, questionId)]? *)
Definition answer_exists (attemptId questionId : string) (s : Store) : bool :=
  bool_decide (Exists (λ r, Answer.attemptId r = attemptId ∧ Answer.questionId r = questionId)
                 (answers s)).

(** Creating one [Answer] with [choices: { connect: ids }]. *)
Definition answer_create (attemptId : string) (a : AnswerInput.t) : Tx unit := λ s,
  if decide (attemptId ∉ Attempt.id <$> attempts s) then
    inl (ForeignKey "Answer_attemptId_fkey")
  else if decide (AnswerInput.questionId a ∉ Question.id <$> questions s) then
    inl (ForeignKey "Answer_questionId_fkey")
  else if answer_exists attemptId (AnswerInput.questionId a) s then
    inl (UniqueConstraint "Answer_attemptId_questionId_key")
  else if connectable (choiceIdsOrEmpty a) s then
    inr (tt, with_answers
               (λ rows, rows ++ [Answer.mk attemptId (AnswerInput.questionId a)
                                   (Set_of (choiceIdsOrEmpty a))]) s)
  else inl RecordNotFound.

(** [choices: { set: ids }] on the row of [(attemptId, questionId)]: its
    choices become exactly [ids]; other rows are left alone. *)
Definition set_choices (attemptId : string) (a : AnswerInput.t) (r : Answer.t) : Answer.t :=
  if decide (Answer.attemptId r = attemptId ∧ Answer.questionId r = AnswerInput.questionId a)
  then Answer.mk (Answer.attemptId r) (Answer.questionId r) (Set_of (choiceIdsOrEmpty a))
  else r.

(** [tx.answer.upsert({ where: { attemptId_questionId }, create: { ...,
    choices: { connect } }, update: { choices: { set } } })] *)
Definition answer_upsert (attemptId : string) (a : AnswerInput.t) : Tx unit := λ s,
  if answer_exists attemptId (AnswerInput.questionId a) s then
    if connectable (choiceIdsOrEmpty a) s then
      inr (tt, with_answers (fmap (set_choices attemptId a)) s)
    else inl RecordNotFound
  else answer_create attemptId a s.

(** [tx.attempt.create({ data: { ..., answers: { create: [...] } } })]: the
    parent row, then its answers in order.  [attemptNo] and [score] have to
    fit their columns. *)
Definition attempt_create (row : Attempt.t) (nested : list AnswerInput.t) : Tx Attempt.t :=
  _ ← ((λ s,
        if negb (int4 (Attempt.attemptNo row)) then
          inl (ValueOutOfRange "attemptNo")
        else if negb (int4 (default 0 (Attempt.score row))) then
          inl (ValueOutOfRange "score")
        else if decide (Attempt.id row ∈ Attempt.id <$> attempts s) then
          inl (UniqueConstraint "Attempt_pkey")
        else if decide (Exists (λ a, Attempt.userId a = Attempt.userId row
                                   ∧ Attempt.quizId a = Attempt.quizId row
                                   ∧ Attempt.attemptNo a = Attempt.attemptNo row)
                          (attempts s)) then
          inl (UniqueConstraint "Attempt_userId_quizId_attemptNo_key")
        else if decide (Attempt.quizId row ∈ Quiz.id <$> quizzes s) then
          inr (tt, with_attempts (λ rows, rows ++ [row]) s)
        else inl (ForeignKey "Attempt_quizId_fkey")) : Tx unit);
  _ ← tx_forEach (answer_create (Attempt.id row)) nested;
  mret row.

(** [tx.attempt.update({ where: { id }, data: { status: "SUBMITTED",
    submittedAt, score } })] *)
Definition finalize (submittedAt score : Z) (a : Attempt.t) : Attempt.t :=
  Attempt.mk (Attempt.id a) SUBMITTED (Attempt.attemptNo a) (Attempt.startedAt a)
    (Some submittedAt) (Some score) (Attempt.userId a) (Attempt.quizId a).

Definition attempt_update (id : string) (f : Attempt.t → Attempt.t) : Tx Attempt.t := λ s,
  match head (filter (λ a, Attempt.id a = id) (attempts s)) with
  | None => inl RecordNotFound
  | Some a =>
      if negb (int4 (default 0 (Attempt.score (f a)))) then
        inl (ValueOutOfRange "score")
      else
        inr (f a, with_attempts (fmap (λ x, if decide (Attempt.id x = id) then f x else x)) s)
  end.

(** ** Draft save ([save/route.ts]) *)

(** [body.attemptId ? ... : ...]: a missing or empty hint is falsy. *)
Definition hintOf (b : Body.t) : option string :=
  match Body.attemptId b with
  | Some h => if truthy h then Some h else None
  | None => None
  end.

(** Lines 52-66: the attempt the save works on. *)
Definition save_resolve (userId : string) (b : Body.t) (s : Store) : option Attempt.t :=
  match hintOf b with
  | Some h => attempt_findHinted h userId (Body.quizId b) s
  | None => attempt_findLatest userId (Body.quizId b) s
  end.

(** Lines 50-111: the body of the transaction. *)
Definition save_tx (env : Env) (userId : string) (b : Body.t) : Tx Attempt.t :=
  resolvedAttempt ← tx_read (save_resolve userId b);
  match resolvedAttempt with
  | Some r =>
      _ ← tx_forEach (answer_upsert (Attempt.id r)) (Body.answers b);
      mret r
  | None =>
      last ← tx_read (attempt_maxAttemptNo userId (Body.quizId b));
      let attemptNo := default 0 last + 1 in
      attempt_create
        (Attempt.mk (newAttemptId env) IN_PROGRESS attemptNo (now env) None None
           userId (Body.quizId b))
        (Body.answers b)
  end.

Definition save_POST (env : Env) (req : Request Body.t) (s : Store) : Response * Store :=
  match auth req with
  | None => (jsonError "Unauthorized." 401, s)
  | Some au =>
      if negb (rateOk req) then (jsonError "Too many requests." 429, s)
      else match body req with
      | None => (jsonError "Invalid payload." 400, s)
      | Some b =>
          if negb (truthy (Body.quizId b)) then (jsonError "Invalid payload." 400, s)
          else match quiz_findUnique (Body.quizId b) s with
          | None => (jsonError "Quiz not available." 404, s)
          | Some quiz =>
              if negb (Quiz.isPublished quiz) then (jsonError "Quiz not available." 404, s)
              else match transaction (save_tx env (auth_userId au) b) s with
              | inl _ => (uncaught, s)
              | inr (attempt, s') =>
                  (jsonOk (SaveOk (Attempt.id attempt) (Attempt.attemptNo attempt)), s')
              end
          end
      end
  end.

(** ** Submit ([submit/route.ts]) *)

(** Lines 103-112: only a hinted attempt is looked up. *)
Definition submit_resolve (userId : string) (b : Body.t) (s : Store) : option Attempt.t :=
  match hintOf b with
  | Some h => attempt_findHinted h userId (Body.quizId b) s
  | None => None
  end.

(** Lines 101-170: the body of the transaction. *)
Definition submit_tx (env : Env) (userId : string) (b : Body.t) (score : Z) : Tx Attempt.t :=
  existing ← tx_read (submit_resolve userId b);
  match existing with
  | Some e =>
      _ ← tx_forEach (answer_upsert (Attempt.id e)) (Body.answers b);
      attempt_update (Attempt.id e) (finalize (now env) score)
  | None =>
      last ← tx_read (attempt_maxAttemptNo userId (Body.quizId b));
      let attemptNo := default 0 last + 1 in
      attempt_create
        (Attempt.mk (newAttemptId env) SUBMITTED attemptNo (now env) (Some (now env))
           (Some score) userId (Body.quizId b))
        (Body.answers b)
  end.

Definition submit_POST (env : Env) (req : Request Body.t) (s : Store) : Response * Store :=
  match auth req with
  | None => (jsonError "Unauthorized." 401, s)
  | Some au =>
      if negb (rateOk req) then (jsonError "Too many requests." 429, s)
      else match body req with
      | None => (jsonError "Invalid payload." 400, s)
      | Some b =>
          if negb (truthy (Body.quizId b)) then (jsonError "Invalid payload." 400, s)
          else match quiz_findUnique (Body.quizId b) s with
          | None => (jsonError "Quiz not available." 404, s)
          | Some quiz =>
              if negb (Quiz.isPublished quiz) then (jsonError "Quiz not available." 404, s)
              else
                let questions := question_findMany (Body.quizId b) s in
                if decide (length questions = 0%nat) then
                  (jsonError "Quiz has no questions." 400, s)
                else
                  let byQuestionId := Map_of sel_id questions in
                  match scoreLoop byQuestionId (Body.answers b) 0 with
                  | inl resp => (resp, s)
                  | inr score =>
                      match transaction (submit_tx env (auth_userId au) b score) s with
                      | inl _ => (uncaught, s)
                      | inr (attempt, s') =>
                          (jsonOk (SubmitOk (Attempt.id attempt) (Attempt.score attempt)
                                     (Attempt.attemptNo attempt)
                                     (Z.of_nat (length questions))), s')
                      end
                  end
          end
      end
  end.

(** ** Reordering ([admin/question/route.ts], [PUT] with [body.move]) *)

Inductive Move := UP | DOWN.

(** An [UpdateBody] whose [move] is set; the other branch of [PUT] is not
    modelled. *)
Module MoveBody.
Record t := mk { id : string; move : Move }.
End MoveBody.

(** [tx.question.findUnique({ where: { id } })] *)
Definition question_findUnique (id : string) (s : Store) : option Question.t :=
  head (filter (λ q, Question.id q = id) (questions s)).

(** [findFirst({ where: { quizId, order: { lt } }, orderBy: { order: "desc" } })] *)
Definition question_findPrevious (q : Question.t) (s : Store) : option Question.t :=
  firstBy (λ y x, Question.order x <? Question.order y)
    (filter (λ r, Question.quizId r = Question.quizId q ∧ Question.order r < Question.order q)
       (questions s)).

(** [findFirst({ where: { quizId, order: { gt } }, orderBy: { order: "asc" } })] *)
Definition question_findNext (q : Question.t) (s : Store) : option Question.t :=
  firstBy (λ y x, Question.order y <? Question.order x)
    (filter (λ r, Question.quizId r = Question.quizId q ∧ Question.order q < Question.order r)
       (questions s)).

Definition set_order (o : Z) (q : Question.t) : Question.t :=
  Question.mk (Question.id q) (Question.prompt q) (Question.type q) o (Question.quizId q).

(** [tx.question.update({ where: { id }, data: { order } })]: the statement
    fails when another question of the quiz already has that order.
    [migration.sql], line 194, creates [Question_quizId_order_key] as a plain
    unique index on ("quizId", "order"); it is not deferrable, so it is
    checked as each row is written, also inside a transaction. *)
Definition question_updateOrder (id : string) (o : Z) : Tx unit := λ s,
  match question_findUnique id s with
  | None => inl RecordNotFound
  | Some q =>
      if decide (Exists (λ r, Question.id r ≠ id ∧ Question.quizId r = Question.quizId q
                              ∧ Question.order r = o) (questions s)) then
        inl (UniqueConstraint "Question_quizId_order_key")
      else
        inr (tt, with_questions
                   (fmap (λ r, if decide (Question.id r = id) then set_order o r else r)) s)
  end.

(** Lines 154-175: the body of the transaction.  The two orders it writes
    are read from rows of the table. *)
Definition move_tx (b : MoveBody.t) : Tx unit :=
  found ← tx_read (question_findUnique (MoveBody.id b));
  match found with
  | None => tx_throw (AppError "Question not found.")
  | Some q =>
      neighbor ← tx_read (match MoveBody.move b with
                          | UP => question_findPrevious q
                          | DOWN => question_findNext q
                          end);
      match neighbor with
      | None => mret tt
      | Some n =>
          _ ← question_updateOrder (Question.id q) (Question.order n);
          question_updateOrder (Question.id n) (Question.order q)
      end
  end.

(** Lines 178-182: only the handler's own [Error] carries the message that
    maps to 404. *)
Definition move_errorStatus (e : TxError) : Z :=
  match e with
  | AppError m => if decide (m = "Question not found.") then 404 else 400
  | _ => 400
  end.

(** [e.message]: the text of the handler's own [Error], or the library's
    text for a failed statement (which is never ["Question not found."]). *)
Definition move_errorPayload (e : TxError) : Payload :=
  match e with
  | AppError m => ErrorBody m
  | _ => LibraryError e
  end.

Definition PUT_move (req : Request MoveBody.t) (s : Store) : Response * Store :=
  match auth req with
  | None => (jsonError "Forbidden." 403, s)
  | Some au =>
      if negb (isAdmin au) then (jsonError "Forbidden." 403, s)
      else if negb (rateOk req) then (jsonError "Too many requests." 429, s)
      else match body req with
      | None => (jsonError "id is required." 400, s)
      | Some b =>
          if negb (truthy (MoveBody.id b)) then (jsonError "id is required." 400, s)
          else match transaction (move_tx b) s with
          | inr (_, s') => (jsonOk MoveOk, s')
          | inl e => (mkResponse (move_errorStatus e) (move_errorPayload e), s)
          end
      end
  end.

(** ** Sequential runs of the two quiz operations *)

Inductive Op :=
| Save (env : Env) (req : Request Body.t)
| Submit (env : Env) (req : Request Body.t).

Definition step (s : Store) (o : Op) : Store :=
  match o with
  | Save env req => (save_POST env req s).2
  | Submit env req => (submit_POST env req s).2
  end.

Definition run (ops : list Op) (s : Store) : Store := foldl step s ops.

(** ** The scenario of the specification (section 8)

    A published quiz with a SINGLE_CHOICE question [q1] (choices A, correct,
    and B) and a MULTIPLE_CHOICE question [q2] (choices C and D, correct, and
    E); a second published quiz whose only question [q3] is MULTIPLE_CHOICE
    with no choice flagged correct. *)

Module Scenario.
Definition catalogue : Store :=
  mkStore
    [Quiz.mk "quiz1" true; Quiz.mk "quiz2" true]
    [Question.mk "q1" "first" SINGLE_CHOICE 0 "quiz1";
     Question.mk "q2" "second" MULTIPLE_CHOICE 1 "quiz1";
     Question.mk "q3" "third" MULTIPLE_CHOICE 0 "quiz2"]
    [Choice.mk "A" true 0 "q1"; Choice.mk "B" false 1 "q1";
     Choice.mk "C" true 0 "q2"; Choice.mk "D" true 1 "q2"; Choice.mk "E" false 2 "q2";
     Choice.mk "G" false 0 "q3"; Choice.mk "H" false 1 "q3"]
    [] [].

Definition alice : AuthContext := mkAuth "u1" false.
Definition root : AuthContext := mkAuth "admin" true.

Definition pick (q : string) (cs : list string) : AnswerInput.t :=
  AnswerInput.mk q (Some cs).

Definition request (quiz : string) (hint : option string)
    (answers : list AnswerInput.t) : Request Body.t :=
  mkRequest (Some alice) true (Some (Body.mk quiz hint answers)).

Definition first : Env := mkEnv 100 "att1".
Definition second : Env := mkEnv 200 "att2".
Definition third : Env := mkEnv 300 "att3".

(** The store after a first save with no answers: attempt [att1],
    number 1, in progress. *)
Definition drafted : Store := (save_POST first (request "quiz1" None []) catalogue).2.

(** The row of [att1] in [drafted], and after the submit below. *)
Definition att1_draft : Attempt.t :=
  Attempt.mk "att1" IN_PROGRESS 1 100 None None "u1" "quiz1".
Definition att1_final : Attempt.t :=
  Attempt.mk "att1" SUBMITTED 1 100 (Some 200) (Some 2) "u1" "quiz1".

(** The submit that refers to the draft and answers both questions
    correctly, and the store it leaves. *)
Definition finish : Request Body.t :=
  request "quiz1" (Some "att1") [pick "q1" ["A"]; pick "q2" ["C"; "D"]].
Definition submitted : Store := (submit_POST second finish drafted).2.

(** A draft whose second entry repeats a choice. *)
Definition draft_answers : list AnswerInput.t :=
  [pick "q1" ["A"]; pick "q2" ["D"; "C"; "D"]].

(** An administrator moving question [id]. *)
Definition reorder (id : string) (m : Move) : Request MoveBody.t :=
  mkRequest (Some root) true (Some (MoveBody.mk id m)).
End Scenario.

(** ** Vocabulary of the properties *)

(** The entry [a] of a request refers to something outside the quiz. *)
Definition foreign_question (b : Body.t) (a : AnswerInput.t) (s : Store) : Prop :=
  AnswerInput.questionId a
  ∉ Question.id <$> filter (λ q, Question.quizId q = Body.quizId b) (questions s).

(** The entry [a] lists [c], which is not a choice of the entry's question. *)
Definition foreign_choice (a : AnswerInput.t) (c : string) (s : Store) : Prop :=
  c ∈ choiceIdsOrEmpty a
  ∧ c ∉ Choice.id <$> filter (λ ch, Choice.questionId ch = AnswerInput.questionId a) (choices s).

(** The answer rows of one attempt. *)
Definition answersOf (attemptId : string) (s : Store) : list Answer.t :=
  filter (λ r, Answer.attemptId r = attemptId) (answers s).

(** [s'] differs from [s] at most in the answer rows of [attemptId]. *)
Definition touches_only (attemptId : string) (s s' : Store) : Prop :=
  quizzes s' = quizzes s ∧ questions s' = questions s ∧ choices s' = choices s
  ∧ attempts s' = attempts s
  ∧ ∀ other, other ≠ attemptId → answersOf other s' = answersOf other s.

(** [s'] is [s] with the new attempt [row] appended, and answers for it. *)
Definition created (row : Attempt.t) (s s' : Store) : Prop :=
  (Attempt.id row ∉ Attempt.id <$> attempts s)
  ∧ quizzes s' = quizzes s ∧ questions s' = questions s ∧ choices s' = choices s
  ∧ attempts s' = attempts s ++ [row]
  ∧ ∀ other, other ≠ Attempt.id row → answersOf other s' = answersOf other s.

(** The number a new attempt of (user, quiz) receives (lines 87-92 of save,
    144-149 of submit). *)
Definition nextAttemptNo (userId quizId : string) (s : Store) : Z :=
  default 0 (attempt_maxAttemptNo userId quizId s) + 1.

(** The update of line 129 applied to the table. *)
Definition finalize_row (id : string) (submittedAt score : Z) (rows : list Attempt.t) :
    list Attempt.t :=
  (λ x, if decide (Attempt.id x = id) then finalize submittedAt score x else x) <$> rows.

(** What one save or submit can do to the store: nothing; upsert answers of
    an attempt in progress; create an attempt with the next number; upsert
    answers of an attempt in progress and finalise it. *)
Inductive transition (s s' : Store) : Prop :=
| transition_none :
    s' = s → transition s s'
| transition_upsert r :
    r ∈ attempts s → Attempt.status r = IN_PROGRESS →
    touches_only (Attempt.id r) s s' → transition s s'
| transition_create row :
    created row s s' →
    Attempt.attemptNo row = nextAttemptNo (Attempt.userId row) (Attempt.quizId row) s →
    transition s s'
| transition_finalize e s1 t score :
    e ∈ attempts s → Attempt.status e = IN_PROGRESS →
    touches_only (Attempt.id e) s s1 →
    s' = with_attempts (finalize_row (Attempt.id e) t score) s1 →
    transition s s'.

(** The resolution as section 4.1 of the specification words it: the hinted
    attempt if the hint matches, otherwise the most recently started
    IN_PROGRESS attempt of (user, quiz); [None] stands for creating one. *)
Definition resolve_spec (hint : option string) (userId quizId : string) (s : Store) :
    option Attempt.t :=
  match hint with
  | Some h =>
      match attempt_findHinted h userId quizId s with
      | Some a => Some a
      | None => attempt_findLatest userId quizId s
      end
  | None => attempt_findLatest userId quizId s
  end.

(** The choice ids of the last entry of [xs] for question [q]. *)
Definition lastFor (q : string) (xs : list AnswerInput.t) : option (list string) :=
  choiceIdsOrEmpty <$> last (filter (λ a, AnswerInput.questionId a = q) xs).

(** The key of the unique index [Answer_attemptId_questionId_key]. *)
Definition answerKey (r : Answer.t) : string * string :=
  (Answer.attemptId r, Answer.questionId r).

(** Every entry of [xs] has its row, its choices exist, and each row of the
    attempt holds the choices of the last entry for its question. *)
Definition settled (attemptId : string) (xs : list AnswerInput.t) (s : Store) : Prop :=
  (∀ a, a ∈ xs → connectable (choiceIdsOrEmpty a) s = true
                 ∧ answer_exists attemptId (AnswerInput.questionId a) s = true)
  ∧ (∀ r cs, r ∈ answers s → Answer.attemptId r = attemptId →
             lastFor (Answer.questionId r) xs = Some cs → Answer.choices r = Set_of cs).

(** The entries a transaction can write: the question exists and every
    choice id names a choice. *)
Definition writable (xs : list AnswerInput.t) (s : Store) : Prop :=
  ∀ a, a ∈ xs → AnswerInput.questionId a ∈ Question.id <$> questions s
                ∧ connectable (choiceIdsOrEmpty a) s = true.



(** The entry [a] on its own is scored correct. *)
Definition entryCorrect (byQuestionId : gmap string QuestionSel) (a : AnswerInput.t) : bool :=
  match byQuestionId !! AnswerInput.questionId a with
  | Some q => isCorrect (sel_type q) (submittedSet a) (correctSet q)
  | None => false
  end.

(** * Further code of the repository *)

(** ** The rate limiter ([src/lib/rateLimit.ts])

    The module-level [buckets] map is the state; [Date.now()] is an
    argument.  [limit], [windowMs] and the clock are JavaScript numbers; at
    every call site the window is 60 000 ms and the clock is [Date.now()],
    integers far below 2^53, on which the sums of the code are exact: they
    are in [Z]. *)

Module RateLimit.
Record Bucket := mkBucket { resetMs : Z; count : Z }.

Record Options := mkOptions { key : string; limit : Z; windowMs : Z }.

(** [RateLimitResult] *)
Record Result := mkResult {
  ok : bool;
  r_limit : Z;
  remaining : Z;
  r_resetMs : Z }.

(** [rateLimit({ key, limit, windowMs })] *)
Definition rateLimit (o : Options) (now : Z) (buckets : gmap string Bucket) :
    Result * gmap string Bucket :=
  let opened :=
    (mkResult true (limit o) (limit o - 1) (now + windowMs o),
     <[key o := mkBucket (now + windowMs o) 1]> buckets) in
  match buckets !! key o with
  | None => opened
  | Some bucket =>
      if decide (resetMs bucket ≤ now) then opened
      else if decide (limit o ≤ count bucket) then
        (mkResult false (limit o) 0 (resetMs bucket), buckets)
      else
        (mkResult true (limit o) (limit o - (count bucket + 1)) (resetMs bucket),
         <[key o := mkBucket (resetMs bucket) (count bucket + 1)]> buckets)
  end.

(** The verdicts of successive calls with the same options at the given
    times. *)
Fixpoint calls (o : Options) (times : list Z) (buckets : gmap string Bucket) :
    list Result * gmap string Bucket :=
  match times with
  | [] => ([], buckets)
  | now :: rest =>
      let (r, buckets1) := rateLimit o now buckets in
      let (rs, buckets2) := calls o rest buckets1 in
      (r :: rs, buckets2)
  end.

(** How many of the verdicts let the call through. *)
Definition allowed (rs : list Result) : nat := length (filter (λ r, ok r = true) rs).

(** The key has no bucket, or its window is over at [now]. *)
Definition window_closed (o : Options) (now : Z) (buckets : gmap string Bucket) : Prop :=
  match buckets !! key o with
  | None => True
  | Some bucket => resetMs bucket ≤ now
  end.
End RateLimit.

(** ** Replies of the further handlers *)

(** A JSON reply with its status, an error envelope, or an exception that
    left the handler (answered 500 by the framework). *)
Inductive Reply (A : Type) :=
| Done (status : Z) (data : A)
| Refused (status : Z) (message : string)
| Crashed.
Arguments Done {A}.
Arguments Refused {A}.
Arguments Crashed {A}.

Definition reply_status {A} (r : Reply A) : Z :=
  match r with
  | Done st _ => st
  | Refused st _ => st
  | Crashed => 500
  end.

(** ** Authoring questions ([admin/question/route.ts])

    [String.prototype.trim] is a parameter.  The texts of questions and
    choices are read from the request; of the stored row the model keeps the
    columns of [Question.t] and [Choice.t]. *)

Module ChoiceInput.
Record t := mk {
  id : option string;
  text : string;
  isCorrect : option bool;
  order : option Z }.
End ChoiceInput.

(** [Boolean(c.isCorrect)] *)
Definition flagged (c : ChoiceInput.t) : bool := default false (ChoiceInput.isCorrect c).

Module CreateBody.
Record t := mk {
  quizId : string;
  prompt : option string;
  type : option QuestionType;
  order : option Z;
  choices : option (list ChoiceInput.t) }.
End CreateBody.

(** The identifiers generated for a new question and for its choices, by
    position. *)
Record AuthoringEnv := mkAuthoringEnv {
  newQuestionId : string;
  newChoiceId : nat → string }.

(** [validateCorrectChoices] (lines 55-62) *)
Definition validateCorrectChoices (ty : QuestionType) (cs : list ChoiceInput.t) :
    option string :=
  let correctCount := length (filter (λ c, flagged c = true) cs) in
  if decide (correctCount < 1)%nat then Some "At least 1 correct choice is required."
  else if decide (ty = SINGLE_CHOICE ∧ correctCount ≠ 1%nat) then
    Some "Single-choice questions must have exactly 1 correct choice."
  else None.

(** [prisma.question.aggregate({ where: { quizId }, _max: { order: true } })] *)
Definition question_maxOrder (quizId : string) (s : Store) : option Z :=
  match Question.order <$> filter (λ q, Question.quizId q = quizId) (questions s) with
  | [] => None
  | n :: rest => Some (foldl Z.max n rest)
  end.

(** Inserting one [Choice] row: the range of ["order"], the primary key,
    [Choice_questionId_order_key], [Choice_questionId_fkey]. *)
Definition choice_insert (row : Choice.t) : Tx unit := λ s,
  if negb (int4 (Choice.order row)) then
    inl (ValueOutOfRange "order")
  else if decide (Choice.id row ∈ Choice.id <$> choices s) then
    inl (UniqueConstraint "Choice_pkey")
  else if decide (Exists (λ c, Choice.questionId c = Choice.questionId row
                             ∧ Choice.order c = Choice.order row) (choices s)) then
    inl (UniqueConstraint "Choice_questionId_order_key")
  else if decide (Choice.questionId row ∈ Question.id <$> questions s) then
    inr (tt, mkStore (quizzes s) (questions s) (choices s ++ [row]) (attempts s) (answers s))
  else inl (ForeignKey "Choice_questionId_fkey").

(** [prisma.question.create({ data: { ..., choices: { create: [...] } } })]:
    the question row, then its choices in order.  ["order"] has to fit its
    column, for the question and for each choice. *)
Definition question_create (row : Question.t) (nested : list Choice.t) : Tx unit :=
  _ ← ((λ s,
        if negb (int4 (Question.order row)) then
          inl (ValueOutOfRange "order")
        else if decide (Question.id row ∈ Question.id <$> questions s) then
          inl (UniqueConstraint "Question_pkey")
        else if decide (Exists (λ q, Question.quizId q = Question.quizId row
                                   ∧ Question.order q = Question.order row)
                          (questions s)) then
          inl (UniqueConstraint "Question_quizId_order_key")
        else if decide (Question.quizId row ∈ Quiz.id <$> quizzes s) then
          inr (tt, with_questions (λ rows, rows ++ [row]) s)
        else inl (ForeignKey "Question_quizId_fkey")) : Tx unit);
  tx_forEach choice_insert nested.

(** [include: { choices: { orderBy: { order: "asc" } } }] *)
Definition choice_le (a b : Choice.t) : Prop := Choice.order a ≤ Choice.order b.
#[global] Instance choice_le_dec : RelDecision choice_le.
Proof. intros a b. unfold choice_le. apply _. Defined.

Definition byOrder (cs : list Choice.t) : list Choice.t := merge_sort choice_le cs.

(** The choices selected with a question: those that refer to it. *)
Definition sel_choices_of (q : Question.t) (s : Store) : list Choice.t :=
  filter (λ c, Choice.questionId c = Question.id q) (choices s).

Section Authoring.
Variable trim : string → string.

(** [normalizeChoices] (lines 48-53) *)
Definition normalizeChoices (inputs : list ChoiceInput.t) : list ChoiceInput.t :=
  filter (λ c, ChoiceInput.text c ≠ EmptyString)
    (imap (λ idx c,
             ChoiceInput.mk (ChoiceInput.id c) (trim (ChoiceInput.text c))
               (ChoiceInput.isCorrect c)
               (Some (default (Z.of_nat idx) (ChoiceInput.order c))))
       inputs).

(** The rows of [choices: { create: normalizedChoices.map(...) }] *)
Definition choiceRows (env : AuthoringEnv) (questionId : string)
    (cs : list ChoiceInput.t) : list Choice.t :=
  imap (λ i c, Choice.mk (newChoiceId env i) (flagged c)
                 (default 0 (ChoiceInput.order c)) questionId) cs.

(** [POST] (lines 86-138) *)
Definition question_POST (env : AuthoringEnv) (req : Request CreateBody.t) (s : Store) :
    Reply (Question.t * list Choice.t) * Store :=
  match auth req with
  | None => (Refused 403 "Forbidden.", s)
  | Some au =>
      if negb (isAdmin au) then (Refused 403 "Forbidden.", s)
      else if negb (rateOk req) then (Refused 429 "Too many requests.", s)
      else match body req with
      | None => (Refused 400 "quizId and prompt are required.", s)
      | Some b =>
          if negb (truthy (CreateBody.quizId b))
             || negb (truthy (default EmptyString (trim <$> CreateBody.prompt b)))
          then (Refused 400 "quizId and prompt are required.", s)
          else match CreateBody.choices b with
          | None => (Refused 400 "At least 2 choices are required.", s)
          | Some given =>
              if decide (length given < 2)%nat then
                (Refused 400 "At least 2 choices are required.", s)
              else
                let type := default SINGLE_CHOICE (CreateBody.type b) in
                let normalizedChoices := normalizeChoices given in
                if decide (length normalizedChoices < 2)%nat then
                  (Refused 400 "At least 2 non-empty choices are required.", s)
                else match validateCorrectChoices type normalizedChoices with
                | Some validationMessage => (Refused 400 validationMessage, s)
                | None =>
                    let order :=
                      default (default (-1) (question_maxOrder (CreateBody.quizId b) s) + 1)
                        (CreateBody.order b) in
                    let row :=
                      Question.mk (newQuestionId env)
                        (trim (default EmptyString (CreateBody.prompt b))) type order
                        (CreateBody.quizId b) in
                    let rows := choiceRows env (newQuestionId env) normalizedChoices in
                    match transaction (question_create row rows) s with
                    | inl _ => (Crashed, s)
                    | inr (_, s') => (Done 201 (row, byOrder rows), s')
                    end
                end
          end
      end
  end.

(** The request gets past every check of [POST] that comes before the
    database write. *)
Definition passes_checks (req : Request CreateBody.t) (b : CreateBody.t)
    (given : list ChoiceInput.t) : Prop :=
  (∃ au, auth req = Some au ∧ isAdmin au = true)
  ∧ rateOk req = true
  ∧ body req = Some b
  ∧ CreateBody.quizId b ≠ EmptyString
  ∧ (∃ p, CreateBody.prompt b = Some p ∧ trim p ≠ EmptyString)
  ∧ CreateBody.choices b = Some given
  ∧ (2 ≤ length (normalizeChoices given))%nat
  ∧ validateCorrectChoices (default SINGLE_CHOICE (CreateBody.type b))
      (normalizeChoices given) = None.

(** The row [POST] writes for the question. *)
Definition questionRow (env : AuthoringEnv) (b : CreateBody.t) (s : Store) : Question.t :=
  Question.mk (newQuestionId env) (trim (default EmptyString (CreateBody.prompt b)))
    (default SINGLE_CHOICE (CreateBody.type b))
    (default (default (-1) (question_maxOrder (CreateBody.quizId b) s) + 1)
       (CreateBody.order b))
    (CreateBody.quizId b).
End Authoring.

(** The generated identifiers are new: that of the question, and those of the
    first [n] choices, which are also distinct. *)
Definition fresh_ids (env : AuthoringEnv) (n : nat) (s : Store) : Prop :=
  (newQuestionId env ∉ Question.id <$> questions s)
  ∧ NoDup (newChoiceId env <$> seq 0 n)
  ∧ ∀ i, (i < n)%nat → newChoiceId env i ∉ Choice.id <$> choices s.

(** ** Deleting a question ([admin/question/route.ts], [DELETE]) *)

(** [prisma.question.delete({ where: { id } })].  [Answer_questionId_fkey] is
    ON DELETE RESTRICT; [Choice_questionId_fkey] and [_AnswerToChoice_B_fkey]
    are ON DELETE CASCADE: the choices of the question go, and with them
    their rows in the join table, whatever answer they belong to. *)
Definition question_delete (id : string) : Tx unit := λ s,
  match question_findUnique id s with
  | None => inl RecordNotFound
  | Some _ =>
      if decide (Exists (λ r, Answer.questionId r = id) (answers s)) then
        inl (ForeignKey "Answer_questionId_fkey")
      else
        let gone : gset string :=
          Set_of (Choice.id <$> filter (λ c, Choice.questionId c = id) (choices s)) in
        inr (tt, mkStore (quizzes s)
                   (filter (λ q, Question.id q ≠ id) (questions s))
                   (filter (λ c, Choice.questionId c ≠ id) (choices s))
                   (attempts s)
                   ((λ r, Answer.mk (Answer.attemptId r) (Answer.questionId r)
                            (Answer.choices r ∖ gone)) <$> answers s))
  end.

(** [DELETE] (lines 253-270); the body is [None] when it does not parse and
    holds [None] when it has no [id]. *)
Definition question_DELETE (req : Request (option string)) (s : Store) :
    Reply unit * Store :=
  match auth req with
  | None => (Refused 403 "Forbidden.", s)
  | Some au =>
      if negb (isAdmin au) then (Refused 403 "Forbidden.", s)
      else if negb (rateOk req) then (Refused 429 "Too many requests.", s)
      else match body req with
      | Some (Some id) =>
          if negb (truthy id) then (Refused 400 "id is required.", s)
          else match transaction (question_delete id) s with
          | inr (_, s') => (Done 200 tt, s')
          | inl _ =>
              (Refused 409 "Unable to delete question (may have existing answers).", s)
          end
      | _ => (Refused 400 "id is required.", s)
      end
  end.

(** ** An authoring scenario

    [trim_ascii] stands in for [String.prototype.trim] on the examples, whose
    texts are ASCII: it strips ASCII white space at both ends, and not the
    other white space of Unicode that [trim] strips.  The properties are
    stated for every [trim]. *)

Definition is_space (a : ascii) : bool :=
  bool_decide (a ∈ [" "; "009"; "010"; "011"; "012"; "013"]%char).

Fixpoint trimStart (s : string) : string :=
  match s with
  | String a rest => if is_space a then trimStart rest else s
  | EmptyString => EmptyString
  end.

Definition trimEnd (s : string) : string := String.rev (trimStart (String.rev s)).

Definition trim_ascii (s : string) : string := trimEnd (trimStart s).

Module Authored.
Definition env : AuthoringEnv :=
  mkAuthoringEnv "q9" (λ i, nth i ["n0"; "n1"; "n2"; "n3"] "n").

Definition yes : ChoiceInput.t := ChoiceInput.mk None " yes " (Some true) None.
Definition blank : ChoiceInput.t := ChoiceInput.mk None "   " (Some true) None.
Definition no : ChoiceInput.t := ChoiceInput.mk None "no" None None.

Definition post (order : option Z) (given : list ChoiceInput.t) : CreateBody.t :=
  CreateBody.mk "quiz1" (Some " fourth ") None order (Some given).

Definition request (b : CreateBody.t) : Request CreateBody.t :=
  mkRequest (Some Scenario.root) true (Some b).

(** What the request with choices [yes], [blank], [no] and no [order]
    writes into the catalogue. *)
Definition row : Question.t := Question.mk "q9" "fourth" SINGLE_CHOICE 2 "quiz1".
Definition rows : list Choice.t :=
  [Choice.mk "n0" true 0 "q9"; Choice.mk "n1" false 2 "q9"].
Definition after : Store :=
  mkStore (quizzes Scenario.catalogue) (questions Scenario.catalogue ++ [row])
    (choices Scenario.catalogue ++ rows) [] [].

(** Two choices that ask for the same order. *)
Definition first_a : ChoiceInput.t := ChoiceInput.mk None "a" (Some true) (Some 0).
Definition first_b : ChoiceInput.t := ChoiceInput.mk None "b" None (Some 0).
End Authored.

(** A request of an administrator to delete question [id]. *)
Definition deletion (id : string) : Request (option string) :=
  mkRequest (Some Scenario.root) true (Some (Some id)).

(** [id] names a question that no answer row refers to. *)
Definition deletable (id : string) (s : Store) : Prop :=
  id ∈ Question.id <$> questions s ∧ Forall (λ r, Answer.questionId r ≠ id) (answers s).

(** The ids of the choices of question [id]. *)
Definition choiceIdsOf (id : string) (s : Store) : gset string :=
  Set_of (Choice.id <$> filter (λ c, Choice.questionId c = id) (choices s)).

(** The catalogue after a save whose entry for [q1] lists choice [G] of
    question [q3]: save does not validate choice ids. *)
Definition strayed : Store :=
  (save_POST Scenario.first
     (Scenario.request "quiz1" None [Scenario.pick "q1" ["A"; "G"]]) Scenario.catalogue).2.

(** ** Requests that reach the transaction *)

(** The request gets past the checks of [save] (lines 28-48): it is
    authenticated, within the rate limit, has a body with a [quizId], and
    the quiz exists and is published. *)
Definition served (req : Request Body.t) (au : AuthContext) (b : Body.t) (s : Store) : Prop :=
  auth req = Some au ∧ rateOk req = true ∧ body req = Some b
  ∧ Body.quizId b ≠ EmptyString
  ∧ ∃ quiz, quiz_findUnique (Body.quizId b) s = Some quiz ∧ Quiz.isPublished quiz = true.

(** The request gets past the checks of [submit] (lines 28-99): as for
    [save], and the quiz has questions and the scoring loop ends with
    [score]. *)
Definition validated (req : Request Body.t) (au : AuthContext) (b : Body.t) (score : Z)
    (s : Store) : Prop :=
  served req au b s
  ∧ question_findMany (Body.quizId b) s ≠ []
  ∧ scoreLoop (Map_of sel_id (question_findMany (Body.quizId b) s)) (Body.answers b) 0
    = inr score.

(** [Answer_attemptId_fkey] and [Answer_questionId_fkey] hold in the store. *)
Definition answers_refer (s : Store) : Prop :=
  Forall (λ r, Answer.attemptId r ∈ Attempt.id <$> attempts s
               ∧ Answer.questionId r ∈ Question.id <$> questions s) (answers s).

(** When the writes of a transaction of [userId] go through: every entry is
    writable; the entries go to a resolved attempt, or they name distinct
    questions and the number of the new attempt fits its column; and the
    score, when the transaction writes one, fits its column. *)
Definition writes_commit (resolved : option Attempt.t) (userId : string) (b : Body.t)
    (score : option Z) (s : Store) : Prop :=
  writable (Body.answers b) s
  ∧ (is_Some resolved
     ∨ (NoDup (AnswerInput.questionId <$> Body.answers b)
        ∧ int4 (nextAttemptNo userId (Body.quizId b) s) = true))
  ∧ int4 (default 0 score) = true.

(** No choice id of the entries is the empty string. *)
Definition choiceIds_truthy (xs : list AnswerInput.t) : Prop :=
  Forall (λ a, Forall (λ c, c ≠ EmptyString) (choiceIdsOrEmpty a)) xs.

(** ** Reading a quiz (the route of [/api/quiz], [GET] with an [id])

    The branch of [GET] that lists the published quizzes is not modelled. *)

(** A choice and a question as the page receives them
    ([select: { id, text, order }]: no [isCorrect]). *)
Module ChoiceView.
Record t := mk { id : string; order : Z }.
End ChoiceView.

Module QuestionView.
Record t := mk {
  id : string;
  type : QuestionType;
  order : Z;
  choices : list ChoiceView.t }.
End QuestionView.

#[global] Instance ChoiceView_eq_dec : EqDecision ChoiceView.t.
Proof. solve_decision. Defined.
#[global] Instance QuestionView_eq_dec : EqDecision QuestionView.t.
Proof. solve_decision. Defined.

Definition question_le (a b : Question.t) : Prop := Question.order a ≤ Question.order b.
#[global] Instance question_le_dec : RelDecision question_le.
Proof. intros a b. unfold question_le. apply _. Defined.

Definition choice_view (c : Choice.t) : ChoiceView.t :=
  ChoiceView.mk (Choice.id c) (Choice.order c).

Definition question_view (s : Store) (q : Question.t) : QuestionView.t :=
  QuestionView.mk (Question.id q) (Question.type q) (Question.order q)
    (choice_view <$> byOrder (sel_choices_of q s)).

(** [include: { questions: { orderBy: { order: "asc" }, include: { choices:
    { orderBy: { order: "asc" }, select: ... } } } }] *)
Definition quiz_questions (quizId : string) (s : Store) : list QuestionView.t :=
  question_view s
  <$> merge_sort question_le (filter (λ q, Question.quizId q = quizId) (questions s)).

(** [GET] (lines 19-55) for a request whose query has the non-empty [id];
    [auth req] is the outcome of [requireAuth]. *)
Definition quiz_GET (req : Request unit) (id : string) (s : Store) :
    Reply (Quiz.t * list QuestionView.t) :=
  if negb (rateOk req) then Refused 429 "Too many requests."
  else match quiz_findUnique id s with
  | None => Refused 404 "Quiz not found."
  | Some quiz =>
      if negb (Quiz.isPublished quiz) && negb (default false (isAdmin <$> auth req))
      then Refused 404 "Quiz not available."
      else Done 200 (quiz, quiz_questions id s)
  end.

(** ** The quiz page ([app/quiz/QuizPaper.tsx])

    The state [answersByQuestionId] is an object used as a map from question
    ids to arrays of choice ids.  [Object.entries] enumerates it in the order
    of its keys; here the entries are any enumeration of the map, and no
    property below depends on the order. *)

Module Paper.
Abbreviation State := (gmap string (list string)).

(** [Array.from(new Set(xs))]: the elements in the order of their first
    occurrence. *)
Fixpoint Array_from_Set (xs : list string) : list string :=
  match xs with
  | [] => []
  | x :: rest => x :: filter (λ y, y ≠ x) (Array_from_Set rest)
  end.

(** [normalizeChoices] (lines 77-79) *)
Definition normalizeChoices (choiceIds : list string) : list string :=
  Array_from_Set (filter (λ c, truthy c = true) choiceIds).

(** [Object.entries(answersByQuestionId)] *)
Definition entries_of (st : State) (entries : list (string * list string)) : Prop :=
  entries ≡ₚ map_to_list st.

(** [flattenedAnswers] (lines 115-122) *)
Definition flattenedAnswers (entries : list (string * list string)) : list AnswerInput.t :=
  (λ e, AnswerInput.mk e.1 (Some (normalizeChoices e.2)))
  <$> filter (λ e, (0 < length e.2)%nat) entries.

(** [toggleChoice] (lines 171-185), as a function on the state. *)
Definition toggleChoice (question : QuestionView.t) (choiceId : string) (prev : State) :
    State :=
  let existing := default [] (prev !! QuestionView.id question) in
  match QuestionView.type question with
  | SINGLE_CHOICE => <[QuestionView.id question := [choiceId]]> prev
  | MULTIPLE_CHOICE =>
      let set := Array_from_Set existing in
      <[QuestionView.id question :=
          if decide (choiceId ∈ set) then filter (λ y, y ≠ choiceId) set
          else set ++ [choiceId]]> prev
  end.

(** [answeredCount] (lines 161-169) *)
Definition answeredCount (questions : list QuestionView.t) (st : State) : Z :=
  foldl (λ count q,
           if decide (0 < length (default [] (st !! QuestionView.id q)))%nat
           then count + 1 else count)
    0 questions.

(** The body of the requests to [/api/quiz/save] and [/api/quiz/submit]
    (lines 133 and 195). *)
Definition body_of (quizId : string) (attemptId : option string)
    (entries : list (string * list string)) : Body.t :=
  Body.mk quizId attemptId (flattenedAnswers entries).

(** The states the inputs of the page lead to from an empty draft: each
    input toggles a choice of the question it is rendered under. *)
Inductive reachable (questions : list QuestionView.t) : State → Prop :=
| reachable_empty : reachable questions ∅
| reachable_toggle st q c :
    reachable questions st →
    q ∈ questions → c ∈ ChoiceView.id <$> QuestionView.choices q →
    reachable questions (toggleChoice q c st).
End Paper.

(** ** The page on the scenario *)

Module Session.
(** The questions of [quiz1] as the page receives them. *)
Definition view1 : QuestionView.t :=
  QuestionView.mk "q1" SINGLE_CHOICE 0 [ChoiceView.mk "A" 0; ChoiceView.mk "B" 1].
Definition view2 : QuestionView.t :=
  QuestionView.mk "q2" MULTIPLE_CHOICE 1
    [ChoiceView.mk "C" 0; ChoiceView.mk "D" 1; ChoiceView.mk "E" 2].

Definition visitor : Request unit := mkRequest (Some Scenario.alice) true (Some tt).

(** The state after choosing B then A for [q1], and C, E, D and again E for
    [q2]. *)
Definition inputs : gmap string (list string) :=
  Paper.toggleChoice view2 "E"
    (Paper.toggleChoice view2 "D"
       (Paper.toggleChoice view2 "E"
          (Paper.toggleChoice view2 "C"
             (Paper.toggleChoice view1 "A"
                (Paper.toggleChoice view1 "B" ∅))))).

(** The request the page sends for it. *)
Definition sent : Request Body.t :=
  mkRequest (Some Scenario.alice) true
    (Some (Paper.body_of "quiz1" None (map_to_list inputs))).
End Session.

(** ** Updating a question ([admin/question/route.ts], [PUT] without [move]) *)

(** An [UpdateBody] whose [move] is not set; [hint] and [rationale] are not
    columns of the model. *)
Module UpdateBody.
Record t := mk {
  id : string;
  prompt : option string;
  type : option QuestionType;
  order : option Z;
  choices : option (list ChoiceInput.t) }.
End UpdateBody.

(** [msg.includes(needle)] *)
Fixpoint includes (needle s : string) : bool :=
  String.prefix needle s
  || match s with
     | String _ rest => includes needle rest
     | EmptyString => false
     end.

(** [tx.choice.deleteMany({ where: { id: { in: ids } } })]; the rows of
    [_AnswerToChoice] of a deleted choice go with it (ON DELETE CASCADE). *)
Definition choice_deleteMany (ids : gset string) : Tx unit := λ s,
  inr (tt, mkStore (quizzes s) (questions s)
             (filter (λ c, Choice.id c ∉ ids) (choices s))
             (attempts s)
             ((λ r, Answer.mk (Answer.attemptId r) (Answer.questionId r)
                      (Answer.choices r ∖ ids)) <$> answers s)).

(** [tx.choice.update({ where: { id }, data: { text, order, isCorrect } })]:
    the choice is looked up by its id alone. *)
Definition choice_update (id : string) (isCorrect : bool) (order : Z) : Tx unit := λ s,
  match head (filter (λ c, Choice.id c = id) (choices s)) with
  | None => inl RecordNotFound
  | Some ch =>
      if negb (int4 order) then
        inl (ValueOutOfRange "order")
      else if decide (Exists (λ c, Choice.id c ≠ id ∧ Choice.questionId c = Choice.questionId ch
                              ∧ Choice.order c = order) (choices s)) then
        inl (UniqueConstraint "Choice_questionId_order_key")
      else
        inr (tt, mkStore (quizzes s) (questions s)
                   ((λ c, if decide (Choice.id c = id)
                          then Choice.mk id isCorrect order (Choice.questionId c) else c)
                    <$> choices s)
                   (attempts s) (answers s))
  end.

Section Updating.
Variable trim : string → string.
Variable env : AuthoringEnv.
(** The text of the error the client library throws for a failed
    statement. *)
Variable library_message : TxError → string.

(** The row [tx.question.update] writes: only the fields that are not
    [undefined] in the body are replaced. *)
Definition updatedRow (b : UpdateBody.t) (q : Question.t) : Question.t :=
  Question.mk (Question.id q)
    (default (Question.prompt q) (trim <$> UpdateBody.prompt b))
    (default (Question.type q) (UpdateBody.type b))
    (default (Question.order q) (UpdateBody.order b))
    (Question.quizId q).

(** [tx.question.update({ where: { id: body.id }, data: { ... } })]; an
    [order] of the body has to fit its column. *)
Definition question_update (b : UpdateBody.t) : Tx Question.t := λ s,
  match question_findUnique (UpdateBody.id b) s with
  | None => inl RecordNotFound
  | Some q =>
      if negb (default true (int4 <$> UpdateBody.order b)) then
        inl (ValueOutOfRange "order")
      else if decide (Exists (λ r, Question.id r ≠ Question.id q
                              ∧ Question.quizId r = Question.quizId q
                              ∧ Question.order r = Question.order (updatedRow b q))
                   (questions s)) then
        inl (UniqueConstraint "Question_quizId_order_key")
      else
        inr (updatedRow b q,
             with_questions
               (fmap (λ r, if decide (Question.id r = Question.id q)
                           then updatedRow b q else r)) s)
  end.

(** One turn of the loop of lines 219-235, for the choice at position [i]:
    [update] when the choice has an id, [create] otherwise. *)
Definition upsert_choice (questionId : string) (i : nat) (c : ChoiceInput.t) : Tx unit :=
  if truthy (default EmptyString (ChoiceInput.id c)) then
    choice_update (default EmptyString (ChoiceInput.id c)) (flagged c)
      (default 0 (ChoiceInput.order c))
  else
    choice_insert (Choice.mk (newChoiceId env i) (flagged c)
                     (default 0 (ChoiceInput.order c)) questionId).

(** Lines 199-236: the choices of the body, when it has some. *)
Definition update_choices (b : UpdateBody.t) (question : Question.t)
    (existing : list Choice.t) (given : list ChoiceInput.t) : Tx unit :=
  let incoming := normalizeChoices trim given in
  if decide (length incoming < 2)%nat then
    tx_throw (AppError "At least 2 non-empty choices are required.")
  else
    let effectiveType := default (Question.type question) (UpdateBody.type b) in
    match validateCorrectChoices effectiveType incoming with
    | Some validationMessage => tx_throw (AppError validationMessage)
    | None =>
        let existingIds : gset string := Set_of (Choice.id <$> existing) in
        let incomingIds : gset string :=
          Set_of (filter (λ i, truthy i = true) (omap ChoiceInput.id incoming)) in
        let toDelete := existingIds ∖ incomingIds in
        _ ← (if decide (toDelete = ∅) then mret tt else choice_deleteMany toDelete);
        tx_forEach (λ p, upsert_choice (Question.id question) p.1 p.2) (imap pair incoming)
    end.

(** Lines 186-242: the body of the transaction. *)
Definition update_tx (b : UpdateBody.t) : Tx (option (Question.t * list Choice.t)) :=
  question ← question_update b;
  existing ← tx_read (sel_choices_of question);
  _ ← match UpdateBody.choices b with
      | None => mret tt
      | Some given => update_choices b question existing given
      end;
  tx_read (λ s, (λ q, (q, byOrder (sel_choices_of q s)))
                <$> question_findUnique (Question.id question) s).

(** Lines 246-250: [e.message] and the status it maps to. *)
Definition update_errorMessage (e : TxError) : string :=
  match e with
  | AppError m => m
  | _ => library_message e
  end.

Definition update_errorStatus (e : TxError) : Z :=
  if includes "not found" (update_errorMessage e) then 404 else 400.

(** [PUT] (lines 140-150 and 185-250) for a body without [move]. *)
Definition PUT_update (req : Request UpdateBody.t) (s : Store) :
    Reply (Question.t * list Choice.t) * Store :=
  match auth req with
  | None => (Refused 403 "Forbidden.", s)
  | Some au =>
      if negb (isAdmin au) then (Refused 403 "Forbidden.", s)
      else if negb (rateOk req) then (Refused 429 "Too many requests.", s)
      else match body req with
      | None => (Refused 400 "id is required.", s)
      | Some b =>
          if negb (truthy (UpdateBody.id b)) then (Refused 400 "id is required.", s)
          else match transaction (update_tx b) s with
          | inr (Some updated, s') => (Done 200 updated, s')
          | inr (None, s') => (Refused 404 "Question not found.", s')
          | inl e => (Refused (update_errorStatus e) (update_errorMessage e), s)
          end
      end
  end.

(** The request reaches the transaction of [PUT] with body [b]. *)
Definition reaches_update (req : Request UpdateBody.t) (b : UpdateBody.t) : Prop :=
  (∃ au, auth req = Some au ∧ isAdmin au = true)
  ∧ rateOk req = true ∧ body req = Some b ∧ UpdateBody.id b ≠ EmptyString.
End Updating.

(** What the statements of the transaction of [PUT] leave alone. *)
Definition keeps_rows (s s' : Store) : Prop :=
  quizzes s' = quizzes s ∧ questions s' = questions s ∧ attempts s' = attempts s
  ∧ answerKey <$> answers s' = answerKey <$> answers s.

(** ** Updates on the scenario *)

Module Edited.
(** A stand-in for the texts of the client library. *)
Definition library_text (e : TxError) : string := "Invalid invocation.".

Definition put (b : UpdateBody.t) : Request UpdateBody.t :=
  mkRequest (Some Scenario.root) true (Some b).

(** Making [q2], which has two correct choices, SINGLE_CHOICE. *)
Definition retype : UpdateBody.t :=
  UpdateBody.mk "q2" None (Some SINGLE_CHOICE) None None.

(** A new prompt for [q1] with one choice and a blank. *)
Definition reword : UpdateBody.t :=
  UpdateBody.mk "q1" (Some "changed") None None (Some [Authored.yes; Authored.blank]).

(** The choices C and E for [q2], without D. *)
Definition keepC : ChoiceInput.t := ChoiceInput.mk (Some "C") "c" (Some true) None.
Definition keepE : ChoiceInput.t := ChoiceInput.mk (Some "E") "e" None None.
Definition prune : UpdateBody.t :=
  UpdateBody.mk "q2" None None None (Some [keepC; keepE]).
End Edited.

(** ** Publishing a quiz ([api/admin/quiz/route.ts], [PUT])

    Of the fields of the body the model keeps [isPublished]; the others are
    columns the model does not have. *)

Module QuizUpdate.
Record t := mk { id : string; isPublished : option bool }.
End QuizUpdate.

(** [prisma.quiz.update({ where: { id: body.id }, data: { ... } })] *)
Definition quiz_update (b : QuizUpdate.t) : Tx Quiz.t := λ s,
  match quiz_findUnique (QuizUpdate.id b) s with
  | None => inl RecordNotFound
  | Some quiz =>
      let updated :=
        Quiz.mk (Quiz.id quiz) (default (Quiz.isPublished quiz) (QuizUpdate.isPublished b)) in
      inr (updated,
           mkStore ((λ r, if decide (Quiz.id r = Quiz.id quiz) then updated else r)
                    <$> quizzes s)
             (questions s) (choices s) (attempts s) (answers s))
  end.

(** [PUT] (lines 91-124); the update is not in a [try]. *)
Definition quiz_PUT (req : Request QuizUpdate.t) (s : Store) : Reply Quiz.t * Store :=
  match auth req with
  | None => (Refused 403 "Forbidden.", s)
  | Some au =>
      if negb (isAdmin au) then (Refused 403 "Forbidden.", s)
      else if negb (rateOk req) then (Refused 429 "Too many requests.", s)
      else match body req with
      | None => (Refused 400 "id is required.", s)
      | Some b =>
          if negb (truthy (QuizUpdate.id b)) then (Refused 400 "id is required.", s)
          else match quiz_update b s with
          | inl _ => (Crashed, s)
          | inr (quiz, s') => (Done 200 quiz, s')
          end
      end
  end.

(** An administrator setting [isPublished] of quiz [id]. *)
Definition publish (id : string) (flag : bool) : Request QuizUpdate.t :=
  mkRequest (Some Scenario.root) true (Some (QuizUpdate.mk id (Some flag))).

(** ** The constraints on attempts and answers

    [Attempt_pkey], [Attempt_userId_quizId_attemptNo_key],
    [Attempt_quizId_fkey], [Answer_attemptId_questionId_key], the foreign
    keys of [Answer], and [_AnswerToChoice_B_fkey]. *)

Definition attemptKey (a : Attempt.t) : string * string * Z :=
  (Attempt.userId a, Attempt.quizId a, Attempt.attemptNo a).

(** The choices of the answers exist. *)
Definition answers_choose (s : Store) : Prop :=
  Forall (λ r, ∀ c, c ∈ Answer.choices r → c ∈ Choice.id <$> choices s) (answers s).

Definition answers_consistent (s : Store) : Prop :=
  NoDup (answerKey <$> answers s) ∧ answers_refer s ∧ answers_choose s.

Definition attempts_consistent (s : Store) : Prop :=
  NoDup (Attempt.id <$> attempts s)
  ∧ NoDup (attemptKey <$> attempts s)
  ∧ Forall (λ a, Attempt.quizId a ∈ Quiz.id <$> quizzes s) (attempts s).

Definition consistent (s : Store) : Prop :=
  attempts_consistent s ∧ answers_consistent s.

(** * Properties *)

(** Closed decidable goals are settled by evaluation. *)
Ltac by_evaluation := apply (bool_decide_unpack _); vm_compute; exact I.

(** ** The scoring rule *)

Section Scoring.
Implicit Types submitted correct : gset string.

Lemma forallb_elements submitted correct :
  forallb (λ cid, bool_decide (cid ∈ correct)) (elements submitted) = true
  ↔ submitted ⊆ correct.
Proof.
  rewrite forallb_forall. split.
  - intros H x Hx. apply elem_of_elements, list_elem_of_In, H in Hx.
    by apply bool_decide_eq_true in Hx.
  - intros H x Hx. apply bool_decide_eq_true, H, elem_of_elements.
    by apply list_elem_of_In.
Qed.

Lemma isCorrect_single submitted correct :
  isCorrect SINGLE_CHOICE submitted correct = true
  ↔ ∃ c, submitted = {[c]} ∧ c ∈ correct ∧ size correct = 1%nat.
Proof.
  unfold isCorrect. destruct (decide (size submitted ≠ 1%nat)) as [Hne | Heq].
  - split; [done |]. intros (c & -> & _). by rewrite size_singleton in Hne.
  - apply dec_stable in Heq. destruct (size_1_elem_of _ Heq) as [c Hc].
    apply leibniz_equiv in Hc. subst submitted. rewrite elements_singleton.
    rewrite andb_true_iff, !bool_decide_eq_true. split.
    + intros [??]. by exists c.
    + intros (c' & Hs & ? & ?). apply singleton_inj in Hs. by subst c'.
Qed.

Lemma isCorrect_multiple submitted correct :
  isCorrect MULTIPLE_CHOICE submitted correct = true ↔ submitted = correct.
Proof.
  unfold isCorrect. destruct (decide (size submitted ≠ size correct)) as [Hne | Heq].
  - split; [done |]. intros ->. by destruct Hne.
  - apply dec_stable in Heq. rewrite forallb_elements. split.
    + intros Hsub. symmetry. apply set_subseteq_size_eq; [done | lia].
    + by intros ->.
Qed.
End Scoring.

(** One turn of the scoring loop for an entry that passes validation. *)
Lemma scoreLoop_valid byQuestionId a q rest score :
  byQuestionId !! AnswerInput.questionId a = Some q →
  submittedSet a ⊆ validChoiceIds q →
  scoreLoop byQuestionId (a :: rest) score
  = scoreLoop byQuestionId rest
      (if isCorrect (sel_type q) (submittedSet a) (correctSet q) then score + 1 else score).
Proof.
  intros Hq Hvalid. simpl. rewrite Hq.
  apply forallb_elements in Hvalid. by rewrite Hvalid.
Qed.










(** ** Validation *)

Lemma foldl_insert_lookup {V} (key : V → string) (vs : list V) (m : gmap string V) k :
  foldl (λ m v, <[key v := v]> m) m vs !! k
  = match last (filter (λ v, key v = k) vs) with
    | Some v => Some v
    | None => m !! k
    end.
Proof.
  revert m. induction vs as [| v vs IH]; intros m; [done |].
  simpl. rewrite IH, filter_cons. destruct (decide (key v = k)) as [<- | Hne].
  - rewrite last_cons. destruct (last _); [done |]. apply lookup_insert_eq.
  - destruct (last _); [done |]. by apply lookup_insert_ne.
Qed.

Lemma Map_of_Some {V} (key : V → string) (vs : list V) k v :
  Map_of key vs !! k = Some v → v ∈ vs ∧ key v = k.
Proof.
  unfold Map_of. rewrite foldl_insert_lookup.
  destruct (last _) as [w |] eqn:E; [| by rewrite lookup_empty].
  intros [= ->]. by apply last_Some_elem_of, list_elem_of_filter in E as [? ?].
Qed.

Lemma Map_of_None {V} (key : V → string) (vs : list V) k :
  Map_of key vs !! k = None ↔ k ∉ key <$> vs.
Proof.
  unfold Map_of. rewrite foldl_insert_lookup. split.
  - destruct (last _) eqn:E; [done |]. intros _ Hin.
    apply list_elem_of_fmap in Hin as (v & -> & Hv).
    apply last_None in E.
    assert (v ∈ filter (λ v', key v' = key v) vs) as Hf by by apply list_elem_of_filter.
    rewrite E in Hf. by apply not_elem_of_nil in Hf.
  - intros Hnot. destruct (last _) as [w |] eqn:E; [| apply lookup_empty].
    apply last_Some_elem_of, list_elem_of_filter in E as [<- Hw].
    destruct Hnot. by apply list_elem_of_fmap_2.
Qed.

Lemma question_findMany_ids quizId s :
  sel_id <$> question_findMany quizId s
  = Question.id <$> filter (λ q, Question.quizId q = quizId) (questions s).
Proof. unfold question_findMany. by rewrite <- list_fmap_compose. Qed.

Lemma question_findMany_choices quizId s q :
  q ∈ question_findMany quizId s →
  sel_choices q = filter (λ c, Choice.questionId c = sel_id q) (choices s).
Proof.
  unfold question_findMany. intros Hq.
  apply list_elem_of_fmap in Hq as (row & -> & _). done.
Qed.

(** An entry is rejected by the loop when its question is unknown or one of
    its truthy choice ids is not a choice of the question. *)
Lemma scoreLoop_rejects byQuestionId answers score a :
  a ∈ answers →
  (byQuestionId !! AnswerInput.questionId a = None
   ∨ ∃ q, byQuestionId !! AnswerInput.questionId a = Some q
          ∧ ¬ submittedSet a ⊆ validChoiceIds q) →
  ∃ msg, scoreLoop byQuestionId answers score = inl (jsonError msg 400).
Proof.
  intros Hin Hbad. revert score.
  induction answers as [| h rest IH]; intros score; [by apply not_elem_of_nil in Hin |].
  simpl. destruct (byQuestionId !! AnswerInput.questionId h) as [q |] eqn:Hq; [| by eexists].
  destruct (forallb _ _) eqn:Hvalid; [| by eexists].
  apply elem_of_cons in Hin as [-> | Hin]; [| by apply IH].
  apply forallb_elements in Hvalid.
  destruct Hbad as [Hnone | (q' & Hq' & Hbad)]; [congruence |].
  rewrite Hq in Hq'. injection Hq' as <-. done.
Qed.

(** What the validation of lines 67-79 does reject: if an entry of a submit
    request names a question that is not of the quiz, or a non-empty choice
    id that is not of that question, the request is answered with a 4xx
    error and the store is unchanged. *)
Lemma invalid_reference_rejected
    (env : Env) (req : Request Body.t) (s : Store) (b : Body.t) (a : AnswerInput.t) :
  body req = Some b →
  a ∈ Body.answers b →
  foreign_question b a s ∨ (∃ c, foreign_choice a c s ∧ c ≠ EmptyString) →
  is4xx (submit_POST env req s).1 = true
  ∧ (∃ msg, payload (submit_POST env req s).1 = ErrorBody msg)
  ∧ (submit_POST env req s).2 = s.
Proof.
  intros Hb Hin Hbad. unfold submit_POST. rewrite Hb.
  destruct (auth req) as [au |]; [| by eauto].
  destruct (rateOk req); [| by eauto]. simpl negb. cbv iota.
  destruct (truthy (Body.quizId b)); [| by eauto]. simpl negb. cbv iota.
  destruct (quiz_findUnique _ s) as [quiz |]; [| by eauto].
  destruct (Quiz.isPublished quiz); [| by eauto]. simpl negb. cbv iota zeta.
  destruct (decide (length _ = 0%nat)); [by eauto |].
  set (byQ := Map_of sel_id (question_findMany (Body.quizId b) s)).
  assert (Hrej : ∃ msg, scoreLoop byQ (Body.answers b) 0 = inl (jsonError msg 400)).
  { apply (scoreLoop_rejects _ _ _ a Hin).
    destruct (byQ !! AnswerInput.questionId a) as [q |] eqn:Hq; [right | by left].
    exists q. split; [done |].
    apply Map_of_Some in Hq as [Hq Hid].
    destruct Hbad as [Hbad | (c & [Hc Hnot] & Hne)].
    - destruct Hbad. rewrite <- question_findMany_ids, <- Hid.
      by apply list_elem_of_fmap_2.
    - intros Hsub. apply Hnot. rewrite <- Hid.
      rewrite <- (question_findMany_choices _ _ _ Hq).
      apply (elem_of_list_to_set (C := gset string)), Hsub.
      unfold submittedSet, Set_of.
      apply elem_of_list_to_set, list_elem_of_filter. split; [| done].
      unfold truthy. by destruct (decide (c = EmptyString)). }
  destruct Hrej as [msg ->]. by eauto.
Qed.

(** On the scenario: choice C belongs to [q2], not to [q1]. *)
Lemma invalid_reference_rejected_witness :
  let a := Scenario.pick "q1" ["C"] in
  let req := Scenario.request "quiz1" None [a] in
  (a ∈ [a] ∧ ∃ c, foreign_choice a c Scenario.catalogue ∧ c ≠ EmptyString)
  ∧ is4xx (submit_POST Scenario.first req Scenario.catalogue).1 = true
  ∧ (∃ msg, payload (submit_POST Scenario.first req Scenario.catalogue).1 = ErrorBody msg)
  ∧ (submit_POST Scenario.first req Scenario.catalogue).2 = Scenario.catalogue.
Proof.
  intros a req.
  assert (Hin : a ∈ [a]) by by_evaluation.
  assert (Hbad : ∃ c, foreign_choice a c Scenario.catalogue ∧ c ≠ EmptyString).
  { exists "C". split; [split |]; by_evaluation. }
  split; [by split |].
  exact (invalid_reference_rejected Scenario.first req Scenario.catalogue
           (Body.mk "quiz1" None [a]) a eq_refl Hin (or_intror Hbad)).
Defined.

(** C3 at its failing input: the empty string is not a choice of [q1], yet
    the validation lets the entry through, because line 71 drops the empty
    string from the set that lines 75-79 check; the write of line 162 then
    connects the unfiltered id, which names no choice, and throws.  The
    request ends in 500, not in a 4xx error. *)
Example falsy_choiceId_passes_validation :
  let a := Scenario.pick "q1" [EmptyString] in
  let req := Scenario.request "quiz1" None [a] in
  foreign_choice a EmptyString Scenario.catalogue
  ∧ scoreLoop (Map_of sel_id (question_findMany "quiz1" Scenario.catalogue)) [a] 0 = inr 0
  ∧ (∃ e, submit_tx Scenario.first "u1" (Body.mk "quiz1" None [a]) 0 Scenario.catalogue
          = inl e)
  ∧ submit_POST Scenario.first req Scenario.catalogue = (uncaught, Scenario.catalogue)
  ∧ is4xx (submit_POST Scenario.first req Scenario.catalogue).1 = false.
Proof.
  intros a req. split; [split; by_evaluation |].
  split; [by vm_compute |]. split; [eexists; vm_compute; reflexivity |].
  split; by vm_compute.
Qed.

(** C2 at its failing input: with the draft attempt [att1] as hint, three
    entries for the one question [q1], each with its correct choice A, are
    accepted and scored 3, for a quiz of 2 questions of which one is
    answered. *)
Example duplicate_entries_scored_per_entry :
  let answers := [Scenario.pick "q1" ["A"]; Scenario.pick "q1" ["A"]; Scenario.pick "q1" ["A"]] in
  (submit_POST Scenario.second (Scenario.request "quiz1" (Some "att1") answers)
     Scenario.drafted).1
  = jsonOk (SubmitOk "att1" (Some 3) 1 2).
Proof. by vm_compute. Qed.

(** The scenario of the specification: 2 of 2, and 0 of 2. *)
Example scenario_all_correct :
  (submit_POST Scenario.first
     (Scenario.request "quiz1" None [Scenario.pick "q1" ["A"]; Scenario.pick "q2" ["C"; "D"]])
     Scenario.catalogue).1
  = jsonOk (SubmitOk "att1" (Some 2) 1 2).
Proof. by vm_compute. Qed.

Example scenario_none_correct :
  (submit_POST Scenario.first
     (Scenario.request "quiz1" None [Scenario.pick "q1" ["B"]; Scenario.pick "q2" ["C"]])
     Scenario.catalogue).1
  = jsonOk (SubmitOk "att1" (Some 0) 1 2).
Proof. by vm_compute. Qed.





(** The same for a whole request with an empty list of choices. *)
Example empty_answer_scores_on_malformed_question :
  (submit_POST Scenario.first (Scenario.request "quiz2" None [Scenario.pick "q3" []])
     Scenario.catalogue).1
  = jsonOk (SubmitOk "att1" (Some 1) 1 1).
Proof. by vm_compute. Qed.

(** ** Lookups *)

Lemma firstBy_None {A} (before : A → A → bool) rows :
  firstBy before rows = None ↔ rows = [].
Proof. by destruct rows. Qed.

Lemma foldl_pick_elem {A} (before : A → A → bool) rest x :
  foldl (λ best y, if before y best then y else best) x rest ∈ x :: rest.
Proof.
  revert x. induction rest as [| y rest IH]; intros x; simpl; [by left |].
  destruct (before y x).
  - right. apply IH.
  - specialize (IH x). apply elem_of_cons in IH as [-> | ?]; [by left | by do 2 right].
Qed.

Lemma firstBy_elem {A} (before : A → A → bool) rows r :
  firstBy before rows = Some r → r ∈ rows.
Proof. destruct rows; [done |]. intros [= <-]. apply foldl_pick_elem. Qed.

(** With [orderBy: { key: "desc" }] the row found has the greatest key. *)
Lemma foldl_pick_grows {A} (key : A → Z) rest x :
  key x ≤ key (foldl (λ best y, if key best <? key y then y else best) x rest).
Proof.
  revert x. induction rest as [| z rest IH]; intros x; simpl; [lia |].
  destruct (Z.ltb_spec (key x) (key z)); [| apply IH].
  etrans; [| apply IH]. lia.
Qed.

Lemma foldl_pick_greatest {A} (key : A → Z) rest x y :
  y ∈ x :: rest →
  key y ≤ key (foldl (λ best y, if key best <? key y then y else best) x rest).
Proof.
  intros Hy. apply elem_of_cons in Hy as [-> | Hy]; [apply foldl_pick_grows |].
  revert x. induction rest as [| z rest IH]; intros x; [by apply not_elem_of_nil in Hy |].
  simpl. apply elem_of_cons in Hy as [-> | Hy]; [| by apply IH].
  etrans; [| apply foldl_pick_grows].
  destruct (Z.ltb_spec (key x) (key z)); lia.
Qed.

Lemma firstBy_greatest {A} (key : A → Z) rows r y :
  firstBy (λ y x, key x <? key y) rows = Some r → y ∈ rows → key y ≤ key r.
Proof. destruct rows; [done |]. intros [= <-]. apply foldl_pick_greatest. Qed.

Lemma attempt_findHinted_Some h u q s a :
  attempt_findHinted h u q s = Some a →
  a ∈ attempts s ∧ Attempt.id a = h ∧ Attempt.userId a = u ∧ Attempt.quizId a = q
  ∧ Attempt.status a = IN_PROGRESS.
Proof.
  intros H. apply head_Some_elem_of, list_elem_of_filter in H. tauto.
Qed.

Lemma attempt_findHinted_None h u q s :
  attempt_findHinted h u q s = None ↔
  ∀ a, a ∈ attempts s →
       ¬ (Attempt.id a = h ∧ Attempt.userId a = u ∧ Attempt.quizId a = q
          ∧ Attempt.status a = IN_PROGRESS).
Proof.
  unfold attempt_findHinted. rewrite head_None. split.
  - intros Hnil a Ha HP. eapply filter_nil_not_elem_of; [exact Hnil | exact HP | exact Ha].
  - intros Hall. destruct (filter _ _) as [| a l] eqn:E; [done |].
    assert (Ha : a ∈ a :: l) by by left.
    rewrite <- E in Ha. apply list_elem_of_filter in Ha as [HP Ha]. by destruct (Hall a Ha).
Qed.

Lemma attempt_findLatest_Some u q s a :
  attempt_findLatest u q s = Some a →
  a ∈ attempts s ∧ Attempt.userId a = u ∧ Attempt.quizId a = q
  ∧ Attempt.status a = IN_PROGRESS
  ∧ ∀ a', a' ∈ attempts s → Attempt.userId a' = u → Attempt.quizId a' = q →
          Attempt.status a' = IN_PROGRESS → Attempt.startedAt a' ≤ Attempt.startedAt a.
Proof.
  unfold attempt_findLatest. intros H.
  pose proof (firstBy_elem _ _ _ H) as Hin. apply list_elem_of_filter in Hin.
  split_and!; try tauto.
  intros a' Ha' ???. apply (firstBy_greatest Attempt.startedAt _ _ a' H).
  by apply list_elem_of_filter.
Qed.

Lemma attempt_findLatest_None u q s :
  attempt_findLatest u q s = None ↔
  ∀ a, a ∈ attempts s →
       ¬ (Attempt.userId a = u ∧ Attempt.quizId a = q ∧ Attempt.status a = IN_PROGRESS).
Proof.
  unfold attempt_findLatest. rewrite firstBy_None. split.
  - intros Hnil a Ha HP. eapply filter_nil_not_elem_of; [exact Hnil | exact HP | exact Ha].
  - intros Hall. destruct (filter _ _) as [| a l] eqn:E; [done |].
    assert (Ha : a ∈ a :: l) by by left.
    rewrite <- E in Ha. apply list_elem_of_filter in Ha as [HP Ha]. by destruct (Hall a Ha).
Qed.

Lemma save_resolve_in_progress u b s r :
  save_resolve u b s = Some r → r ∈ attempts s ∧ Attempt.status r = IN_PROGRESS.
Proof.
  unfold save_resolve. destruct (hintOf b); intros H.
  - apply attempt_findHinted_Some in H. tauto.
  - apply attempt_findLatest_Some in H. tauto.
Qed.

Lemma submit_resolve_in_progress u b s r :
  submit_resolve u b s = Some r → r ∈ attempts s ∧ Attempt.status r = IN_PROGRESS.
Proof.
  unfold submit_resolve. destruct (hintOf b); intros H; [| done].
  apply attempt_findHinted_Some in H. tauto.
Qed.

(** ** What a transaction changes *)

Lemma touches_only_refl aid s : touches_only aid s s.
Proof. by repeat split. Qed.

Lemma touches_only_trans aid s1 s2 s3 :
  touches_only aid s1 s2 → touches_only aid s2 s3 → touches_only aid s1 s3.
Proof.
  intros (?&?&?&?&H12) (?&?&?&?&H23). repeat split; try congruence.
  intros other Hne. by rewrite H23, H12.
Qed.

Lemma tx_forEach_preorder {A} (R : Store → Store → Prop) (f : A → Tx unit) xs :
  (∀ s, R s s) → (∀ s1 s2 s3, R s1 s2 → R s2 s3 → R s1 s3) →
  (∀ a s u s', a ∈ xs → f a s = inr (u, s') → R s s') →
  ∀ s u s', tx_forEach f xs s = inr (u, s') → R s s'.
Proof.
  intros Hrefl Htrans. induction xs as [| a xs IH]; intros Hf s u s'; simpl.
  - intros [= _ <-]. apply Hrefl.
  - unfold mbind, tx_bind. destruct (f a s) as [e | [[] s1]] eqn:E; [done |].
    intros H. apply (Htrans _ s1).
    + eapply Hf; [by left | exact E].
    + eapply IH; [| exact H]. intros. eapply Hf; [by right | done].
Qed.

Lemma answer_create_touches aid a s u s' :
  answer_create aid a s = inr (u, s') → touches_only aid s s'.
Proof.
  unfold answer_create. repeat case_match; try done.
  intros [= _ <-]. repeat split. intros other Hne. unfold answersOf. simpl.
  rewrite filter_app, filter_cons, filter_nil. simpl.
  destruct (decide (aid = other)); [congruence |]. by rewrite app_nil_r.
Qed.

Lemma answer_upsert_touches aid a s u s' :
  answer_upsert aid a s = inr (u, s') → touches_only aid s s'.
Proof.
  unfold answer_upsert. destruct (answer_exists _ _ _); [| apply answer_create_touches].
  destruct (connectable _ _); [| done].
  intros [= _ <-]. repeat split. intros other Hne. unfold answersOf. simpl.
  induction (answers s) as [| r rows IH]; [done |].
  rewrite fmap_cons, !filter_cons, IH.
  assert (Hid : Answer.attemptId (set_choices aid a r) = Answer.attemptId r)
    by (unfold set_choices; by destruct (decide _)).
  rewrite Hid. destruct (decide (Answer.attemptId r = other)) as [Ho |]; [| done].
  f_equal. unfold set_choices. rewrite decide_False; [done |]. intros [? _]. congruence.
Qed.

Lemma upsert_all_touches aid xs s u s' :
  tx_forEach (answer_upsert aid) xs s = inr (u, s') → touches_only aid s s'.
Proof.
  apply tx_forEach_preorder.
  - apply touches_only_refl.
  - apply touches_only_trans.
  - intros a s1 u1 s2 _ H. exact (answer_upsert_touches _ _ _ _ _ H).
Qed.

Lemma attempt_create_created row nested s r s' :
  attempt_create row nested s = inr (r, s') → r = row ∧ created row s s'.
Proof.
  unfold attempt_create, mbind, tx_bind, mret, tx_ret.
  destruct (int4 (Attempt.attemptNo row)); [| done].
  destruct (int4 (default 0 (Attempt.score row))); [| done]. cbn [negb].
  destruct (decide (Attempt.id row ∈ _)) as [| Hfresh]; [done |].
  destruct (decide (Exists _ _)); [done |].
  destruct (decide (Attempt.quizId row ∈ _)); [| done].
  destruct (tx_forEach _ _ _) as [err | [[] s1]] eqn:E; [done |].
  intros [= <- <-]. split; [done |].
  eapply (tx_forEach_preorder (touches_only (Attempt.id row))) in E;
    [| apply touches_only_refl | apply touches_only_trans
     | intros a s2 u2 s3 _ H; exact (answer_create_touches _ _ _ _ _ H)].
  destruct E as (?&?&?&?&?). by repeat split.
Qed.

Lemma attempt_update_finalize id t sc s r s' :
  attempt_update id (finalize t sc) s = inr (r, s') →
  s' = with_attempts (finalize_row id t sc) s.
Proof.
  unfold attempt_update. destruct (head _); [| done].
  destruct (negb _); [done |]. by intros [= _ <-].
Qed.

Lemma save_tx_commit env u b s r s' :
  save_tx env u b s = inr (r, s') →
  (save_resolve u b s = Some r ∧ touches_only (Attempt.id r) s s')
  ∨ (save_resolve u b s = None
     ∧ r = Attempt.mk (newAttemptId env) IN_PROGRESS (nextAttemptNo u (Body.quizId b) s)
             (now env) None None u (Body.quizId b)
     ∧ created r s s').
Proof.
  unfold save_tx, mbind, tx_bind, tx_read, mret, tx_ret.
  destruct (save_resolve u b s) as [r0 |].
  - destruct (tx_forEach _ _ _) as [err | [[] s1]] eqn:E; [done |].
    intros [= <- <-]. left. split; [done |]. by eapply upsert_all_touches.
  - intros H. apply attempt_create_created in H as [-> H]. right.
    split; [done |]. split; [reflexivity | exact H].
Qed.

Lemma submit_tx_commit env u b score s r s' :
  submit_tx env u b score s = inr (r, s') →
  (∃ e s1, submit_resolve u b s = Some e
           ∧ Attempt.id r = Attempt.id e ∧ Attempt.score r = Some score
           ∧ touches_only (Attempt.id e) s s1
           ∧ s' = with_attempts (finalize_row (Attempt.id e) (now env) score) s1)
  ∨ (submit_resolve u b s = None
     ∧ r = Attempt.mk (newAttemptId env) SUBMITTED (nextAttemptNo u (Body.quizId b) s)
             (now env) (Some (now env)) (Some score) u (Body.quizId b)
     ∧ created r s s').
Proof.
  unfold submit_tx, mbind, tx_bind, tx_read.
  destruct (submit_resolve u b s) as [e |].
  - destruct (tx_forEach _ _ _) as [err | [[] s1]] eqn:E; [done |].
    intros H. left. exists e, s1. split; [done |].
    pose proof (attempt_update_finalize _ _ _ _ _ _ H) as ->.
    apply upsert_all_touches in E.
    unfold attempt_update in H. destruct (head _) as [a |] eqn:Ha; [| done].
    destruct (negb _); [done |].
    injection H as <-. apply head_Some_elem_of, list_elem_of_filter in Ha as [Ha _].
    by split_and!.
  - intros H. apply attempt_create_created in H as [-> H]. right.
    split; [done |]. split; [reflexivity | exact H].
Qed.

(** A save either answers with an error and leaves the store alone, or
    commits its transaction and reports the attempt it worked on. *)
Lemma save_POST_cases env req s :
  ((save_POST env req s).2 = s ∧ status (save_POST env req s).1 ≠ 200)
  ∨ ∃ au b r quiz,
      auth req = Some au ∧ body req = Some b
      ∧ save_tx env (auth_userId au) b s = inr (r, (save_POST env req s).2)
      ∧ (save_POST env req s).1 = jsonOk (SaveOk (Attempt.id r) (Attempt.attemptNo r))
      ∧ rateOk req = true ∧ truthy (Body.quizId b) = true
      ∧ quiz_findUnique (Body.quizId b) s = Some quiz ∧ Quiz.isPublished quiz = true.
Proof.
  unfold save_POST, transaction.
  destruct (auth req) as [au |]; [| by left].
  destruct (rateOk req); [| by left]. simpl negb. cbv iota.
  destruct (body req) as [b |]; [| by left].
  destruct (truthy (Body.quizId b)) eqn:Hq; [| by left]. simpl negb. cbv iota.
  destruct (quiz_findUnique _ s) as [quiz |] eqn:Hquiz; [| by left].
  destruct (Quiz.isPublished quiz) eqn:Hpub; [| by left]. simpl negb. cbv iota.
  destruct (save_tx _ _ _ _) as [err | [r s']] eqn:E; [by left |].
  right. by exists au, b, r, quiz.
Qed.

Lemma scoreLoop_status byQuestionId answers score resp :
  scoreLoop byQuestionId answers score = inl resp → status resp = 400.
Proof.
  revert score. induction answers as [| a rest IH]; intros score; simpl; [done |].
  destruct (byQuestionId !! _) as [q |]; [| by intros [= <-]].
  destruct (forallb _ _); [apply IH | by intros [= <-]].
Qed.

Lemma submit_POST_cases env req s :
  ((submit_POST env req s).2 = s ∧ status (submit_POST env req s).1 ≠ 200)
  ∨ ∃ au b score r,
      auth req = Some au ∧ body req = Some b
      ∧ scoreLoop (Map_of sel_id (question_findMany (Body.quizId b) s)) (Body.answers b) 0
        = inr score
      ∧ submit_tx env (auth_userId au) b score s = inr (r, (submit_POST env req s).2)
      ∧ (submit_POST env req s).1
        = jsonOk (SubmitOk (Attempt.id r) (Attempt.score r) (Attempt.attemptNo r)
                    (Z.of_nat (length (question_findMany (Body.quizId b) s)))).
Proof.
  unfold submit_POST, transaction.
  destruct (auth req) as [au |]; [| by left].
  destruct (rateOk req); [| by left]. simpl negb. cbv iota.
  destruct (body req) as [b |]; [| by left].
  destruct (truthy (Body.quizId b)); [| by left]. simpl negb. cbv iota.
  destruct (quiz_findUnique _ s) as [quiz |]; [| by left].
  destruct (Quiz.isPublished quiz); [| by left]. simpl negb. cbv iota zeta.
  destruct (decide (length _ = 0%nat)); [by left |].
  destruct (scoreLoop _ _ _) as [resp | score] eqn:Hscore.
  { left. split; [done |]. simpl. by rewrite (scoreLoop_status _ _ _ _ Hscore). }
  destruct (submit_tx _ _ _ _ _) as [err | [r s']] eqn:E; [by left |].
  right. by exists au, b, score, r.
Qed.

(** ** The store transitions of save and submit *)

Lemma step_transition s o : transition s (step s o).
Proof.
  destruct o as [env req | env req]; simpl.
  - destruct (save_POST_cases env req s) as [[-> _] | (au & b & r & quiz & _ & _ & Htx & _)];
      [by apply transition_none |].
    apply save_tx_commit in Htx as [[Hres Ht] | (_ & -> & Hc)].
    + apply save_resolve_in_progress in Hres as [??]. by eapply transition_upsert.
    + by eapply transition_create.
  - destruct (submit_POST_cases env req s)
      as [[-> _] | (au & b & score & r & _ & _ & _ & Htx & _)];
      [by apply transition_none |].
    apply submit_tx_commit in Htx as [(e & s1 & Hres & _ & _ & Ht & Hs') | (_ & -> & Hc)].
    + apply submit_resolve_in_progress in Hres as [??]. by eapply transition_finalize.
    + by eapply transition_create.
Qed.

(** ** Submitted attempts are final *)

Lemma same_key_same_row {A B} (key : A → B) (rows : list A) a b :
  NoDup (key <$> rows) → a ∈ rows → b ∈ rows → key a = key b → a = b.
Proof.
  induction rows as [| r rows IH]; [by intros _ ?%not_elem_of_nil |].
  rewrite fmap_cons, NoDup_cons. intros [Hr Hnd] Ha Hb Hid.
  apply elem_of_cons in Ha as [-> | Ha]; apply elem_of_cons in Hb as [-> | Hb].
  - done.
  - destruct Hr. rewrite Hid. by apply list_elem_of_fmap_2.
  - destruct Hr. rewrite <- Hid. by apply list_elem_of_fmap_2.
  - by apply IH.
Qed.

Lemma same_id_same_row (rows : list Attempt.t) a b :
  NoDup (Attempt.id <$> rows) → a ∈ rows → b ∈ rows →
  Attempt.id a = Attempt.id b → a = b.
Proof. apply same_key_same_row. Qed.

Lemma finalize_row_ids id t score rows :
  Attempt.id <$> finalize_row id t score rows = Attempt.id <$> rows.
Proof.
  unfold finalize_row. rewrite <- list_fmap_compose. apply list_fmap_ext.
  intros _ x _. simpl. by destruct (decide _).
Qed.

Lemma finalize_row_other id t score rows a :
  a ∈ rows → Attempt.id a ≠ id → a ∈ finalize_row id t score rows.
Proof.
  intros Ha Hne. unfold finalize_row. apply list_elem_of_fmap. exists a.
  split; [| done]. by destruct (decide _).
Qed.

Lemma transition_ids_NoDup s s' :
  transition s s' → NoDup (Attempt.id <$> attempts s) → NoDup (Attempt.id <$> attempts s').
Proof.
  intros [-> | r _ _ (_&_&_&->&_) | row (Hfresh&_&_&_&->&_) _
          | e s1 t score _ _ (_&_&_&Hs1&_) ->] Hnd; try done.
  - rewrite fmap_app. apply NoDup_app. split_and!; [done | | apply NoDup_singleton].
    intros x Hx ->%list_elem_of_singleton. done.
  - simpl. by rewrite finalize_row_ids, Hs1.
Qed.

Lemma transition_keeps_final s s' a :
  transition s s' → NoDup (Attempt.id <$> attempts s) →
  a ∈ attempts s → Attempt.status a ≠ IN_PROGRESS →
  a ∈ attempts s' ∧ answersOf (Attempt.id a) s' = answersOf (Attempt.id a) s.
Proof.
  intros [-> | r Hr Hst (_&_&_&Hatt&Hans) | row (Hfresh&_&_&_&Hatt&Hans) _
          | e s1 t score He Hst (_&_&_&Hatt&Hans) ->] Hnd Ha Hfinal; [done | | |].
  - rewrite Hatt. split; [done |]. apply Hans. intros Hid.
    apply (same_id_same_row _ _ _ Hnd Ha Hr) in Hid. congruence.
  - rewrite Hatt. split; [apply elem_of_app; by left |]. apply Hans.
    intros Hid. apply Hfresh. rewrite <- Hid. by apply list_elem_of_fmap_2.
  - assert (Hne : Attempt.id a ≠ Attempt.id e).
    { intros Hid. apply (same_id_same_row _ _ _ Hnd Ha He) in Hid. congruence. }
    split.
    + simpl. apply finalize_row_other; [by rewrite Hatt | done].
    + unfold answersOf at 1. simpl. by apply Hans.
Qed.

(** C6. Once an attempt is no longer IN_PROGRESS, no sequence of save and
    submit operations changes its row (status, score, submittedAt and every
    other column) or its answer rows; the attempt both operations work on is
    always IN_PROGRESS. *)
Theorem submitted_attempt_is_final (ops : list Op) (s : Store) (a : Attempt.t) :
  NoDup (Attempt.id <$> attempts s) →
  a ∈ attempts s →
  Attempt.status a ≠ IN_PROGRESS →
  a ∈ attempts (run ops s)
  ∧ (∀ a', a' ∈ attempts (run ops s) → Attempt.id a' = Attempt.id a → a' = a)
  ∧ answersOf (Attempt.id a) (run ops s) = answersOf (Attempt.id a) s
  ∧ (∀ u b r, save_resolve u b s = Some r ∨ submit_resolve u b s = Some r →
              Attempt.status r = IN_PROGRESS ∧ r ≠ a).
Proof.
  intros Hnd Ha Hfinal.
  assert (Hrun : NoDup (Attempt.id <$> attempts (run ops s))
                 ∧ a ∈ attempts (run ops s)
                 ∧ answersOf (Attempt.id a) (run ops s) = answersOf (Attempt.id a) s).
  { revert s Hnd Ha. unfold run. induction ops as [| o ops IH]; intros s Hnd Ha; [done |].
    simpl. pose proof (step_transition s o) as Ht.
    destruct (transition_keeps_final _ _ _ Ht Hnd Ha Hfinal) as [Ha' Hans].
    destruct (IH (step s o) (transition_ids_NoDup _ _ Ht Hnd) Ha') as (?&?&Hans').
    split_and!; [done | done | by rewrite Hans']. }
  destruct Hrun as (Hnd' & Ha' & Hans). split_and!; [done | | done |].
  - intros a' Hin Hid. by apply (same_id_same_row _ _ _ Hnd' Hin Ha').
  - intros u b r [Hr | Hr].
    + apply save_resolve_in_progress in Hr as [_ Hr]. split; [done | congruence].
    + apply submit_resolve_in_progress in Hr as [_ Hr]. split; [done | congruence].
Qed.

(** ** Attempt numbers *)

Lemma foldl_max_grows rest n : n ≤ foldl Z.max n rest.
Proof.
  revert n. induction rest as [| y rest IH]; intros n; simpl; [lia |].
  etrans; [| apply IH]. lia.
Qed.

Lemma foldl_max_ge rest n x : x ∈ n :: rest → x ≤ foldl Z.max n rest.
Proof.
  intros Hx. apply elem_of_cons in Hx as [-> | Hx]; [apply foldl_max_grows |].
  revert n. induction rest as [| y rest IH]; intros n; [by apply not_elem_of_nil in Hx |].
  simpl. apply elem_of_cons in Hx as [-> | Hx]; [| by apply IH].
  etrans; [| apply foldl_max_grows]. lia.
Qed.

Lemma nextAttemptNo_above u q s n :
  n ∈ attemptNos u q s → n < nextAttemptNo u q s.
Proof.
  unfold nextAttemptNo, attempt_maxAttemptNo. intros Hn.
  destruct (attemptNos u q s) as [| m rest]; [by apply not_elem_of_nil in Hn |].
  simpl. apply foldl_max_ge in Hn. lia.
Qed.

Lemma attemptNos_finalize_row u q id t score s :
  attemptNos u q (with_attempts (finalize_row id t score) s) = attemptNos u q s.
Proof.
  unfold attemptNos, finalize_row. simpl.
  induction (attempts s) as [| a rows IH]; [done |].
  rewrite fmap_cons, !filter_cons.
  destruct (decide (Attempt.id a = id)); simpl;
    destruct (decide (Attempt.userId a = u ∧ Attempt.quizId a = q));
    by rewrite ?fmap_cons, IH.
Qed.

(** An operation leaves the numbers of a (user, quiz) pair as they are, or
    appends the next number. *)
Lemma transition_attemptNos u q s s' :
  transition s s' →
  attemptNos u q s' = attemptNos u q s
  ∨ attemptNos u q s' = attemptNos u q s ++ [nextAttemptNo u q s].
Proof.
  intros [-> | r _ _ (_&_&_&Hatt&_) | row (_&_&_&_&Hatt&_) Hno
          | e s1 t score _ _ (_&_&_&Hatt&_) ->].
  - by left.
  - left. unfold attemptNos. by rewrite Hatt.
  - unfold attemptNos at 1 3. rewrite Hatt, filter_app, fmap_app, filter_cons, filter_nil.
    destruct (decide (Attempt.userId row = u ∧ Attempt.quizId row = q)) as [[<- <-] |].
    + right. simpl. by rewrite Hno.
    + left. apply app_nil_r.
  - left. rewrite attemptNos_finalize_row. unfold attemptNos. by rewrite Hatt.
Qed.

(** The row an operation appends carries the next number of its pair. *)
Lemma transition_new_row s s' row :
  transition s s' → attempts s' = attempts s ++ [row] →
  Attempt.attemptNo row = nextAttemptNo (Attempt.userId row) (Attempt.quizId row) s.
Proof.
  intros [-> | r _ _ (_&_&_&Hatt&_) | row0 (_&_&_&_&Hatt&_) Hno
          | e s1 t score _ _ (_&_&_&Hatt&_) ->] Hnew.
  - apply (f_equal length) in Hnew. rewrite length_app in Hnew. simpl in Hnew. lia.
  - rewrite Hatt in Hnew. apply (f_equal length) in Hnew.
    rewrite length_app in Hnew. simpl in Hnew. lia.
  - rewrite Hatt in Hnew. apply app_inv_head in Hnew. by injection Hnew as <-.
  - simpl in Hnew. apply (f_equal length) in Hnew. unfold finalize_row in Hnew.
    rewrite length_fmap, Hatt, length_app in Hnew. simpl in Hnew. lia.
Qed.

Lemma increasing_snoc u q s :
  StronglySorted Z.lt (attemptNos u q s) →
  StronglySorted Z.lt (attemptNos u q s ++ [nextAttemptNo u q s]).
Proof.
  intros Hs. apply StronglySorted_app_2; [| done | repeat constructor].
  intros x y Hx ->%list_elem_of_singleton. by apply nextAttemptNo_above.
Qed.

Lemma increasing_NoDup (l : list Z) : StronglySorted Z.lt l → NoDup l.
Proof.
  induction 1 as [| x l _ IH Hall]; constructor; [| done].
  intros Hx. rewrite Forall_forall in Hall. specialize (Hall x Hx). lia.
Qed.

(** C7. A new attempt created by save or submit receives the greatest
    existing attemptNo of its (user, quiz) pair, or 0, plus 1; over any
    sequential run the attemptNos of a pair stay strictly increasing in
    creation order, earlier numbers are kept, and none occurs twice. *)
Theorem attemptNo_strictly_increasing (ops : list Op) (s : Store) (u q : string) :
  StronglySorted Z.lt (attemptNos u q s) →
  (∀ o row, attempts (step s o) = attempts s ++ [row] →
            Attempt.attemptNo row
            = default 0 (attempt_maxAttemptNo (Attempt.userId row) (Attempt.quizId row) s) + 1)
  ∧ (∀ o, attemptNos u q (step s o) = attemptNos u q s
          ∨ attemptNos u q (step s o)
            = attemptNos u q s ++ [default 0 (attempt_maxAttemptNo u q s) + 1])
  ∧ StronglySorted Z.lt (attemptNos u q (run ops s))
  ∧ attemptNos u q s `prefix_of` attemptNos u q (run ops s)
  ∧ NoDup (attemptNos u q (run ops s)).
Proof.
  intros Hs.
  split; [intros o row; apply transition_new_row, step_transition |].
  split; [intros o; apply transition_attemptNos, step_transition |].
  assert (Hrun : StronglySorted Z.lt (attemptNos u q (run ops s))
                 ∧ attemptNos u q s `prefix_of` attemptNos u q (run ops s)).
  { revert s Hs. unfold run. induction ops as [| o ops IH]; intros s Hs; [done |].
    simpl. destruct (transition_attemptNos u q _ _ (step_transition s o)) as [Heq | Heq].
    - rewrite <- Heq. apply IH. by rewrite Heq.
    - destruct (IH (step s o)) as [Hs' Hpre].
      { rewrite Heq. by apply increasing_snoc. }
      split; [done |]. etrans; [| exact Hpre]. rewrite Heq. by apply prefix_app_r. }
  destruct Hrun as [Hs' Hpre]. split_and!; [done | done | by apply increasing_NoDup].
Qed.

(** ** Attempt resolution *)

(** C1 at its failing inputs, on the store with the draft [att1]: a save
    whose hint matches nothing, and a submit without hint, both create
    attempt number 2, although [att1] is in progress and the resolution of
    section 4.1 yields it.  After the save the pair has two attempts in
    progress; after the submit the draft is still there, not finalised. *)
Example fallback_to_latest_not_taken :
  attempts Scenario.drafted = [Scenario.att1_draft]
  ∧ resolve_spec (Some "stale") "u1" "quiz1" Scenario.drafted = Some Scenario.att1_draft
  ∧ (save_POST Scenario.second (Scenario.request "quiz1" (Some "stale") []) Scenario.drafted).1
    = jsonOk (SaveOk "att2" 2)
  ∧ attempts (save_POST Scenario.second (Scenario.request "quiz1" (Some "stale") [])
                Scenario.drafted).2
    = [Scenario.att1_draft; Attempt.mk "att2" IN_PROGRESS 2 200 None None "u1" "quiz1"]
  ∧ resolve_spec None "u1" "quiz1" Scenario.drafted = Some Scenario.att1_draft
  ∧ (submit_POST Scenario.second (Scenario.request "quiz1" None [Scenario.pick "q1" ["A"]])
       Scenario.drafted).1
    = jsonOk (SubmitOk "att2" (Some 1) 2 2)
  ∧ attempts (submit_POST Scenario.second
                (Scenario.request "quiz1" None [Scenario.pick "q1" ["A"]])
                Scenario.drafted).2
    = [Scenario.att1_draft;
       Attempt.mk "att2" SUBMITTED 2 200 (Some 200) (Some 1) "u1" "quiz1"].
Proof. split_and!; by vm_compute. Qed.

Lemma created_row env st n sub sc u q s r s' :
  r = Attempt.mk (newAttemptId env) st n (now env) sub sc u q →
  created r s s' →
  created r s s' ∧ attempts s' = attempts s ++ [r]
  ∧ Attempt.id r = newAttemptId env ∧ Attempt.status r = st.
Proof. intros -> Hc. split; [done |]. by destruct Hc as (_&_&_&_&->&_). Qed.

(** How the two transactions choose their attempt, on every store.  In both
    a non-empty hint that matches an attempt with that id, the user, the quiz
    and status IN_PROGRESS selects that attempt: the answers are written to
    it (and the submit finalises it), and no attempt is created.  A save
    without hint works on the most recently started IN_PROGRESS attempt of
    (user, quiz) when there is one, and creates an attempt otherwise.  A
    committed save whose hint matches nothing has created an attempt, and so
    has a committed submit that has no hint or whose hint matches nothing,
    whether or not an attempt of (user, quiz) is in progress. *)
Lemma attempt_resolution (env : Env) (u : string) (b : Body.t) (score : Z) (s : Store) :
  (∀ h a, hintOf b = Some h → attempt_findHinted h u (Body.quizId b) s = Some a →
     (∀ r s', save_tx env u b s = inr (r, s') →
        r = a ∧ touches_only (Attempt.id a) s s')
     ∧ (∀ r s', submit_tx env u b score s = inr (r, s') →
          Attempt.id r = Attempt.id a
          ∧ ∃ s1, touches_only (Attempt.id a) s s1
                  ∧ s' = with_attempts (finalize_row (Attempt.id a) (now env) score) s1))
  ∧ (hintOf b = None → ∀ r s', save_tx env u b s = inr (r, s') →
       (attempt_findLatest u (Body.quizId b) s = Some r
        ∧ touches_only (Attempt.id r) s s')
       ∨ (attempt_findLatest u (Body.quizId b) s = None
          ∧ created r s s' ∧ attempts s' = attempts s ++ [r]
          ∧ Attempt.id r = newAttemptId env ∧ Attempt.status r = IN_PROGRESS))
  ∧ (∀ h, hintOf b = Some h → attempt_findHinted h u (Body.quizId b) s = None →
       ∀ r s', save_tx env u b s = inr (r, s') →
         created r s s' ∧ attempts s' = attempts s ++ [r]
         ∧ Attempt.id r = newAttemptId env ∧ Attempt.status r = IN_PROGRESS)
  ∧ (hintOf b = None
       ∨ (∃ h, hintOf b = Some h ∧ attempt_findHinted h u (Body.quizId b) s = None) →
       ∀ r s', submit_tx env u b score s = inr (r, s') →
         created r s s' ∧ attempts s' = attempts s ++ [r]
         ∧ Attempt.id r = newAttemptId env ∧ Attempt.status r = SUBMITTED)
  ∧ (∀ r, attempt_findLatest u (Body.quizId b) s = Some r →
       r ∈ attempts s ∧ Attempt.userId r = u ∧ Attempt.quizId r = Body.quizId b
       ∧ Attempt.status r = IN_PROGRESS
       ∧ ∀ a', a' ∈ attempts s → Attempt.userId a' = u →
               Attempt.quizId a' = Body.quizId b → Attempt.status a' = IN_PROGRESS →
               Attempt.startedAt a' ≤ Attempt.startedAt r)
  ∧ (attempt_findLatest u (Body.quizId b) s = None ↔
     ∀ a, a ∈ attempts s →
          ¬ (Attempt.userId a = u ∧ Attempt.quizId a = Body.quizId b
             ∧ Attempt.status a = IN_PROGRESS)).
Proof.
  split_and!.
  - intros h a Hh Ha. split; intros r s' Htx.
    + apply save_tx_commit in Htx as [[Hres Ht] | (Hres & _)];
        unfold save_resolve in Hres; rewrite Hh, Ha in Hres; [| done].
      by injection Hres as <-.
    + apply submit_tx_commit in Htx as [(e & s1 & Hres & Hid & _ & Ht & ->) | (Hres & _)];
        unfold submit_resolve in Hres; rewrite Hh, Ha in Hres; [| done].
      injection Hres as <-. split; [done |]. by exists s1.
  - intros Hh r s' Htx.
    apply save_tx_commit in Htx as [[Hres Ht] | (Hres & Hr & Hc)];
      unfold save_resolve in Hres; rewrite Hh in Hres.
    + by left.
    + right. split; [done |]. by eapply created_row.
  - intros h Hh Hnone r s' Htx.
    apply save_tx_commit in Htx as [[Hres Ht] | (Hres & Hr & Hc)];
      unfold save_resolve in Hres; rewrite Hh, Hnone in Hres; [done |].
    by eapply created_row.
  - intros Hh r s' Htx.
    apply submit_tx_commit in Htx as [(e & s1 & Hres & _) | (Hres & Hr & Hc)].
    + unfold submit_resolve in Hres.
      destruct Hh as [Hh | (h & Hh & Hnone)]; rewrite Hh in Hres; congruence.
    + by eapply created_row.
  - apply attempt_findLatest_Some.
  - apply attempt_findLatest_None.
Qed.

(** The scenario of the specification: the first save creates attempt
    number 1 in progress; the submit that refers to it finalises it and
    creates no second attempt. *)
Example scenario_save_then_submit :
  (save_POST Scenario.first (Scenario.request "quiz1" None []) Scenario.catalogue).1
  = jsonOk (SaveOk "att1" 1)
  ∧ attempts Scenario.drafted = [Scenario.att1_draft]
  ∧ (submit_POST Scenario.second
       (Scenario.request "quiz1" (Some "att1")
          [Scenario.pick "q1" ["A"]; Scenario.pick "q2" ["C"; "D"]])
       Scenario.drafted).1
    = jsonOk (SubmitOk "att1" (Some 2) 1 2)
  ∧ attempts (submit_POST Scenario.second
                (Scenario.request "quiz1" (Some "att1")
                   [Scenario.pick "q1" ["A"]; Scenario.pick "q2" ["C"; "D"]])
                Scenario.drafted).2
    = [Attempt.mk "att1" SUBMITTED 1 100 (Some 200) (Some 2) "u1" "quiz1"].
Proof. split_and!; by vm_compute. Qed.

(** ** The answer upsert *)

Lemma tx_forEach_app {A} (f : A → Tx unit) xs ys s :
  tx_forEach f (xs ++ ys) s
  = match tx_forEach f xs s with
    | inl e => inl e
    | inr (_, s') => tx_forEach f ys s'
    end.
Proof.
  revert s. induction xs as [| a xs IH]; intros s; [done |].
  simpl. unfold mbind, tx_bind. destruct (f a s) as [e | [[] s1]]; [done | apply IH].
Qed.

Lemma answer_exists_true aid q s :
  answer_exists aid q s = true
  ↔ ∃ r, r ∈ answers s ∧ Answer.attemptId r = aid ∧ Answer.questionId r = q.
Proof. unfold answer_exists. rewrite bool_decide_eq_true, Exists_exists. done. Qed.

Lemma answer_exists_false aid q s :
  answer_exists aid q s = false
  ↔ ∀ r, r ∈ answers s → ¬ (Answer.attemptId r = aid ∧ Answer.questionId r = q).
Proof.
  rewrite <- not_true_iff_false, answer_exists_true. split.
  - intros H r Hr HP. apply H. exists r. tauto.
  - intros H (r & Hr & HP). by apply (H r).
Qed.

(** The two ways an upsert commits. *)
Lemma answer_upsert_commit aid a s u s' :
  answer_upsert aid a s = inr (u, s') →
  connectable (choiceIdsOrEmpty a) s = true
  ∧ choices s' = choices s
  ∧ ((answer_exists aid (AnswerInput.questionId a) s = true
      ∧ answers s' = set_choices aid a <$> answers s)
     ∨ (answer_exists aid (AnswerInput.questionId a) s = false
        ∧ answers s' = answers s
                       ++ [Answer.mk aid (AnswerInput.questionId a)
                             (Set_of (choiceIdsOrEmpty a))])).
Proof.
  unfold answer_upsert, answer_create.
  destruct (answer_exists _ _ _) eqn:Hex.
  - destruct (connectable _ _); [| done]. intros [= _ <-]. split_and!; [done | done |].
    by left.
  - repeat case_match; try done. intros [= _ <-]. split_and!; [done | done |]. by right.
Qed.

Lemma answer_create_as_upsert aid a s u s' :
  answer_create aid a s = inr (u, s') → answer_upsert aid a s = inr (u, s').
Proof.
  intros H. unfold answer_upsert.
  destruct (answer_exists _ _ _) eqn:Hex; [| done].
  unfold answer_create in H. rewrite Hex in H. by repeat case_match.
Qed.

Lemma create_all_as_upsert aid xs s u s' :
  tx_forEach (answer_create aid) xs s = inr (u, s') →
  tx_forEach (answer_upsert aid) xs s = inr (u, s').
Proof.
  revert s. induction xs as [| a xs IH]; intros s; [done |].
  simpl. unfold mbind, tx_bind.
  destruct (answer_create aid a s) as [e | [[] s1]] eqn:E; [done |].
  rewrite (answer_create_as_upsert _ _ _ _ _ E). apply IH.
Qed.

Lemma lastFor_snoc q xs a :
  lastFor q (xs ++ [a])
  = if decide (AnswerInput.questionId a = q) then Some (choiceIdsOrEmpty a)
    else lastFor q xs.
Proof.
  unfold lastFor. rewrite filter_app, filter_cons, filter_nil.
  destruct (decide _); [by rewrite last_snoc | by rewrite app_nil_r].
Qed.

Lemma lastFor_cons q a xs :
  lastFor q (a :: xs)
  = match lastFor q xs with
    | Some cs => Some cs
    | None => if decide (AnswerInput.questionId a = q) then Some (choiceIdsOrEmpty a)
              else None
    end.
Proof.
  unfold lastFor. rewrite filter_cons.
  destruct (decide _); [| by destruct (last _)].
  rewrite last_cons. by destruct (last _).
Qed.

Lemma set_choices_key aid a r : answerKey (set_choices aid a r) = answerKey r.
Proof. unfold set_choices. by destruct (decide _). Qed.

Lemma answer_exists_set_choices aid a q s s' :
  answers s' = set_choices aid a <$> answers s →
  answer_exists aid q s' = answer_exists aid q s.
Proof.
  intros Hans. apply eq_true_iff_eq. rewrite !answer_exists_true, Hans. split.
  - intros (r & Hr & Ha & Hq). apply list_elem_of_fmap in Hr as (r0 & -> & Hr0).
    exists r0. pose proof (set_choices_key aid a r0) as [= Hk1 Hk2]. split; [done |].
    by rewrite <- Hk1, <- Hk2.
  - intros (r & Hr & Ha & Hq). exists (set_choices aid a r).
    pose proof (set_choices_key aid a r) as [= Hk1 Hk2].
    split; [by apply list_elem_of_fmap_2 |]. by rewrite Hk1, Hk2.
Qed.

Lemma upsert_step_settles aid xs a s u s' :
  settled aid xs s → answer_upsert aid a s = inr (u, s') → settled aid (xs ++ [a]) s'.
Proof.
  intros [Hall Hrows] Hup.
  apply answer_upsert_commit in Hup as (Hconn & Hch & Hcase).
  assert (Hconn' : ∀ cs, connectable cs s' = connectable cs s).
  { intros cs. unfold connectable. by rewrite Hch. }
  split.
  - intros a' Ha'. rewrite Hconn'.
    assert (Hkeep : ∀ q, answer_exists aid q s = true → answer_exists aid q s' = true).
    { intros q. destruct Hcase as [[_ Hans] | [_ Hans]].
      - by rewrite (answer_exists_set_choices aid a q s s' Hans).
      - rewrite !answer_exists_true, Hans. intros (r & Hr & ?). exists r.
        split; [apply elem_of_app; by left | done]. }
    assert (Hnew : answer_exists aid (AnswerInput.questionId a) s' = true).
    { destruct Hcase as [[Hex _] | [_ Hans]]; [by apply Hkeep |].
      apply answer_exists_true. eexists. rewrite Hans.
      split; [apply elem_of_app; right; by left | done]. }
    apply elem_of_app in Ha' as [Ha' | ->%list_elem_of_singleton]; [| done].
    destruct (Hall a' Ha'). split; [done | by apply Hkeep].
  - intros r cs Hr Haid. rewrite lastFor_snoc.
    destruct Hcase as [[_ Hans] | [Hex Hans]]; rewrite Hans in Hr.
    + apply list_elem_of_fmap in Hr as (r0 & -> & Hr0).
      pose proof (set_choices_key aid a r0) as [= Hk1 Hk2]. rewrite Hk2.
      rewrite Hk1 in Haid. unfold set_choices.
      destruct (decide (Answer.attemptId r0 = aid ∧ _)) as [[_ Hq] | Hno].
      * rewrite decide_True by done. by intros [= <-].
      * rewrite decide_False by (intros ?; by destruct Hno). by apply Hrows.
    + apply elem_of_app in Hr as [Hr | ->%list_elem_of_singleton].
      * rewrite decide_False; [by apply Hrows |].
        intros Hq. rewrite answer_exists_false in Hex. by apply (Hex r Hr).
      * simpl. rewrite decide_True by done. by intros [= <-].
Qed.

Lemma settled_nil aid s : settled aid [] s.
Proof. split; [by intros a ?%not_elem_of_nil | done]. Qed.

(** After its upserts a transaction has settled the entries. *)
Lemma upsert_all_settles aid xs s u s' :
  tx_forEach (answer_upsert aid) xs s = inr (u, s') → settled aid xs s'.
Proof.
  revert u s'. induction xs as [| a xs IH] using rev_ind; intros u s'.
  - intros _. apply settled_nil.
  - rewrite tx_forEach_app.
    destruct (tx_forEach _ xs s) as [e | [[] s1]] eqn:E; [done |].
    simpl. unfold mbind, tx_bind.
    destruct (answer_upsert aid a s1) as [e | [[] s2]] eqn:E2; [done |].
    intros [= _ <-]. eapply upsert_step_settles; [by eapply IH | done].
Qed.

(** On settled entries every upsert is an update. *)
Lemma upsert_all_existing aid xs s :
  (∀ a, a ∈ xs → connectable (choiceIdsOrEmpty a) s = true
                 ∧ answer_exists aid (AnswerInput.questionId a) s = true) →
  tx_forEach (answer_upsert aid) xs s
  = inr (tt, with_answers
               (fmap (λ r, foldl (λ r a, set_choices aid a r) r xs)) s).
Proof.
  revert s. induction xs as [| a xs IH]; intros s Hall.
  - simpl. unfold mret, tx_ret. f_equal. f_equal. destruct s as [qz qs cs ats ans].
    unfold with_answers. simpl. f_equal. symmetry. apply (list_fmap_id ans).
  - simpl. unfold mbind, tx_bind.
    destruct (Hall a) as [Hconn Hex]; [by left |].
    unfold answer_upsert at 1. rewrite Hex, Hconn.
    rewrite IH.
    + f_equal. f_equal. destruct s. unfold with_answers. simpl.
      by rewrite <- list_fmap_compose.
    + intros a' Ha'. destruct (Hall a') as [? ?]; [by right |].
      split; [done |]. by rewrite (answer_exists_set_choices aid a _ s).
Qed.

(** The closed form of the updates of one row. *)
Lemma set_choices_all aid xs r :
  foldl (λ r a, set_choices aid a r) r xs
  = match lastFor (Answer.questionId r) xs with
    | Some cs => if decide (Answer.attemptId r = aid)
                 then Answer.mk (Answer.attemptId r) (Answer.questionId r) (Set_of cs)
                 else r
    | None => r
    end.
Proof.
  induction xs as [| a xs IH] using rev_ind; [done |].
  rewrite foldl_app, lastFor_snoc. simpl. rewrite IH. unfold set_choices.
  destruct (lastFor _ xs) as [cs |]; destruct (decide (Answer.attemptId r = aid));
    simpl; repeat case_decide; try done; exfalso; intuition congruence.
Qed.

Lemma set_choices_settled aid xs r :
  (∀ cs, Answer.attemptId r = aid → lastFor (Answer.questionId r) xs = Some cs →
         Answer.choices r = Set_of cs) →
  foldl (λ r a, set_choices aid a r) r xs = r.
Proof.
  intros Hr. rewrite set_choices_all.
  destruct (lastFor _ xs) as [cs |]; [| done].
  destruct (decide _) as [Ha |]; [| done].
  rewrite <- (Hr cs Ha eq_refl). by destruct r.
Qed.

(** On a settled store the upserts change nothing. *)
Lemma settled_fixed aid xs s :
  settled aid xs s → tx_forEach (answer_upsert aid) xs s = inr (tt, s).
Proof.
  intros [Hall Hrows]. rewrite (upsert_all_existing _ _ _ Hall). f_equal. f_equal.
  destruct s as [qz qs cs ats ans]. unfold with_answers. simpl in *. f_equal.
  rewrite <- (list_fmap_id ans) at 2. apply list_fmap_ext.
  intros i r Hr. simpl. apply set_choices_settled. intros cs' Ha Hl.
  apply Hrows; [| done | done]. by eapply list_elem_of_lookup_2.
Qed.

Lemma upsert_all_idempotent aid xs s u s' :
  tx_forEach (answer_upsert aid) xs s = inr (u, s') →
  tx_forEach (answer_upsert aid) xs s' = inr (tt, s').
Proof. intros H. by eapply settled_fixed, upsert_all_settles. Qed.

Lemma answer_upsert_keys aid a s u s' :
  answer_upsert aid a s = inr (u, s') →
  NoDup (answerKey <$> answers s) → NoDup (answerKey <$> answers s').
Proof.
  intros H Hnd. apply answer_upsert_commit in H as (_ & _ & [[_ ->] | [Hex ->]]).
  - rewrite <- list_fmap_compose.
    erewrite list_fmap_ext; [exact Hnd |]. intros i r _. apply set_choices_key.
  - rewrite fmap_app. apply NoDup_app. split_and!; [done | | apply NoDup_singleton].
    intros k Hk ->%list_elem_of_singleton.
    apply list_elem_of_fmap in Hk as (r & [= Ha Hq] & Hr).
    rewrite answer_exists_false in Hex. by apply (Hex r Hr).
Qed.

Lemma upsert_all_keys aid xs s u s' :
  tx_forEach (answer_upsert aid) xs s = inr (u, s') →
  NoDup (answerKey <$> answers s) → NoDup (answerKey <$> answers s').
Proof.
  apply (tx_forEach_preorder
           (λ s s', NoDup (answerKey <$> answers s) → NoDup (answerKey <$> answers s'))).
  - done.
  - intros s1 s2 s3 H12 H23 ?. by apply H23, H12.
  - intros a s1 u1 s2 _ H. exact (answer_upsert_keys _ _ _ _ _ H).
Qed.

(** The answer writes of a committed save, as upserts from a store with the
    answers of the initial one. *)
Lemma save_tx_upserts env u b s r s' :
  save_tx env u b s = inr (r, s') →
  ∃ s0, answers s0 = answers s
        ∧ tx_forEach (answer_upsert (Attempt.id r)) (Body.answers b) s0 = inr (tt, s').
Proof.
  unfold save_tx, mbind, tx_bind, tx_read, mret, tx_ret.
  destruct (save_resolve u b s) as [r0 |].
  - destruct (tx_forEach _ _ _) as [err | [[] s1]] eqn:E; [done |].
    intros [= <- <-]. by exists s.
  - unfold attempt_create, mbind, tx_bind, mret, tx_ret.
    destruct (negb _); [done |]. destruct (negb _); [done |].
    destruct (decide (_ ∈ _)); [done |].
    destruct (decide (Exists _ _)); [done |].
    destruct (decide (_ ∈ _)); [| done].
    destruct (tx_forEach _ _ _) as [err | [[] s1]] eqn:E; [done |].
    intros [= <- <-]. eexists. split; [| by apply create_all_as_upsert]. done.
Qed.

Lemma unique_key_filter (rows : list Answer.t) r :
  NoDup (answerKey <$> rows) → r ∈ rows →
  filter (λ x, answerKey x = answerKey r) rows = [r].
Proof.
  induction rows as [| x rows IH]; [by intros _ ?%not_elem_of_nil |].
  rewrite fmap_cons, NoDup_cons, filter_cons. intros [Hx Hnd] Hr.
  apply elem_of_cons in Hr as [<- | Hr].
  - rewrite decide_True by done. f_equal.
    destruct (filter _ rows) as [| y l] eqn:E; [done |].
    assert (Hy : y ∈ y :: l) by by left.
    rewrite <- E in Hy. apply list_elem_of_filter in Hy as [Hk Hy].
    destruct Hx. rewrite <- Hk. by apply list_elem_of_fmap_2.
  - rewrite decide_False; [by apply IH |].
    intros Hk. apply Hx. rewrite Hk. by apply list_elem_of_fmap_2.
Qed.

Lemma lastFor_is_Some a xs :
  a ∈ xs → is_Some (lastFor (AnswerInput.questionId a) xs).
Proof.
  intros Ha. unfold lastFor. apply fmap_is_Some, last_is_Some.
  intros Hnil. by apply (filter_nil_not_elem_of _ _ a Hnil).
Qed.

(** C8. A save repeated with the same answers against the attempt the first
    save worked on answers alike and leaves the store as it is.  After the
    first save each question of the request has exactly one answer row in
    that attempt, and its choice set is the set of the choice ids last given
    for the question, whatever the row held before. *)
Theorem save_is_idempotent
    (env env' : Env) (req req' : Request Body.t) (s s1 : Store)
    (au : AuthContext) (b b' : Body.t) (r : Attempt.t) (n : Z) :
  auth req = Some au → body req = Some b →
  save_POST env req s = (jsonOk (SaveOk (Attempt.id r) n), s1) →
  auth req' = Some au → rateOk req' = true → body req' = Some b' →
  Body.quizId b' = Body.quizId b → Body.answers b' = Body.answers b →
  save_resolve (auth_userId au) b' s1 = Some r →
  save_POST env' req' s1 = (jsonOk (SaveOk (Attempt.id r) (Attempt.attemptNo r)), s1)
  ∧ (NoDup (answerKey <$> answers s) →
     ∀ a, a ∈ Body.answers b →
       ∃ cs, lastFor (AnswerInput.questionId a) (Body.answers b) = Some cs
             ∧ filter (λ row, answerKey row = (Attempt.id r, AnswerInput.questionId a))
                 (answers s1)
               = [Answer.mk (Attempt.id r) (AnswerInput.questionId a) (Set_of cs)]).
Proof.
  intros Hau Hb Hfirst Hau' Hrate' Hb' Hquiz Hans Hres.
  destruct (save_POST_cases env req s)
    as [[_ Hst] | (au0 & b0 & r1 & quiz & Hau0 & Hb0 & Htx & Hresp & _ & Hq & Hfind & Hpub)];
    rewrite Hfirst in *; [done |].
  simpl in Htx, Hresp. injection Hresp as Hid _.
  rewrite Hau in Hau0. injection Hau0 as <-. rewrite Hb in Hb0. injection Hb0 as <-.
  assert (Hquizzes : quizzes s1 = quizzes s).
  { apply save_tx_commit in Htx as [[_ (?&_)] | (_ & _ & (_&?&_))]; done. }
  destruct (save_tx_upserts _ _ _ _ _ _ Htx) as (s0 & Hans0 & Hup).
  rewrite <- Hid in Hup.
  pose proof (upsert_all_settles _ _ _ _ _ Hup) as Hsettled.
  split.
  - unfold save_POST, transaction. rewrite Hau', Hrate', Hb', Hquiz, Hq. simpl negb. cbv iota.
    replace (quiz_findUnique (Body.quizId b) s1) with (Some quiz)
      by (unfold quiz_findUnique in *; by rewrite Hquizzes).
    rewrite Hpub. simpl negb. cbv iota.
    unfold save_tx, mbind, tx_bind, tx_read, mret, tx_ret. rewrite Hres, Hans.
    by rewrite (settled_fixed _ _ _ Hsettled).
  - intros Hnd a Ha.
    destruct (lastFor_is_Some a _ Ha) as [cs Hcs]. exists cs. split; [done |].
    destruct Hsettled as [Hall Hrows].
    destruct (Hall a Ha) as [_ Hex].
    apply answer_exists_true in Hex as (row & Hrow & Haid & Hqid).
    assert (Hch : Answer.choices row = Set_of cs).
    { apply Hrows; [done | done | by rewrite Hqid]. }
    assert (Heq : row = Answer.mk (Attempt.id r) (AnswerInput.questionId a) (Set_of cs)).
    { destruct row. simpl in *. by subst. }
    rewrite <- Heq.
    replace (Attempt.id r, AnswerInput.questionId a) with (answerKey row)
      by (unfold answerKey; by rewrite Haid, Hqid).
    apply unique_key_filter; [| done].
    apply (upsert_all_keys _ _ _ _ _ Hup). by rewrite Hans0.
Qed.

(** ** Reordering questions *)

Lemma neighbor_Some b q n s :
  match MoveBody.move b with
  | UP => question_findPrevious q s
  | DOWN => question_findNext q s
  end = Some n →
  n ∈ questions s ∧ Question.quizId n = Question.quizId q
  ∧ Question.order n ≠ Question.order q.
Proof.
  unfold question_findPrevious, question_findNext.
  destruct (MoveBody.move b); intros H; apply firstBy_elem, list_elem_of_filter in H;
    (split_and!; [tauto | tauto | lia]).
Qed.

(** Whenever the question has a neighbor, the first [update] of the swap
    gives the question the order its neighbor still holds and violates
    [Question_quizId_order_key]: the transaction is rolled back. *)
Lemma move_with_neighbor_fails b s q n :
  NoDup (Question.id <$> questions s) →
  question_findUnique (MoveBody.id b) s = Some q →
  match MoveBody.move b with
  | UP => question_findPrevious q s
  | DOWN => question_findNext q s
  end = Some n →
  move_tx b s = inl (UniqueConstraint "Question_quizId_order_key").
Proof.
  intros Hnd Hq Hn. unfold move_tx, mbind, tx_bind, tx_read. rewrite Hq.
  replace (match MoveBody.move b with
           | UP => question_findPrevious q
           | DOWN => question_findNext q
           end s) with (Some n) by (by destruct (MoveBody.move b)).
  pose proof Hq as Hq'. apply head_Some_elem_of, list_elem_of_filter in Hq' as [Hid Hin].
  unfold question_updateOrder. rewrite Hid, Hq.
  apply neighbor_Some in Hn as (Hnin & Hquiz & Hord).
  rewrite decide_True; [done |]. apply Exists_exists. exists n. split_and!; try done.
  intros Heq. rewrite <- Hid in Heq.
  apply (same_key_same_row Question.id _ _ _ Hnd Hnin Hin) in Heq. congruence.
Qed.

Lemma move_with_neighbor_rejected req b s q n au :
  auth req = Some au → isAdmin au = true → rateOk req = true → body req = Some b →
  MoveBody.id b ≠ EmptyString →
  NoDup (Question.id <$> questions s) →
  question_findUnique (MoveBody.id b) s = Some q →
  match MoveBody.move b with
  | UP => question_findPrevious q s
  | DOWN => question_findNext q s
  end = Some n →
  PUT_move req s
  = (mkResponse 400 (LibraryError (UniqueConstraint "Question_quizId_order_key")), s).
Proof.
  intros Hau Hadm Hrate Hb Hid Hnd Hq Hn. unfold PUT_move, transaction.
  rewrite Hau, Hadm, Hrate, Hb. simpl negb. cbv iota.
  assert (Htruthy : truthy (MoveBody.id b) = true).
  { unfold truthy. by destruct (decide _). }
  rewrite Htruthy. simpl negb. cbv iota.
  by rewrite (move_with_neighbor_fails _ _ _ _ Hnd Hq Hn).
Qed.

(** Without a neighbor the move succeeds and changes nothing. *)
Lemma move_without_neighbor req b s q au :
  auth req = Some au → isAdmin au = true → rateOk req = true → body req = Some b →
  MoveBody.id b ≠ EmptyString →
  question_findUnique (MoveBody.id b) s = Some q →
  match MoveBody.move b with
  | UP => question_findPrevious q s
  | DOWN => question_findNext q s
  end = None →
  PUT_move req s = (jsonOk MoveOk, s).
Proof.
  intros Hau Hadm Hrate Hb Hid Hq Hn. unfold PUT_move, transaction.
  rewrite Hau, Hadm, Hrate, Hb. simpl negb. cbv iota.
  assert (Htruthy : truthy (MoveBody.id b) = true).
  { unfold truthy. by destruct (decide _). }
  rewrite Htruthy. simpl negb. cbv iota.
  unfold move_tx, mbind, tx_bind, tx_read. rewrite Hq.
  replace (match MoveBody.move b with
           | UP => question_findPrevious q
           | DOWN => question_findNext q
           end s) with (@None Question.t) by (by destruct (MoveBody.move b)).
  done.
Qed.

(** C9 at its failing input: in the scenario [q1] has order 0 and [q2] order
    1 in the same quiz.  Moving [q2] up (or [q1] down) finds the neighbor,
    is answered 400 with the violated index, and leaves every order as it
    was; only a move without neighbor succeeds. *)
Example move_rejected_by_unique_order :
  question_findPrevious (Question.mk "q2" "second" MULTIPLE_CHOICE 1 "quiz1") Scenario.catalogue
  = Some (Question.mk "q1" "first" SINGLE_CHOICE 0 "quiz1")
  ∧ PUT_move (Scenario.reorder "q2" UP) Scenario.catalogue
    = (mkResponse 400 (LibraryError (UniqueConstraint "Question_quizId_order_key")),
       Scenario.catalogue)
  ∧ PUT_move (Scenario.reorder "q1" DOWN) Scenario.catalogue
    = (mkResponse 400 (LibraryError (UniqueConstraint "Question_quizId_order_key")),
       Scenario.catalogue)
  ∧ PUT_move (Scenario.reorder "q1" UP) Scenario.catalogue
    = (jsonOk MoveOk, Scenario.catalogue).
Proof. split_and!; by vm_compute. Qed.

(** ** The theorems at work on the scenario *)

Lemma submitted_attempt_is_final_witness :
  let ops := [Save Scenario.third
                (Scenario.request "quiz1" (Some "att1") [Scenario.pick "q1" ["B"]]);
              Submit Scenario.third
                (Scenario.request "quiz1" (Some "att1") [Scenario.pick "q1" ["B"]])] in
  Scenario.att1_final ∈ attempts Scenario.submitted
  ∧ Scenario.att1_final ∈ attempts (run ops Scenario.submitted)
  ∧ answersOf "att1" (run ops Scenario.submitted) = answersOf "att1" Scenario.submitted.
Proof.
  intros ops.
  assert (Hnd : NoDup (Attempt.id <$> attempts Scenario.submitted)) by by_evaluation.
  assert (Hin : Scenario.att1_final ∈ attempts Scenario.submitted) by by_evaluation.
  assert (Hst : Attempt.status Scenario.att1_final ≠ IN_PROGRESS) by done.
  destruct (submitted_attempt_is_final ops _ _ Hnd Hin Hst) as (H1 & _ & H2 & _).
  split_and!; [exact Hin | exact H1 | exact H2].
Defined.

Lemma attemptNo_strictly_increasing_witness :
  let ops := [Submit Scenario.second Scenario.finish;
              Save Scenario.third (Scenario.request "quiz1" None []);
              Save Scenario.first (Scenario.request "quiz1" None [])] in
  attemptNos "u1" "quiz1" Scenario.drafted = [1]
  ∧ attemptNos "u1" "quiz1" (run ops Scenario.drafted) = [1; 2]
  ∧ StronglySorted Z.lt (attemptNos "u1" "quiz1" (run ops Scenario.drafted))
  ∧ NoDup (attemptNos "u1" "quiz1" (run ops Scenario.drafted)).
Proof.
  intros ops.
  assert (Hs : StronglySorted Z.lt (attemptNos "u1" "quiz1" Scenario.drafted)).
  { change (attemptNos "u1" "quiz1" Scenario.drafted) with [1]. by repeat constructor. }
  destruct (attemptNo_strictly_increasing ops _ "u1" "quiz1" Hs) as (_ & _ & H1 & _ & H2).
  split_and!; [by vm_compute | by vm_compute | exact H1 | exact H2].
Defined.

Lemma save_is_idempotent_witness :
  let req := Scenario.request "quiz1" None Scenario.draft_answers in
  let req' := Scenario.request "quiz1" (Some "att1") Scenario.draft_answers in
  let s1 := (save_POST Scenario.first req Scenario.catalogue).2 in
  save_POST Scenario.first req Scenario.catalogue = (jsonOk (SaveOk "att1" 1), s1)
  ∧ save_POST Scenario.second req' s1 = (jsonOk (SaveOk "att1" 1), s1)
  ∧ filter (λ row, answerKey row = ("att1", "q2")) (answers s1)
    = [Answer.mk "att1" "q2" (Set_of ["D"; "C"; "D"])]
  ∧ Set_of ["D"; "C"; "D"] = ({["C"; "D"]} : gset string).
Proof.
  intros req req' s1.
  assert (Hfirst : save_POST Scenario.first req Scenario.catalogue
                   = (jsonOk (SaveOk (Attempt.id Scenario.att1_draft) 1), s1))
    by by vm_compute.
  assert (Hres : save_resolve "u1" (Body.mk "quiz1" (Some "att1") Scenario.draft_answers) s1
                 = Some Scenario.att1_draft) by by vm_compute.
  destruct (save_is_idempotent Scenario.first Scenario.second req req' Scenario.catalogue s1
              Scenario.alice _ _ Scenario.att1_draft 1
              eq_refl eq_refl Hfirst eq_refl eq_refl eq_refl eq_refl eq_refl Hres)
    as [Hsecond Hrows].
  destruct (Hrows (NoDup_nil_2 : NoDup (answerKey <$> answers Scenario.catalogue))
              (Scenario.pick "q2" ["D"; "C"; "D"])) as (cs & Hcs & Hrow).
  { by_evaluation. }
  injection Hcs as <-.
  split_and!; [exact Hfirst | exact Hsecond | exact Hrow | by vm_compute].
Defined.

(** ** When the answer writes commit *)

Lemma answer_upsert_commits aid a s :
  aid ∈ Attempt.id <$> attempts s →
  AnswerInput.questionId a ∈ Question.id <$> questions s →
  connectable (choiceIdsOrEmpty a) s = true →
  ∃ s', answer_upsert aid a s = inr (tt, s').
Proof.
  intros Haid Hq Hconn. unfold answer_upsert, answer_create. rewrite Hconn.
  destruct (answer_exists _ _ _); [by eexists |].
  rewrite decide_False by (by intros []). rewrite decide_False by (by intros []).
  by eexists.
Qed.

Lemma upsert_all_commits aid xs s :
  aid ∈ Attempt.id <$> attempts s → writable xs s →
  ∃ s', tx_forEach (answer_upsert aid) xs s = inr (tt, s').
Proof.
  revert s. induction xs as [| a xs IH]; intros s Haid Hw; [by eexists |].
  destruct (Hw a) as [Hq Hconn]; [by left |].
  destruct (answer_upsert_commits aid a s Haid Hq Hconn) as [s1 H1].
  simpl. unfold mbind, tx_bind. rewrite H1.
  pose proof (answer_upsert_touches _ _ _ _ _ H1) as (_ & Hqs & Hcs & Hatt & _).
  apply IH; [by rewrite Hatt |].
  intros a' Ha'. destruct (Hw a') as [? ?]; [by right |].
  unfold connectable. rewrite Hqs, Hcs. done.
Qed.

(** A save that resolves an attempt commits whenever its entries are
    writable, and so does the submit that finalises a hinted attempt. *)
Lemma resolved_writes_commit env u b score s r :
  writable (Body.answers b) s →
  (save_resolve u b s = Some r → ∃ s', save_tx env u b s = inr (r, s'))
  ∧ (submit_resolve u b s = Some r → int4 score = true →
     ∃ r' s', submit_tx env u b score s = inr (r', s')).
Proof.
  intros Hw. split; [intros Hres | intros Hres Hfit].
  - pose proof (save_resolve_in_progress _ _ _ _ Hres) as [Hin _].
    destruct (upsert_all_commits (Attempt.id r) _ s (list_elem_of_fmap_2 _ _ _ Hin) Hw)
      as [s' Hs'].
    exists s'. unfold save_tx, mbind, tx_bind, tx_read, mret, tx_ret.
    by rewrite Hres, Hs'.
  - pose proof (submit_resolve_in_progress _ _ _ _ Hres) as [Hin _].
    destruct (upsert_all_commits (Attempt.id r) _ s (list_elem_of_fmap_2 _ _ _ Hin) Hw)
      as [s1 Hs1].
    unfold submit_tx, mbind, tx_bind, tx_read. rewrite Hres, Hs1.
    unfold attempt_update.
    pose proof (upsert_all_touches _ _ _ _ _ Hs1) as (_ & _ & _ & Hatt & _).
    destruct (head _) as [a |] eqn:Hhead.
    + cbn [finalize Attempt.score default from_option id]. rewrite Hfit.
      by eexists _, _.
    + apply head_None in Hhead. rewrite Hatt in Hhead.
      by apply (filter_nil_not_elem_of _ _ r Hhead) in Hin.
Qed.

(** ** What the score counts *)

(** The loop counts the correct entries, one by one. *)
Lemma scoreLoop_counts_entries byQuestionId answers acc score :
  scoreLoop byQuestionId answers acc = inr score →
  score = acc + Z.of_nat (length (filter (λ a, entryCorrect byQuestionId a = true) answers))
  ∧ ∀ a, a ∈ answers → is_Some (byQuestionId !! AnswerInput.questionId a).
Proof.
  revert acc. induction answers as [| a rest IH]; intros acc; simpl.
  - intros [= <-]. split; [lia | by intros a ?%not_elem_of_nil].
  - destruct (byQuestionId !! AnswerInput.questionId a) as [q |] eqn:Hq; [| done].
    destruct (forallb _ _); [| done]. intros H. apply IH in H as [-> Hall].
    split.
    + assert (Hec : entryCorrect byQuestionId a
                    = isCorrect (sel_type q) (submittedSet a) (correctSet q))
        by (unfold entryCorrect; by rewrite Hq).
      rewrite filter_cons, Hec.
      destruct (isCorrect _ _ _); [| by rewrite decide_False].
      rewrite decide_True by done. simpl length. lia.
    + intros a' Ha'. apply elem_of_cons in Ha' as [Heq | Ha']; [| by apply Hall].
      rewrite Heq, Hq. by eexists.
Qed.

(** X14. When no question is listed twice, an accepted submit scores at most
    the number of questions of the quiz. *)
Theorem score_bounded_without_duplicates env req s b id score n total s' :
  body req = Some b →
  NoDup (AnswerInput.questionId <$> Body.answers b) →
  submit_POST env req s = (jsonOk (SubmitOk id (Some score) n total), s') →
  0 ≤ score ≤ total.
Proof.
  intros Hb Hnd Hresp.
  destruct (submit_POST_cases env req s)
    as [[_ Hst] | (au & b0 & sc & r & _ & Hb0 & Hloop & Htx & Hr)];
    rewrite Hresp in *; [done |].
  rewrite Hb in Hb0. injection Hb0 as <-.
  injection Hr as _ Hscore _ ->.
  assert (Hsc : sc = score).
  { apply submit_tx_commit in Htx as [(e & s1 & _ & _ & Hs & _) | (_ & -> & _)];
      simpl in *; congruence. }
  subst sc. apply scoreLoop_counts_entries in Hloop as [-> Hall].
  pose proof (length_filter (λ a, entryCorrect
                 (Map_of sel_id (question_findMany (Body.quizId b) s)) a = true)
                (Body.answers b)) as Hle.
  assert (Hsub : AnswerInput.questionId <$> Body.answers b
                 ⊆+ sel_id <$> question_findMany (Body.quizId b) s).
  { apply NoDup_submseteq; [done |]. intros k Hk.
    apply list_elem_of_fmap in Hk as (a & -> & Ha).
    destruct (Hall a Ha) as [q Hq]. apply Map_of_Some in Hq as [Hq <-].
    by apply list_elem_of_fmap_2. }
  apply submseteq_length in Hsub. rewrite !length_fmap in Hsub. lia.
Qed.

(** * Properties of the further code *)

(** ** The rate limiter *)

Section RateLimiter.
Import RateLimit.
Implicit Types (o : Options) (buckets : gmap string Bucket).

(** Calls inside an open window: the bucket of the key has count [c] and
    ends at [R], and every call comes before [R]. *)
Lemma calls_in_window o times buckets R c :
  buckets !! key o = Some (mkBucket R c) →
  Forall (λ t, t < R) times →
  allowed (calls o times buckets).1
  = Nat.min (length times) (Z.to_nat (limit o - c))
  ∧ Forall (λ r, r_resetMs r = R ∧ 0 ≤ remaining r) (calls o times buckets).1
  ∧ (calls o times buckets).2 !! key o
    = Some (mkBucket R (c + Z.of_nat (allowed (calls o times buckets).1))).
Proof.
  intros Hb Hall. revert buckets c Hb.
  induction Hall as [| t times Ht _ IH]; intros buckets c Hb.
  - unfold allowed. simpl. split_and!; [lia | done |]. rewrite Hb. do 2 f_equal. lia.
  - assert (Hcall : rateLimit o t buckets
                    = if decide (limit o ≤ c)
                      then (mkResult false (limit o) 0 R, buckets)
                      else (mkResult true (limit o) (limit o - (c + 1)) R,
                            <[key o := mkBucket R (c + 1)]> buckets)).
    { unfold rateLimit. rewrite Hb. simpl. by rewrite decide_False by lia. }
    cbn [calls]. rewrite Hcall. clear Hcall.
    destruct (decide (limit o ≤ c)) as [Hfull | Hroom].
    + destruct (IH buckets c Hb) as (Hadm & Hrs & Hfin).
      destruct (calls o times buckets) as [rs b2]. simpl in *.
      unfold allowed in *. rewrite filter_cons. simpl.
      split_and!.
      * rewrite Hadm. replace (Z.to_nat (limit o - c)) with 0%nat by lia. lia.
      * constructor; [done | exact Hrs].
      * exact Hfin.
    + set (b1 := <[key o := mkBucket R (c + 1)]> buckets).
      destruct (IH b1 (c + 1)) as (Hadm & Hrs & Hfin).
      { unfold b1. apply lookup_insert_eq. }
      destruct (calls o times b1) as [rs b2]. simpl in *.
      unfold allowed in *. rewrite filter_cons.
      replace (Z.to_nat (limit o - c)) with (S (Z.to_nat (limit o - (c + 1)))) by lia.
      simpl. split_and!.
      * by rewrite Hadm.
      * constructor; [simpl; split; [done | lia] | exact Hrs].
      * rewrite Hfin. do 2 f_equal. lia.
Qed.

(** X1. The call that opens a window is admitted whatever the limit; of the
    [n] calls that follow before the window ends, the first
    [max 0 (limit - 1)] are admitted and the others rejected, and no admitted
    call after the first reports a negative [remaining]. *)
Theorem window_quota o (t0 : Z) (times : list Z) buckets :
  window_closed o t0 buckets →
  Forall (λ t, t < t0 + windowMs o) times →
  ok (rateLimit o t0 buckets).1 = true
  ∧ remaining (rateLimit o t0 buckets).1 = limit o - 1
  ∧ allowed (calls o (t0 :: times) buckets).1
    = S (Nat.min (length times) (Z.to_nat (limit o - 1)))
  ∧ Forall (λ r, r_resetMs r = t0 + windowMs o) (calls o (t0 :: times) buckets).1
  ∧ Forall (λ r, 0 ≤ remaining r) (calls o times (rateLimit o t0 buckets).2).1.
Proof.
  intros Hclosed Hall.
  assert (Hopen : rateLimit o t0 buckets
                  = (mkResult true (limit o) (limit o - 1) (t0 + windowMs o),
                     <[key o := mkBucket (t0 + windowMs o) 1]> buckets)).
  { unfold rateLimit, window_closed in *. destruct (buckets !! key o); [| done].
    by rewrite decide_True. }
  simpl. rewrite Hopen. simpl.
  destruct (calls_in_window o times (<[key o := mkBucket (t0 + windowMs o) 1]> buckets)
              (t0 + windowMs o) 1) as (Hadm & Hrs & _);
    [apply lookup_insert_eq | done |].
  destruct (calls o times _) as [rs b2]. simpl in *.
  split_and!; try done.
  - unfold allowed in *. rewrite filter_cons. cbn [ok].
    rewrite decide_True by done. cbn [length]. by rewrite Hadm.
  - constructor; [done |]. eapply Forall_impl; [exact Hrs |]. by intros r [? ?].
  - eapply Forall_impl; [exact Hrs |]. by intros r [? ?].
Qed.

(** X2. A rejected call changes nothing and reports [remaining] 0; the key
    stays rejected at every time before the reset it reports, and is admitted
    again from that time on. *)
Theorem rejected_until_reset o (now : Z) buckets :
  ok (rateLimit o now buckets).1 = false →
  (rateLimit o now buckets).2 = buckets
  ∧ remaining (rateLimit o now buckets).1 = 0
  ∧ now < r_resetMs (rateLimit o now buckets).1
  ∧ ∀ t, (t < r_resetMs (rateLimit o now buckets).1 →
            ok (rateLimit o t buckets).1 = false)
         ∧ (r_resetMs (rateLimit o now buckets).1 ≤ t →
            ok (rateLimit o t buckets).1 = true).
Proof.
  unfold rateLimit. destruct (buckets !! key o) as [bucket |]; [| done].
  destruct (decide (resetMs bucket ≤ now)); [done |].
  destruct (decide (limit o ≤ count bucket)); [| done].
  intros _. cbn [fst snd remaining r_resetMs]. split_and!; [done | done | lia |].
  intros t. split; intros Ht; repeat case_decide; try done; lia.
Qed.

(** X3. Keys do not interfere: a call on one key leaves the bucket of every
    other key alone, so the verdict for a key does not depend on the calls
    made on other keys before it. *)
Theorem keys_are_independent o o' (now now' : Z) buckets :
  key o ≠ key o' →
  (rateLimit o' now' buckets).2 !! key o = buckets !! key o
  ∧ (rateLimit o now (rateLimit o' now' buckets).2).1 = (rateLimit o now buckets).1.
Proof.
  intros Hne.
  assert (Hframe : (rateLimit o' now' buckets).2 !! key o = buckets !! key o).
  { unfold rateLimit. repeat case_match; simpl; try done;
      by rewrite lookup_insert_ne. }
  split; [done |]. unfold rateLimit at 1 3. rewrite Hframe.
  by repeat case_match.
Qed.
End RateLimiter.

(** ** The range of the INTEGER columns *)

(** Numbers between 0 and one that fits an INTEGER column fit it too. *)
Lemma int4_below (n bound : Z) : int4 bound = true → 0 ≤ n ≤ bound → int4 n = true.
Proof.
  unfold int4. rewrite !bool_decide_eq_true. lia.
Qed.

Lemma int4_zero : int4 0 = true.
Proof. by vm_compute. Qed.

(** ** Authoring questions *)

(** The key of [Choice_questionId_order_key]. *)
Lemma choice_insert_commit row s u s' :
  choice_insert row s = inr (u, s') →
  (Choice.id row ∉ Choice.id <$> choices s)
  ∧ (∀ c, c ∈ choices s →
          ¬ (Choice.questionId c = Choice.questionId row ∧ Choice.order c = Choice.order row))
  ∧ Choice.questionId row ∈ Question.id <$> questions s
  ∧ s' = mkStore (quizzes s) (questions s) (choices s ++ [row]) (attempts s) (answers s).
Proof.
  unfold choice_insert.
  destruct (negb _); [done |].
  destruct (decide (_ ∈ _)) as [| Hid]; [done |].
  destruct (decide (Exists _ _)) as [| Hkey]; [done |].
  destruct (decide (_ ∈ _)) as [Hq |]; [| done].
  intros [= <-]. split_and!; try done.
  intros c Hc HP. apply Hkey, Exists_exists. by exists c.
Qed.

(** What the insertion of the choices of a question has checked when it
    commits. *)
Lemma choices_insert_commit rows s u s' :
  tx_forEach choice_insert rows s = inr (u, s') →
  s' = mkStore (quizzes s) (questions s) (choices s ++ rows) (attempts s) (answers s)
  ∧ NoDup (Choice.id <$> rows)
  ∧ (∀ r, r ∈ rows → Choice.id r ∉ Choice.id <$> choices s)
  ∧ NoDup ((λ c, (Choice.questionId c, Choice.order c)) <$> rows)
  ∧ (∀ r c, r ∈ rows → c ∈ choices s →
            ¬ (Choice.questionId c = Choice.questionId r ∧ Choice.order c = Choice.order r)).
Proof.
  revert s. induction rows as [| row rows IH]; intros s.
  - simpl. intros [= <-]. destruct s. simpl. rewrite app_nil_r.
    split_and!; [done | constructor | by intros r ?%not_elem_of_nil | constructor
                | by intros r c ?%not_elem_of_nil].
  - simpl. unfold mbind, tx_bind.
    destruct (choice_insert row s) as [e | [[] s1]] eqn:E; [done |].
    apply choice_insert_commit in E as (Hid & Hkey & _ & ->).
    intros H. apply IH in H as (-> & Hnd & Hfresh & Hkeys & Hold). simpl in *.
    split_and!.
    + by rewrite <- app_assoc.
    + constructor; [| done].
      intros Hin. apply list_elem_of_fmap in Hin as (r & Hr & Hin).
      apply (Hfresh r Hin). rewrite <- Hr, fmap_app. apply elem_of_app. right. by left.
    + intros r Hr. apply elem_of_cons in Hr as [-> | Hr]; [done |].
      intros Hin. apply (Hfresh r Hr). rewrite fmap_app. apply elem_of_app. by left.
    + constructor; [| done].
      intros Hin. apply list_elem_of_fmap in Hin as (r & [= Hq Ho] & Hin).
      apply (Hold r row Hin); [apply elem_of_app; right; by left | done].
    + intros r c Hr Hc. apply elem_of_cons in Hr as [-> | Hr]; [by apply Hkey |].
      apply (Hold r c Hr). apply elem_of_app. by left.
Qed.

Section AuthoringProperties.
Variable trim : string → string.

Lemma sorted_fmap_filter {A} (key : A → Z) (P : A → Prop) `{!∀ x, Decision (P x)}
    (l : list A) :
  StronglySorted Z.lt (key <$> l) → StronglySorted Z.lt (key <$> filter P l).
Proof.
  induction l as [| x l IH]; [done |].
  rewrite fmap_cons, StronglySorted_cons, filter_cons. intros [Hall Hs].
  destruct (decide (P x)); [| by apply IH].
  rewrite fmap_cons. apply StronglySorted_cons. split; [| by apply IH].
  rewrite Forall_forall in *. intros y Hy. apply Hall.
  apply list_elem_of_fmap in Hy as (z & -> & Hz).
  apply list_elem_of_filter in Hz as [_ Hz]. by apply list_elem_of_fmap_2.
Qed.

Lemma positions_increasing (n : nat) (inputs : list ChoiceInput.t) :
  Forall (λ c, ChoiceInput.order c = None) inputs →
  let row := λ idx c,
    ChoiceInput.mk (ChoiceInput.id c) (trim (ChoiceInput.text c))
      (ChoiceInput.isCorrect c)
      (Some (default (Z.of_nat (n + idx)) (ChoiceInput.order c))) in
  StronglySorted Z.lt ((λ c, default 0 (ChoiceInput.order c)) <$> imap row inputs)
  ∧ Forall (λ x, Z.of_nat n ≤ x) ((λ c, default 0 (ChoiceInput.order c)) <$> imap row inputs).
Proof.
  intros Hall. revert n. induction Hall as [| c l Hc _ IH]; intros n row.
  - split; constructor.
  - simpl. destruct (IH (S n)) as [Hs Hge].
    assert (Hext : imap (row ∘ S) l
                   = imap (λ idx c,
                             ChoiceInput.mk (ChoiceInput.id c) (trim (ChoiceInput.text c))
                               (ChoiceInput.isCorrect c)
                               (Some (default (Z.of_nat (S n + idx)) (ChoiceInput.order c))))
                       l).
    { apply imap_ext. intros i x _. unfold row. simpl. do 3 f_equal. lia. }
    rewrite Hext, Hc. simpl. split.
    + constructor; [done |]. eapply Forall_impl; [exact Hge |]. simpl. lia.
    + constructor; [lia |]. eapply Forall_impl; [exact Hge |]. simpl. lia.
Qed.

(** X4. [normalizeChoices] keeps exactly the choices whose trimmed text is
    not empty, with the trimmed text, the given [order] or else the position
    in the array as given, and [id] and [isCorrect] as they were; when no
    choice carries an [order], the orders of the result are strictly
    increasing, blank choices notwithstanding. *)
Theorem normalizeChoices_keeps (inputs : list ChoiceInput.t) :
  (∀ c, c ∈ normalizeChoices trim inputs ↔
        ∃ (i : nat) c0, inputs !! i = Some c0
          ∧ trim (ChoiceInput.text c0) ≠ EmptyString
          ∧ c = ChoiceInput.mk (ChoiceInput.id c0) (trim (ChoiceInput.text c0))
                  (ChoiceInput.isCorrect c0)
                  (Some (default (Z.of_nat i) (ChoiceInput.order c0))))
  ∧ (length (normalizeChoices trim inputs) ≤ length inputs)%nat
  ∧ (Forall (λ c, ChoiceInput.order c = None) inputs →
     StronglySorted Z.lt
       ((λ c, default 0 (ChoiceInput.order c)) <$> normalizeChoices trim inputs)).
Proof.
  unfold normalizeChoices. split_and!.
  - intros c. rewrite list_elem_of_filter, elem_of_lookup_imap. split.
    + intros [Hne (i & c0 & -> & Hi)]. by exists i, c0.
    + intros (i & c0 & Hi & Hne & ->). split; [done | by exists i, c0].
  - etrans; [apply length_filter |]. by rewrite length_imap.
  - intros Hall. apply sorted_fmap_filter.
    by destruct (positions_increasing 0 inputs Hall).
Qed.

Lemma validateCorrectChoices_None ty cs :
  validateCorrectChoices ty cs = None ↔
  (1 ≤ length (filter (λ c, flagged c = true) cs))%nat
  ∧ (ty = SINGLE_CHOICE → length (filter (λ c, flagged c = true) cs) = 1%nat).
Proof.
  unfold validateCorrectChoices.
  destruct (decide (length _ < 1)%nat) as [Hlt | Hge].
  { split; [done |]. intros [Hone _]. lia. }
  destruct (decide (ty = SINGLE_CHOICE ∧ _)) as [[Hty Hne] | Hok].
  { split; [done |]. intros [_ Hone]. by specialize (Hone Hty). }
  split; [| done]. intros _. split; [lia |]. intros Hty.
  destruct (decide (length (filter (λ c, flagged c = true) cs) = 1%nat)); [done |].
  destruct Hok. by split.
Qed.

(** The rows created for the choices carry the flags of the normalized
    choices. *)
Lemma choiceRows_flags env qid cs :
  length (filter (λ c, Choice.isCorrect c = true) (choiceRows env qid cs))
  = length (filter (λ c, flagged c = true) cs).
Proof.
  unfold choiceRows. generalize (newChoiceId env). intros ids. revert ids.
  induction cs as [| c cs IH]; intros ids; [done |].
  simpl. rewrite !filter_cons. simpl.
  specialize (IH (ids ∘ S)). unfold compose in IH.
  destruct (decide (flagged c = true)); simpl; by rewrite <- IH.
Qed.

Lemma choiceRows_question env qid cs r :
  r ∈ choiceRows env qid cs → Choice.questionId r = qid.
Proof.
  unfold choiceRows. intros Hr. by apply elem_of_lookup_imap in Hr as (i & c & -> & _).
Qed.

(** A question created by [POST]: why it was accepted and what was written. *)
Lemma question_POST_created env req s row cs s' :
  question_POST trim env req s = (Done 201 (row, cs), s') →
  ∃ b given,
    body req = Some b ∧ CreateBody.choices b = Some given
    ∧ (2 ≤ length (normalizeChoices trim given))%nat
    ∧ validateCorrectChoices (Question.type row) (normalizeChoices trim given) = None
    ∧ Question.id row = newQuestionId env ∧ Question.quizId row = CreateBody.quizId b
    ∧ Question.type row = default SINGLE_CHOICE (CreateBody.type b)
    ∧ Question.order row
      = default (default (-1) (question_maxOrder (CreateBody.quizId b) s) + 1)
          (CreateBody.order b)
    ∧ cs = byOrder (choiceRows env (newQuestionId env) (normalizeChoices trim given))
    ∧ question_create row
        (choiceRows env (newQuestionId env) (normalizeChoices trim given)) s
      = inr (tt, s').
Proof.
  unfold question_POST, transaction.
  destruct (auth req) as [au |]; [| done].
  destruct (isAdmin au); [| done]. simpl negb. cbv iota.
  destruct (rateOk req); [| done]. simpl negb. cbv iota.
  destruct (body req) as [b |]; [| done].
  destruct (_ || _); [done |].
  destruct (CreateBody.choices b) as [given |] eqn:Hgiven; [| done].
  destruct (decide (length given < 2)%nat); [done |]. cbv zeta.
  destruct (decide (length _ < 2)%nat); [done |].
  destruct (validateCorrectChoices _ _) eqn:Hval; [done |].
  destruct (question_create _ _ _) as [e | [[] s1]] eqn:Htx; [done |].
  intros [= <- <- <-]. exists b, given. split_and!; try done; lia.
Qed.

(** Unless it answers 201, [POST] writes nothing. *)
Lemma question_POST_refused env req s :
  reply_status (question_POST trim env req s).1 ≠ 201 →
  (question_POST trim env req s).2 = s.
Proof.
  unfold question_POST, transaction. repeat case_match; simpl; try done.
Qed.

Lemma question_create_commit row rows s u s' :
  question_create row rows s = inr (u, s') →
  (Question.id row ∉ Question.id <$> questions s)
  ∧ (∀ q, q ∈ questions s →
          ¬ (Question.quizId q = Question.quizId row ∧ Question.order q = Question.order row))
  ∧ Question.quizId row ∈ Quiz.id <$> quizzes s
  ∧ s' = mkStore (quizzes s) (questions s ++ [row]) (choices s ++ rows)
           (attempts s) (answers s)
  ∧ NoDup (Choice.id <$> rows)
  ∧ (∀ r, r ∈ rows → Choice.id r ∉ Choice.id <$> choices s)
  ∧ NoDup ((λ c, (Choice.questionId c, Choice.order c)) <$> rows).
Proof.
  unfold question_create, mbind, tx_bind.
  destruct (negb _); [done |].
  destruct (decide (_ ∈ _)) as [| Hid]; [done |].
  destruct (decide (Exists _ _)) as [| Hkey]; [done |].
  destruct (decide (_ ∈ _)) as [Hquiz |]; [| done].
  intros H. apply choices_insert_commit in H as (-> & Hnd & Hfresh & Hkeys & _).
  split_and!; try done.
  intros q Hq HP. apply Hkey, Exists_exists. by exists q.
Qed.

Lemma NoDup_fmap_filter {A B} (f : A → B) (P : A → Prop) `{!∀ x, Decision (P x)}
    (l : list A) :
  NoDup (f <$> l) → NoDup (f <$> filter P l).
Proof.
  intros Hnd. apply (sublist_NoDup _ (f <$> l)); [exact Hnd |].
  apply fmap_sublist, sublist_filter.
Qed.

Lemma filter_none {A} (P : A → Prop) `{!∀ x, Decision (P x)} (l : list A) :
  (∀ x, x ∈ l → ¬ P x) → filter P l = [].
Proof.
  induction l as [| x l IH]; [done |]. intros Hall. rewrite filter_cons.
  rewrite decide_False by (apply Hall; by left).
  apply IH. intros y Hy. apply Hall. by right.
Qed.

Lemma filter_all {A} (P : A → Prop) `{!∀ x, Decision (P x)} (l : list A) :
  (∀ x, x ∈ l → P x) → filter P l = l.
Proof.
  induction l as [| x l IH]; [done |]. intros Hall. rewrite filter_cons.
  rewrite decide_True by (apply Hall; by left).
  f_equal. apply IH. intros y Hy. apply Hall. by right.
Qed.

(** X5. A question created by [POST] is well formed for scoring: it has at
    least two choices, at least one of them flagged correct, and exactly one
    when it is SINGLE_CHOICE; so submitting exactly its correct choices is
    scored correct.  The question and its choices are appended, and nothing
    else is written. *)
Theorem created_question_is_answerable
    (env : AuthoringEnv) (req : Request CreateBody.t) (s s' : Store)
    (row : Question.t) (cs : list Choice.t) :
  (∀ c, c ∈ choices s → Choice.questionId c ∈ Question.id <$> questions s) →
  question_POST trim env req s = (Done 201 (row, cs), s') →
  let sel := mkSel (Question.id row) (Question.type row) (sel_choices_of row s') in
  questions s' = questions s ++ [row]
  ∧ choices s' ≡ₚ choices s ++ cs
  ∧ quizzes s' = quizzes s ∧ attempts s' = attempts s ∧ answers s' = answers s
  ∧ sel ∈ question_findMany (Question.quizId row) s'
  ∧ sel_choices sel ≡ₚ cs
  ∧ (2 ≤ length cs)%nat
  ∧ correctSet sel ≠ ∅
  ∧ (Question.type row = SINGLE_CHOICE → size (correctSet sel) = 1%nat)
  ∧ isCorrect (sel_type sel) (correctSet sel) (correctSet sel) = true.
Proof.
  intros Hfk Hpost sel.
  apply question_POST_created in Hpost
    as (b & given & _ & _ & Hlen & Hval & Hid & Hquiz & _ & _ & -> & Htx).
  apply question_create_commit in Htx as (Hfresh & _ & _ & -> & Hnd & _ & _).
  set (rows := choiceRows env (newQuestionId env) (normalizeChoices trim given)) in *.
  assert (Hrows : sel_choices sel = rows).
  { unfold sel, sel_choices_of. simpl. rewrite filter_app.
    rewrite filter_none, filter_all; [done | |].
    - intros r Hr. rewrite Hid. by eapply choiceRows_question.
    - intros c Hc Heq. apply Hfresh. rewrite <- Heq. by apply Hfk. }
  assert (Hperm : byOrder rows ≡ₚ rows) by apply merge_sort_Permutation.
  assert (Hcount : size (correctSet sel)
                   = length (filter (λ c, flagged c = true) (normalizeChoices trim given))).
  { unfold correctSet, Set_of. rewrite Hrows, size_list_to_set.
    - rewrite length_fmap. apply choiceRows_flags.
    - by apply NoDup_fmap_filter. }
  apply validateCorrectChoices_None in Hval as [Hone Hsingle].
  assert (Hne : correctSet sel ≠ ∅).
  { intros Hempty. rewrite Hempty, size_empty in Hcount. lia. }
  split_and!; try done.
  - simpl. by rewrite Hperm.
  - unfold question_findMany. simpl. apply list_elem_of_fmap.
    exists row. split; [done |]. apply list_elem_of_filter. split; [done |].
    apply elem_of_app. right. by left.
  - by rewrite Hrows, Hperm.
  - rewrite Hperm. unfold rows, choiceRows. by rewrite length_imap.
  - intros Hty. rewrite Hcount. by apply Hsingle.
  - simpl. destruct (Question.type row) eqn:Hty.
    + apply isCorrect_single.
      destruct (size_1_elem_of (correctSet sel)) as [c Hc].
      { rewrite Hcount. by apply Hsingle. }
      apply leibniz_equiv in Hc. exists c. rewrite Hc.
      split_and!; [done | by apply elem_of_singleton | apply size_singleton].
    + by apply isCorrect_multiple.
Qed.
(** Past the checks the reply is decided by the database write. *)
Lemma question_POST_passes env req b given s :
  passes_checks trim req b given →
  question_POST trim env req s
  = match question_create (questionRow trim env b s)
            (choiceRows env (newQuestionId env) (normalizeChoices trim given)) s with
    | inl _ => (Crashed, s)
    | inr (_, s') =>
        (Done 201 (questionRow trim env b s,
                   byOrder (choiceRows env (newQuestionId env) (normalizeChoices trim given))),
         s')
    end.
Proof.
  intros ((au & Hau & Hadm) & Hrate & Hb & Hquiz & (p & Hp & Hpne) & Hgiven & Hlen & Hval).
  unfold question_POST, transaction. rewrite Hau, Hadm, Hrate, Hb, Hp, Hgiven. simpl.
  assert (Hq : truthy (CreateBody.quizId b) = true)
    by (unfold truthy; by destruct (decide _)).
  assert (Hpt : truthy (trim p) = true) by (unfold truthy; by destruct (decide _)).
  rewrite Hq, Hpt. simpl.
  pose proof (length_filter (λ c, ChoiceInput.text c ≠ EmptyString)
                (imap (λ idx c,
                         ChoiceInput.mk (ChoiceInput.id c) (trim (ChoiceInput.text c))
                           (ChoiceInput.isCorrect c)
                           (Some (default (Z.of_nat idx) (ChoiceInput.order c)))) given))
    as Hle.
  rewrite length_imap in Hle. fold (normalizeChoices trim given) in Hle.
  rewrite decide_False by lia. rewrite decide_False by lia. rewrite Hval.
  unfold questionRow. rewrite Hp. done.
Qed.
Lemma choiceRows_ids env qid cs :
  Choice.id <$> choiceRows env qid cs = newChoiceId env <$> seq 0 (length cs).
Proof. unfold choiceRows. rewrite fmap_imap. apply (imap_seq_0 cs (newChoiceId env)). Qed.

Lemma choiceRows_keys env qid cs :
  (λ c, (Choice.questionId c, Choice.order c)) <$> choiceRows env qid cs
  = (λ c, (qid, default 0 (ChoiceInput.order c))) <$> cs.
Proof.
  unfold choiceRows. rewrite fmap_imap.
  rewrite <- (imap_const (λ c, (qid, default 0 (ChoiceInput.order c)))).
  by apply imap_ext.
Qed.

Lemma question_maxOrder_above quizId s q :
  q ∈ questions s → Question.quizId q = quizId →
  Question.order q < default (-1) (question_maxOrder quizId s) + 1.
Proof.
  intros Hq Hquiz. unfold question_maxOrder.
  assert (Hin : Question.order q
                ∈ Question.order <$> filter (λ q, Question.quizId q = quizId) (questions s)).
  { apply list_elem_of_fmap_2. by apply list_elem_of_filter. }
  destruct (Question.order <$> filter _ _) as [| n rest]; [by apply not_elem_of_nil in Hin |].
  simpl. apply foldl_max_ge in Hin. lia.
Qed.

(** Without orders in the request the choices are numbered by position. *)
Lemma normalizeChoices_positions (inputs : list ChoiceInput.t) c :
  Forall (λ c, ChoiceInput.order c = None) inputs →
  c ∈ normalizeChoices trim inputs →
  ∃ i : nat, (i < length inputs)%nat ∧ ChoiceInput.order c = Some (Z.of_nat i).
Proof.
  unfold normalizeChoices. intros Hall [_ Hc]%list_elem_of_filter.
  apply elem_of_lookup_imap in Hc as (i & c0 & -> & Hi).
  exists i. split; [by eapply lookup_lt_Some |]. simpl.
  rewrite Forall_forall in Hall. rewrite (Hall c0); [done |].
  by eapply list_elem_of_lookup_2.
Qed.

Lemma choiceRows_order env qid cs r :
  r ∈ choiceRows env qid cs →
  ∃ c, c ∈ cs ∧ Choice.order r = default 0 (ChoiceInput.order c).
Proof.
  unfold choiceRows. intros (i & c & -> & Hi)%elem_of_lookup_imap.
  exists c. split; [by eapply list_elem_of_lookup_2 | done].
Qed.

(** The insertion of choice rows commits when their orders fit the column,
    their ids and keys are new and distinct and their question exists. *)
Lemma choices_insert_commits rows s :
  (∀ r, r ∈ rows → int4 (Choice.order r) = true) →
  NoDup (Choice.id <$> rows) →
  (∀ r, r ∈ rows → Choice.id r ∉ Choice.id <$> choices s) →
  NoDup ((λ c, (Choice.questionId c, Choice.order c)) <$> rows) →
  (∀ r c, r ∈ rows → c ∈ choices s →
          ¬ (Choice.questionId c = Choice.questionId r ∧ Choice.order c = Choice.order r)) →
  (∀ r, r ∈ rows → Choice.questionId r ∈ Question.id <$> questions s) →
  ∃ s', tx_forEach choice_insert rows s = inr (tt, s').
Proof.
  revert s. induction rows as [| row rows IH]; intros s Hfit Hnd Hfresh Hkeys Hold Hfk.
  { by eexists. }
  rewrite fmap_cons in Hnd. rewrite fmap_cons in Hkeys.
  apply NoDup_cons in Hnd as [Hid Hnd]. apply NoDup_cons in Hkeys as [Hkey Hkeys].
  simpl. unfold mbind, tx_bind. unfold choice_insert at 1.
  rewrite (Hfit row) by (by left). cbn [negb].
  rewrite decide_False by (apply Hfresh; by left).
  rewrite decide_False.
  2: { rewrite Exists_exists. intros (c & Hc & HP). apply (Hold row c); [by left | done | done]. }
  rewrite decide_True by (apply Hfk; by left).
  apply IH; simpl; try done.
  - intros r Hr. apply Hfit. by right.
  - intros r Hr. rewrite fmap_app, elem_of_app. intros [Hin | Hin%list_elem_of_singleton].
    + by apply (Hfresh r); [right |].
    + apply Hid. rewrite <- Hin. by apply list_elem_of_fmap_2.
  - intros r c Hr [Hc | ->%list_elem_of_singleton]%elem_of_app [Hq Ho].
    + apply (Hold r c); [by right | done | done].
    + apply Hkey. apply list_elem_of_fmap. exists r. split; [by rewrite Hq, Ho | done].
  - intros r Hr. apply Hfk. by right.
Qed.

(** X6. Orders left to the handler never collide.  Take a request that
    passes the checks and carries no [order], neither for the question nor
    for any choice, for a quiz that exists and with new identifiers, its
    choices being no more than an INTEGER column can number.  The question
    is given the order after the greatest order of the quiz, which is above
    every order of the quiz.  When this order fits the INTEGER column the
    reply is 201; when it does not, because the greatest order is
    2147483647, the write is refused, the reply is 500 and nothing is
    written. *)
Theorem create_without_orders_commits
    (env : AuthoringEnv) (req : Request CreateBody.t) (b : CreateBody.t)
    (given : list ChoiceInput.t) (s : Store) :
  passes_checks trim req b given →
  CreateBody.order b = None →
  Forall (λ c, ChoiceInput.order c = None) given →
  CreateBody.quizId b ∈ Quiz.id <$> quizzes s →
  (∀ c, c ∈ choices s → Choice.questionId c ∈ Question.id <$> questions s) →
  fresh_ids env (length (normalizeChoices trim given)) s →
  int4 (Z.of_nat (length given)) = true →
  Question.order (questionRow trim env b s)
  = default (-1) (question_maxOrder (CreateBody.quizId b) s) + 1
  ∧ (∀ q, q ∈ questions s → Question.quizId q = CreateBody.quizId b →
          Question.order q < Question.order (questionRow trim env b s))
  ∧ (int4 (Question.order (questionRow trim env b s)) = true →
     ∃ cs s', question_POST trim env req s = (Done 201 (questionRow trim env b s, cs), s'))
  ∧ (int4 (Question.order (questionRow trim env b s)) = false →
     question_POST trim env req s = (Crashed, s)).
Proof.
  intros Hpass Horder Horders Hquiz Hfk (Hqid & Hcids & Hcfresh) Hcount.
  assert (Hnext : Question.order (questionRow trim env b s)
                  = default (-1) (question_maxOrder (CreateBody.quizId b) s) + 1).
  { unfold questionRow. simpl. by rewrite Horder. }
  assert (Habove : ∀ q, q ∈ questions s → Question.quizId q = CreateBody.quizId b →
                        Question.order q < Question.order (questionRow trim env b s)).
  { intros q Hq Heq. rewrite Hnext. by apply question_maxOrder_above. }
  split; [exact Hnext |]. split; [exact Habove |].
  rewrite (question_POST_passes env req b given s Hpass).
  set (row := questionRow trim env b s) in *.
  set (rows := choiceRows env (newQuestionId env) (normalizeChoices trim given)).
  split.
  2: { intros Hout. unfold question_create, mbind, tx_bind. by rewrite Hout. }
  intros Hfit.
  assert (Hcommit : ∃ s', question_create row rows s = inr (tt, s')).
  { unfold question_create, mbind, tx_bind. rewrite Hfit. cbn [negb].
    rewrite decide_False by done.
    rewrite decide_False.
    2: { rewrite Exists_exists. intros (q & Hq & Hsame & Hord).
         specialize (Habove q Hq Hsame). lia. }
    rewrite decide_True by done.
    apply choices_insert_commits; simpl.
    - intros r (c & Hc & ->)%choiceRows_order.
      destruct (normalizeChoices_positions given c Horders Hc) as (i & Hi & ->). simpl.
      apply (int4_below _ (Z.of_nat (length given))); [done | lia].
    - unfold rows. by rewrite choiceRows_ids.
    - intros r Hr. apply list_elem_of_fmap_2 with (f := Choice.id) in Hr as Hin.
      unfold rows in Hin. rewrite choiceRows_ids in Hin.
      apply list_elem_of_fmap in Hin as (i & -> & Hi). apply Hcfresh.
      apply elem_of_seq in Hi. lia.
    - unfold rows. rewrite choiceRows_keys.
      assert (Hsorted : StronglySorted Z.lt
                ((λ c, default 0 (ChoiceInput.order c)) <$> normalizeChoices trim given)).
      { unfold normalizeChoices. apply sorted_fmap_filter.
        by destruct (positions_increasing 0 given Horders). }
      apply increasing_NoDup in Hsorted.
      rewrite (list_fmap_compose (λ c, default 0 (ChoiceInput.order c))
                 (λ o, (newQuestionId env, o))).
      apply NoDup_fmap_2; [| done]. by intros x y [= ->].
    - intros r c Hr Hc [Hq _]. apply Hqid.
      rewrite <- (choiceRows_question _ _ _ _ Hr), <- Hq. by apply Hfk.
    - intros r Hr. rewrite (choiceRows_question _ _ _ _ Hr), fmap_app.
      apply elem_of_app. right. by left. }
  destruct Hcommit as [s' ->]. by exists (byOrder rows), s'.
Qed.

(** X7. Orders given in the request can collide, and then the handler does
    not answer 4xx: when the request passes the checks but two of its
    normalized choices have the same order, or its [order] is that of a
    question of the quiz, the database write throws, the reply is 500, and
    nothing is written. *)
Theorem colliding_orders_crash
    (env : AuthoringEnv) (req : Request CreateBody.t) (b : CreateBody.t)
    (given : list ChoiceInput.t) (s : Store) :
  passes_checks trim req b given →
  ¬ NoDup ((λ c, default 0 (ChoiceInput.order c)) <$> normalizeChoices trim given)
  ∨ (∃ q, q ∈ questions s ∧ Question.quizId q = CreateBody.quizId b
          ∧ CreateBody.order b = Some (Question.order q)) →
  question_POST trim env req s = (Crashed, s).
Proof.
  intros Hpass Hcollide.
  rewrite (question_POST_passes env req b given s Hpass).
  destruct (question_create _ _ s) as [e | [[] s']] eqn:Htx; [done |].
  exfalso. apply question_create_commit in Htx as (_ & Hkey & _ & _ & _ & _ & Hkeys).
  destruct Hcollide as [Hdup | (q & Hq & Hquiz & Horder)].
  - apply Hdup. rewrite choiceRows_keys in Hkeys.
    rewrite (list_fmap_compose (λ c, default 0 (ChoiceInput.order c))
               (λ o, (newQuestionId env, o))) in Hkeys.
    by apply NoDup_fmap_1 in Hkeys.
  - apply (Hkey q Hq). split; [done |]. unfold questionRow. simpl. by rewrite Horder.
Qed.
End AuthoringProperties.

(** ** Deleting a question *)

Lemma question_findUnique_is_Some id s :
  is_Some (question_findUnique id s) ↔ id ∈ Question.id <$> questions s.
Proof.
  unfold question_findUnique. split.
  - intros [q Hq]. apply head_Some_elem_of, list_elem_of_filter in Hq as [<- Hq].
    by apply list_elem_of_fmap_2.
  - intros (q & -> & Hq)%list_elem_of_fmap.
    destruct (head _) as [q' |] eqn:Hhead; [by eexists |].
    apply head_None in Hhead. by apply (filter_nil_not_elem_of _ _ q Hhead) in Hq.
Qed.

Lemma question_delete_commit id s :
  deletable id s →
  question_delete id s
  = inr (tt, mkStore (quizzes s)
               (filter (λ q, Question.id q ≠ id) (questions s))
               (filter (λ c, Choice.questionId c ≠ id) (choices s))
               (attempts s)
               ((λ r, Answer.mk (Answer.attemptId r) (Answer.questionId r)
                        (Answer.choices r ∖ choiceIdsOf id s)) <$> answers s)).
Proof.
  intros [Hq Hanswers]. unfold question_delete.
  apply question_findUnique_is_Some in Hq as [q ->].
  rewrite decide_False; [done |].
  rewrite Exists_exists. intros (r & Hr & Heq).
  rewrite Forall_forall in Hanswers. by apply (Hanswers r Hr).
Qed.

Lemma question_delete_throws id s :
  ¬ deletable id s → ∃ e, question_delete id s = inl e.
Proof.
  intros Hnot. unfold question_delete.
  destruct (question_findUnique id s) as [q |] eqn:Hq; [| by eexists].
  destruct (decide (Exists _ _)) as [| Hnone]; [by eexists |].
  destruct Hnot. split.
  - apply question_findUnique_is_Some. by eexists.
  - apply Forall_forall. intros r Hr Heq. apply Hnone, Exists_exists. by exists r.
Qed.

(** X8. [DELETE] for an administrator within the rate limit and with a
    non-empty [id]: the reply is 200 exactly when [id] names a question that
    no answer row refers to; in every other case, a question that does not
    exist included, it is 409 with the message about existing answers, and
    the store is as it was. *)
Theorem delete_200_or_409 (req : Request (option string)) (id : string) (s : Store) :
  (∃ au, auth req = Some au ∧ isAdmin au = true) →
  rateOk req = true →
  body req = Some (Some id) →
  id ≠ EmptyString →
  ((question_DELETE req s).1 = Done 200 tt ↔ deletable id s)
  ∧ (¬ deletable id s →
     question_DELETE req s
     = (Refused 409 "Unable to delete question (may have existing answers).", s)).
Proof.
  intros (au & Hau & Hadm) Hrate Hbody Hid.
  assert (Hcases : question_DELETE req s
                   = match question_delete id s with
                     | inr (_, s') => (Done 200 tt, s')
                     | inl _ =>
                         (Refused 409 "Unable to delete question (may have existing answers).",
                          s)
                     end).
  { unfold question_DELETE, transaction. rewrite Hau, Hadm, Hrate, Hbody. simpl.
    unfold truthy. by rewrite decide_False. }
  rewrite Hcases. destruct (decide (deletable id s)) as [Hd | Hn].
  - rewrite (question_delete_commit id s Hd). by split.
  - destruct (question_delete_throws id s Hn) as [e ->]. split; [| done].
    split; [done | by intros ?].
Qed.

(** X9. What a successful [DELETE] leaves: the question is gone and the other
    questions stay, in order; no choice refers to the question and the
    choices of other questions stay; quizzes and attempts are untouched; no
    answer row is added or removed; each answer keeps its choices except
    those of the deleted question, so that an answer to another question
    that had been saved with a choice of the deleted question loses it, and
    every choice an answer still holds names a choice row if it did before. *)
Theorem deleted_question_leaves_no_trace
    (req : Request (option string)) (id : string) (s s' : Store) :
  body req = Some (Some id) →
  question_DELETE req s = (Done 200 tt, s') →
  (id ∉ Question.id <$> questions s')
  ∧ questions s' = filter (λ q, Question.id q ≠ id) (questions s)
  ∧ choices s' = filter (λ c, Choice.questionId c ≠ id) (choices s)
  ∧ quizzes s' = quizzes s ∧ attempts s' = attempts s
  ∧ answerKey <$> answers s' = answerKey <$> answers s
  ∧ Answer.choices <$> answers s'
    = (λ r, Answer.choices r ∖ choiceIdsOf id s) <$> answers s
  ∧ (∀ r c, r ∈ answers s' → c ∈ Answer.choices r →
            (c ∉ choiceIdsOf id s)
            ∧ (c ∈ Choice.id <$> choices s → c ∈ Choice.id <$> choices s')).
Proof.
  intros Hbody Hdel.
  assert (Htx : question_delete id s = inr (tt, s')).
  { unfold question_DELETE, transaction in Hdel. rewrite Hbody in Hdel.
    destruct (auth req) as [au |]; [| done].
    destruct (isAdmin au); [| done]. destruct (rateOk req); [| done]. simpl in Hdel.
    destruct (truthy id); [| done]. simpl in Hdel.
    destruct (question_delete id s) as [e | [[] s1]]; [done |]. by injection Hdel as ->. }
  assert (Hd : deletable id s).
  { destruct (decide (deletable id s)) as [Hd | Hn]; [done |].
    destruct (question_delete_throws id s Hn) as [e He]. by rewrite He in Htx. }
  rewrite (question_delete_commit id s Hd) in Htx. injection Htx as <-. simpl.
  split_and!; try done.
  - intros (q & Hid & Hq)%list_elem_of_fmap.
    apply list_elem_of_filter in Hq as [Hne _]. by apply Hne.
  - rewrite <- list_fmap_compose. by apply list_fmap_ext.
  - rewrite <- list_fmap_compose. by apply list_fmap_ext.
  - intros r c (r0 & -> & Hr0)%list_elem_of_fmap Hc. simpl in Hc.
    apply elem_of_difference in Hc as [Hc Hgone]. split; [done |].
    intros (ch & -> & Hch)%list_elem_of_fmap. apply list_elem_of_fmap_2.
    apply list_elem_of_filter. split; [| done].
    intros Hq. apply Hgone. unfold choiceIdsOf, Set_of. apply elem_of_list_to_set.
    apply list_elem_of_fmap_2. by apply list_elem_of_filter.
Qed.

(** ** When save and submit commit *)

Lemma save_POST_served env req au b s :
  served req au b s →
  save_POST env req s
  = match save_tx env (auth_userId au) b s with
    | inl _ => (uncaught, s)
    | inr (attempt, s') =>
        (jsonOk (SaveOk (Attempt.id attempt) (Attempt.attemptNo attempt)), s')
    end.
Proof.
  intros (Hau & Hrate & Hb & Hq & quiz & Hquiz & Hpub).
  unfold save_POST, transaction. rewrite Hau, Hrate, Hb, Hquiz, Hpub. simpl.
  unfold truthy. by rewrite decide_False.
Qed.

Lemma submit_POST_validated env req au b score s :
  validated req au b score s →
  submit_POST env req s
  = match submit_tx env (auth_userId au) b score s with
    | inl _ => (uncaught, s)
    | inr (attempt, s') =>
        (jsonOk (SubmitOk (Attempt.id attempt) (Attempt.score attempt)
                   (Attempt.attemptNo attempt)
                   (Z.of_nat (length (question_findMany (Body.quizId b) s)))), s')
    end.
Proof.
  intros ((Hau & Hrate & Hb & Hq & quiz & Hquiz & Hpub) & Hne & Hloop).
  unfold submit_POST, transaction. rewrite Hau, Hrate, Hb, Hquiz, Hpub. simpl.
  unfold truthy. rewrite decide_False by done. simpl.
  rewrite decide_False by (by destruct (question_findMany _ _)).
  by rewrite Hloop.
Qed.

Lemma writable_Forall xs s :
  writable xs s
  ↔ Forall (λ a, AnswerInput.questionId a ∈ Question.id <$> questions s
                 ∧ connectable (choiceIdsOrEmpty a) s = true) xs.
Proof. unfold writable. by rewrite Forall_forall. Qed.

Lemma writable_same xs s s' :
  questions s' = questions s → choices s' = choices s → writable xs s → writable xs s'.
Proof. unfold writable, connectable. intros -> ->. done. Qed.

(** A committed [create] of an answer: what it checked and what it wrote. *)
Lemma answer_create_commit aid a s u s' :
  answer_create aid a s = inr (u, s') →
  AnswerInput.questionId a ∈ Question.id <$> questions s
  ∧ connectable (choiceIdsOrEmpty a) s = true
  ∧ answer_exists aid (AnswerInput.questionId a) s = false
  ∧ s' = with_answers (λ rows, rows ++ [Answer.mk aid (AnswerInput.questionId a)
                                          (Set_of (choiceIdsOrEmpty a))]) s.
Proof.
  unfold answer_create.
  destruct (decide (aid ∉ _)); [done |].
  destruct (decide (_ ∉ _)) as [| Hq]; [done |]. apply dec_stable in Hq.
  destruct (answer_exists _ _ _); [done |].
  destruct (connectable _ _); [| done]. by intros [= _ <-].
Qed.

Lemma answer_create_commits aid a s :
  aid ∈ Attempt.id <$> attempts s →
  AnswerInput.questionId a ∈ Question.id <$> questions s →
  connectable (choiceIdsOrEmpty a) s = true →
  answer_exists aid (AnswerInput.questionId a) s = false →
  answer_create aid a s
  = inr (tt, with_answers (λ rows, rows ++ [Answer.mk aid (AnswerInput.questionId a)
                                              (Set_of (choiceIdsOrEmpty a))]) s).
Proof.
  intros Haid Hq Hconn Hex. unfold answer_create. rewrite Hex, Hconn.
  rewrite decide_False by (by intros []). by rewrite decide_False by (by intros []).
Qed.

(** The nested creates of a new attempt commit when the entries are writable
    and name distinct questions that the attempt has no answer for. *)
Lemma create_all_commits aid xs s :
  aid ∈ Attempt.id <$> attempts s →
  writable xs s →
  NoDup (AnswerInput.questionId <$> xs) →
  (∀ a, a ∈ xs → answer_exists aid (AnswerInput.questionId a) s = false) →
  ∃ s', tx_forEach (answer_create aid) xs s = inr (tt, s').
Proof.
  revert s. induction xs as [| a xs IH]; intros s Haid Hw Hnd Hnew; [by eexists |].
  rewrite fmap_cons in Hnd. apply NoDup_cons in Hnd as [Hfirst Hnd].
  destruct (Hw a) as [Hq Hconn]; [by left |].
  simpl. unfold mbind, tx_bind.
  rewrite (answer_create_commits aid a s Haid Hq Hconn) by (apply Hnew; by left).
  apply IH; simpl; [done | | done |].
  - apply (writable_same _ s); [done | done |]. intros a' Ha'. apply Hw. by right.
  - intros a' Ha'. apply answer_exists_false. simpl.
    intros r [Hr | Hr%list_elem_of_singleton]%elem_of_app [Hr1 Hr2].
    + assert (Hex : answer_exists aid (AnswerInput.questionId a') s = false)
        by (apply Hnew; by right).
      rewrite answer_exists_false in Hex. by apply (Hex r Hr).
    + subst r. simpl in Hr2. apply Hfirst. rewrite Hr2. by apply list_elem_of_fmap_2.
Qed.

(** They fail when an entry is not writable ... *)
Lemma create_all_fails_unwritable aid xs s :
  ¬ writable xs s → ∃ e, tx_forEach (answer_create aid) xs s = inl e.
Proof.
  revert s. induction xs as [| a xs IH]; intros s Hnot.
  { destruct Hnot. by intros a ?%not_elem_of_nil. }
  simpl. unfold mbind, tx_bind.
  destruct (answer_create aid a s) as [e | [[] s1]] eqn:E; [by eexists |].
  apply answer_create_commit in E as (Hq & Hconn & _ & ->).
  apply IH. intros Hw. apply Hnot. intros a' [-> | Ha']%elem_of_cons; [done |].
  by apply (Hw a').
Qed.

(** ... or when a question is named that the attempt already has an answer
    for, in particular when two entries name the same question. *)
Lemma create_all_fails_existing aid xs s q :
  answer_exists aid q s = true → q ∈ AnswerInput.questionId <$> xs →
  ∃ e, tx_forEach (answer_create aid) xs s = inl e.
Proof.
  revert s. induction xs as [| a xs IH]; intros s Hex Hin; [by apply not_elem_of_nil in Hin |].
  simpl. unfold mbind, tx_bind.
  destruct (answer_create aid a s) as [e | [[] s1]] eqn:E; [by eexists |].
  apply answer_create_commit in E as (_ & _ & Hnew & ->).
  rewrite fmap_cons in Hin. apply elem_of_cons in Hin as [-> | Hin]; [congruence |].
  apply IH; [| done]. apply answer_exists_true in Hex as (r & Hr & Hr1 & Hr2).
  apply answer_exists_true. exists r. split; [| done]. simpl. apply elem_of_app. by left.
Qed.

Lemma create_all_fails_dup aid xs s :
  ¬ NoDup (AnswerInput.questionId <$> xs) →
  ∃ e, tx_forEach (answer_create aid) xs s = inl e.
Proof.
  revert s. induction xs as [| a xs IH]; intros s Hdup.
  { destruct Hdup. constructor. }
  simpl. unfold mbind, tx_bind.
  destruct (answer_create aid a s) as [e | [[] s1]] eqn:E; [by eexists |].
  apply answer_create_commit in E as (_ & _ & _ & ->).
  destruct (decide (AnswerInput.questionId a ∈ AnswerInput.questionId <$> xs)) as [Hin | Hnin].
  - apply (create_all_fails_existing _ _ _ (AnswerInput.questionId a)); [| done].
    apply answer_exists_true.
    exists (Answer.mk aid (AnswerInput.questionId a) (Set_of (choiceIdsOrEmpty a))).
    split; [| done]. simpl. apply elem_of_app. right. by left.
  - apply IH. intros Hnd. apply Hdup. rewrite fmap_cons. by constructor.
Qed.

(** A committed upsert wrote a writable entry, given that the answers in
    the store name questions that exist; and they still do afterwards. *)
Lemma answer_upsert_writable aid a s u s' :
  Forall (λ r, Answer.questionId r ∈ Question.id <$> questions s) (answers s) →
  answer_upsert aid a s = inr (u, s') →
  AnswerInput.questionId a ∈ Question.id <$> questions s
  ∧ connectable (choiceIdsOrEmpty a) s = true
  ∧ questions s' = questions s ∧ choices s' = choices s
  ∧ Forall (λ r, Answer.questionId r ∈ Question.id <$> questions s') (answers s').
Proof.
  intros Hrefer. unfold answer_upsert.
  destruct (answer_exists _ _ _) eqn:Hex.
  - destruct (connectable _ _) eqn:Hconn; [| done]. intros [= <- <-].
    unfold with_answers. simpl.
    apply answer_exists_true in Hex as (r & Hr & _ & <-).
    rewrite Forall_forall in Hrefer.
    split; [by apply Hrefer |]. split; [done |]. split; [done |]. split; [done |].
    apply Forall_forall. intros r' (r0 & -> & Hr0)%list_elem_of_fmap.
    unfold set_choices. destruct (decide _); simpl; by apply Hrefer.
  - intros (Hq & Hconn & _ & ->)%answer_create_commit. unfold with_answers. simpl.
    split_and!; try done. apply Forall_app. split; [done |]. by repeat constructor.
Qed.

Lemma upsert_all_fails aid xs s :
  Forall (λ r, Answer.questionId r ∈ Question.id <$> questions s) (answers s) →
  ¬ writable xs s → ∃ e, tx_forEach (answer_upsert aid) xs s = inl e.
Proof.
  revert s. induction xs as [| a xs IH]; intros s Hrefer Hnot.
  { destruct Hnot. by intros a ?%not_elem_of_nil. }
  simpl. unfold mbind, tx_bind.
  destruct (answer_upsert aid a s) as [e | [[] s1]] eqn:E; [by eexists |].
  apply answer_upsert_writable in E as (Hq & Hconn & Hqs & Hcs & Hrefer1); [| done].
  apply IH; [done |]. intros Hw. apply Hnot.
  intros a' [-> | Ha']%elem_of_cons; [done |].
  by apply (writable_same xs s1 s).
Qed.

(** A number that does not fit its column stops the insert of an attempt. *)
Lemma attempt_create_refused row nested s :
  int4 (Attempt.attemptNo row) = false ∨ int4 (default 0 (Attempt.score row)) = false →
  ∃ e, attempt_create row nested s = inl e.
Proof.
  intros Hout. unfold attempt_create, mbind, tx_bind.
  destruct (int4 (Attempt.attemptNo row)); [| by eexists].
  destruct (int4 (default 0 (Attempt.score row))); [| by eexists].
  by destruct Hout.
Qed.

(** The row of a new attempt is accepted: its numbers fit their columns, its
    id is new by assumption, its number is above those of (user, quiz), and
    its quiz exists. *)
Lemma attempt_create_nested env st sub sc u b s :
  int4 (nextAttemptNo u (Body.quizId b) s) = true →
  int4 (default 0 sc) = true →
  newAttemptId env ∉ Attempt.id <$> attempts s →
  is_Some (quiz_findUnique (Body.quizId b) s) →
  let row := Attempt.mk (newAttemptId env) st (nextAttemptNo u (Body.quizId b) s)
               (now env) sub sc u (Body.quizId b) in
  attempt_create row (Body.answers b) s
  = match tx_forEach (answer_create (newAttemptId env)) (Body.answers b)
            (with_attempts (λ rows, rows ++ [row]) s) with
    | inl e => inl e
    | inr (_, s') => inr (row, s')
    end.
Proof.
  intros Hno Hsc Hfresh [quiz Hquiz] row.
  unfold attempt_create, mbind, tx_bind, mret, tx_ret.
  unfold row at 1 2. cbn [Attempt.attemptNo Attempt.score]. rewrite Hno, Hsc. cbn [negb].
  simpl. rewrite decide_False by done.
  rewrite decide_False.
  2: { rewrite Exists_exists. intros (a & Ha & Hu & Hq & Hn).
       assert (Hin : Attempt.attemptNo a ∈ attemptNos u (Body.quizId b) s).
       { unfold attemptNos. apply list_elem_of_fmap_2. by apply list_elem_of_filter. }
       apply nextAttemptNo_above in Hin. lia. }
  rewrite decide_True.
  2: { apply head_Some_elem_of, list_elem_of_filter in Hquiz as [<- Hquiz].
       by apply list_elem_of_fmap_2. }
  by destruct (tx_forEach _ _ _) as [e | [[] s1]].
Qed.

(** The writes of a new attempt, all cases. *)
Lemma attempt_create_outcome env st sub sc u b s :
  newAttemptId env ∉ Attempt.id <$> attempts s →
  is_Some (quiz_findUnique (Body.quizId b) s) →
  answers_refer s →
  let row := Attempt.mk (newAttemptId env) st (nextAttemptNo u (Body.quizId b) s)
               (now env) sub sc u (Body.quizId b) in
  (writes_commit None u b sc s → ∃ s', attempt_create row (Body.answers b) s = inr (row, s'))
  ∧ (¬ writes_commit None u b sc s → ∃ e, attempt_create row (Body.answers b) s = inl e).
Proof.
  intros Hfresh Hquiz Hrefer row.
  destruct (int4 (nextAttemptNo u (Body.quizId b) s)) eqn:Hno.
  2: { split.
       - intros (_ & [[? [=]] | [_ Hfit]] & _). congruence.
       - intros _. apply attempt_create_refused. by left. }
  destruct (int4 (default 0 sc)) eqn:Hsc.
  2: { split.
       - intros (_ & _ & Hfit). congruence.
       - intros _. apply attempt_create_refused. by right. }
  pose proof (attempt_create_nested env st sub sc u b s Hno Hsc Hfresh Hquiz) as Hnest.
  cbv zeta in Hnest. fold row in Hnest. rewrite Hnest. clear Hnest.
  set (s1 := with_attempts (λ rows, rows ++ [row]) s).
  split.
  - intros (Hw & [[? [=]] | [Hnd _]] & _).
    destruct (create_all_commits (newAttemptId env) (Body.answers b) s1) as [s' ->];
      [| done | done | | by eexists].
    + simpl. rewrite fmap_app. apply elem_of_app. right. by left.
    + intros a _. apply answer_exists_false. intros r Hr [Hid _].
      unfold answers_refer in Hrefer. rewrite Forall_forall in Hrefer.
      destruct (Hrefer r Hr) as [Hin _]. apply Hfresh. by rewrite <- Hid.
  - intros Hnot.
    destruct (decide (NoDup (AnswerInput.questionId <$> Body.answers b))) as [Hnd | Hdup].
    + destruct (create_all_fails_unwritable (newAttemptId env) (Body.answers b) s1)
        as [e ->]; [| by eexists].
      intros Hw. apply Hnot. split; [exact Hw |]. split; [by right | done].
    + destruct (create_all_fails_dup (newAttemptId env) (Body.answers b) s1 Hdup)
        as [e ->]. by eexists.
Qed.

Lemma answers_refer_questions s :
  answers_refer s →
  Forall (λ r, Answer.questionId r ∈ Question.id <$> questions s) (answers s).
Proof. intros Hrefer. eapply Forall_impl; [exact Hrefer |]. by intros r [_ ?]. Qed.

(** A submit that resolves an attempt commits when its entries are writable
    and its score fits the column, with the attempt finalised. *)
Lemma submit_tx_resolved env u b score s e :
  NoDup (Attempt.id <$> attempts s) →
  submit_resolve u b s = Some e →
  writable (Body.answers b) s →
  int4 score = true →
  ∃ s', submit_tx env u b score s = inr (finalize (now env) score e, s')
        ∧ attempts s' = finalize_row (Attempt.id e) (now env) score (attempts s).
Proof.
  intros Hids Hres Hw Hfit.
  unfold submit_tx, mbind, tx_bind, tx_read. rewrite Hres.
  pose proof (submit_resolve_in_progress _ _ _ _ Hres) as [Hin _].
  destruct (upsert_all_commits (Attempt.id e) _ s (list_elem_of_fmap_2 _ _ _ Hin) Hw)
    as [s1 Hs1].
  rewrite Hs1. unfold attempt_update.
  pose proof (upsert_all_touches _ _ _ _ _ Hs1) as (_ & _ & _ & Hatt & _).
  destruct (head _) as [a |] eqn:Hhead.
  - apply head_Some_elem_of, list_elem_of_filter in Hhead as [Hid Ha].
    rewrite Hatt in Ha. apply (same_id_same_row _ _ _ Hids Ha Hin) in Hid as ->.
    cbn [finalize Attempt.score default from_option id]. rewrite Hfit. cbn [negb].
    eexists. split; [done |]. simpl. by rewrite Hatt.
  - apply head_None in Hhead. rewrite Hatt in Hhead.
    by apply (filter_nil_not_elem_of _ _ e Hhead) in Hin.
Qed.

(** The transactions commit when their writes go through. *)
Lemma save_tx_commits env u b s :
  newAttemptId env ∉ Attempt.id <$> attempts s →
  is_Some (quiz_findUnique (Body.quizId b) s) →
  answers_refer s →
  writes_commit (save_resolve u b s) u b None s →
  ∃ r s', save_tx env u b s = inr (r, s')
          ∧ match save_resolve u b s with
            | Some r0 => r = r0
            | None => Attempt.id r = newAttemptId env
                      ∧ Attempt.attemptNo r = nextAttemptNo u (Body.quizId b) s
            end.
Proof.
  intros Hfresh Hquiz Hrefer Hc.
  destruct (save_resolve u b s) as [r0 |] eqn:Hres.
  - destruct Hc as [Hw _].
    destruct (resolved_writes_commit env u b 0 s r0 Hw) as [Hsave _].
    destruct (Hsave Hres) as [s' Hs']. by exists r0, s'.
  - destruct (attempt_create_outcome env IN_PROGRESS None None u b s Hfresh Hquiz Hrefer)
      as [Hyes _].
    destruct (Hyes Hc) as [s' Hs'].
    unfold save_tx, mbind, tx_bind, tx_read. rewrite Hres.
    unfold nextAttemptNo in Hs'. rewrite Hs'. by eexists _, s'.
Qed.

Lemma submit_tx_commits env u b score s :
  NoDup (Attempt.id <$> attempts s) →
  newAttemptId env ∉ Attempt.id <$> attempts s →
  is_Some (quiz_findUnique (Body.quizId b) s) →
  answers_refer s →
  writes_commit (submit_resolve u b s) u b (Some score) s →
  ∃ r s', submit_tx env u b score s = inr (r, s')
          ∧ Attempt.score r = Some score
          ∧ match submit_resolve u b s with
            | Some e => Attempt.id r = Attempt.id e
                        ∧ Attempt.attemptNo r = Attempt.attemptNo e
            | None => Attempt.id r = newAttemptId env
                      ∧ Attempt.attemptNo r = nextAttemptNo u (Body.quizId b) s
            end.
Proof.
  intros Hids Hfresh Hquiz Hrefer Hc.
  destruct (submit_resolve u b s) as [e |] eqn:Hres.
  - destruct Hc as (Hw & _ & Hfit).
    destruct (submit_tx_resolved env u b score s e Hids Hres Hw Hfit) as (s' & -> & _).
    by eexists _, s'.
  - destruct (attempt_create_outcome env SUBMITTED (Some (now env)) (Some score) u b s
                Hfresh Hquiz Hrefer) as [Hyes _].
    destruct (Hyes Hc) as [s' Hs'].
    unfold submit_tx, mbind, tx_bind, tx_read. rewrite Hres.
    unfold nextAttemptNo in Hs'. rewrite Hs'. by eexists _, s'.
Qed.

(** X10. What decides a save that reaches its transaction, in a store where
    answers refer to existing attempts and questions and for a new attempt id
    that is not in use.  It answers 200 when every entry names an existing
    question and existing choices and, unless an attempt is resolved, no two
    entries name the same question and the next attempt number of the user
    for the quiz fits the INTEGER column; it then reports the resolved
    attempt, or the new one with the next attempt number.  A save that
    resolves no attempt answers 200 only then: in every other case, so also
    when the greatest attempt number is 2147483647, the reply is 500, not a
    4xx error, and nothing is written.  On either path an entry that names a
    question that does not exist ends the request in 500.  (What an entry
    with a choice id that names no choice does to an answer row that exists
    is left open: it rests on the [set] of the client library.) *)
Theorem save_outcome (env : Env) (req : Request Body.t) (au : AuthContext) (b : Body.t)
    (s : Store) :
  served req au b s →
  newAttemptId env ∉ Attempt.id <$> attempts s →
  answers_refer s →
  let resolved := save_resolve (auth_userId au) b s in
  (writes_commit resolved (auth_userId au) b None s →
   ∃ r s', save_POST env req s
           = (jsonOk (SaveOk (Attempt.id r) (Attempt.attemptNo r)), s')
           ∧ match resolved with
             | Some r0 => r = r0
             | None => Attempt.id r = newAttemptId env
                       ∧ Attempt.attemptNo r
                         = nextAttemptNo (auth_userId au) (Body.quizId b) s
             end)
  ∧ (resolved = None → ¬ writes_commit resolved (auth_userId au) b None s →
     save_POST env req s = (uncaught, s))
  ∧ ((∃ a, a ∈ Body.answers b ∧ AnswerInput.questionId a ∉ Question.id <$> questions s) →
     save_POST env req s = (uncaught, s)).
Proof.
  intros Hserved Hfresh Hrefer resolved.
  rewrite (save_POST_served env req au b s Hserved).
  destruct Hserved as (_ & _ & _ & _ & quiz & Hquiz & _).
  assert (Hcrash : ¬ writes_commit resolved (auth_userId au) b None s →
            match save_tx env (auth_userId au) b s with
            | inl _ => (uncaught, s)
            | inr (attempt, s') =>
                (jsonOk (SaveOk (Attempt.id attempt) (Attempt.attemptNo attempt)), s')
            end = (uncaught, s)).
  { unfold save_tx, mbind, tx_bind, tx_read. fold resolved.
    destruct resolved as [r0 |]; intros Hnot.
    + destruct (upsert_all_fails (Attempt.id r0) (Body.answers b) s) as [e ->]; [| | done].
      * by apply answers_refer_questions.
      * intros Hw. apply Hnot. split; [done |]. split; [left; by eexists | apply int4_zero].
    + destruct (attempt_create_outcome env IN_PROGRESS None None (auth_userId au) b s)
        as [_ Hno]; [done | by eexists | done |].
      unfold nextAttemptNo in Hno. by destruct (Hno Hnot) as [e ->]. }
  split_and!.
  - intros Hc.
    destruct (save_tx_commits env (auth_userId au) b s Hfresh (mk_is_Some _ _ Hquiz)
                Hrefer Hc) as (r & s' & -> & Hr).
    by exists r, s'.
  - intros _. exact Hcrash.
  - intros (a & Ha & Hq). apply Hcrash. intros (Hw & _). by destruct (Hw a Ha).
Qed.

(** X11. The same for a submit that passes validation, attempt ids being
    unique.  It answers 200, with the score of the scoring loop, when the
    entries are writable, the score fits the INTEGER column and, unless the
    hint resolves an attempt, no two entries name the same question and the
    next attempt number fits the INTEGER column.  A submit whose hint
    resolves no attempt answers 200 only then: otherwise, so also when two
    entries name the same question, when a choice id is the empty string, or
    when the greatest attempt number is 2147483647, the reply is 500 and
    nothing is written. *)
Theorem submit_outcome (env : Env) (req : Request Body.t) (au : AuthContext) (b : Body.t)
    (score : Z) (s : Store) :
  validated req au b score s →
  NoDup (Attempt.id <$> attempts s) →
  newAttemptId env ∉ Attempt.id <$> attempts s →
  answers_refer s →
  let resolved := submit_resolve (auth_userId au) b s in
  let total := Z.of_nat (length (question_findMany (Body.quizId b) s)) in
  (writes_commit resolved (auth_userId au) b (Some score) s →
   ∃ id n s', submit_POST env req s = (jsonOk (SubmitOk id (Some score) n total), s')
              ∧ match resolved with
                | Some e => id = Attempt.id e ∧ n = Attempt.attemptNo e
                | None => id = newAttemptId env
                          ∧ n = nextAttemptNo (auth_userId au) (Body.quizId b) s
                end)
  ∧ (resolved = None → ¬ writes_commit resolved (auth_userId au) b (Some score) s →
     submit_POST env req s = (uncaught, s)).
Proof.
  intros Hvalid Hids Hfresh Hrefer resolved total.
  rewrite (submit_POST_validated env req au b score s Hvalid).
  destruct Hvalid as ((_ & _ & _ & _ & quiz & Hquiz & _) & _ & _).
  split.
  - intros Hc.
    destruct (submit_tx_commits env (auth_userId au) b score s Hids Hfresh
                (mk_is_Some _ _ Hquiz) Hrefer Hc) as (r & s' & -> & -> & Hr).
    by exists (Attempt.id r), (Attempt.attemptNo r), s'.
  - subst resolved. intros Hres Hnot. rewrite Hres in Hnot.
    unfold submit_tx, mbind, tx_bind, tx_read. rewrite Hres.
    destruct (attempt_create_outcome env SUBMITTED (Some (now env)) (Some score)
                (auth_userId au) b s) as [_ Hno]; [done | by eexists | done |].
    unfold nextAttemptNo in Hno. by destruct (Hno Hnot) as [err ->].
Qed.

(** What the scoring loop has checked of each entry when it ends with a
    score. *)
Lemma scoreLoop_accepts byQuestionId answers acc score a :
  scoreLoop byQuestionId answers acc = inr score → a ∈ answers →
  ∃ q, byQuestionId !! AnswerInput.questionId a = Some q
       ∧ submittedSet a ⊆ validChoiceIds q.
Proof.
  revert acc. induction answers as [| h rest IH]; intros acc Hloop Hin;
    [by apply not_elem_of_nil in Hin |].
  simpl in Hloop.
  destruct (byQuestionId !! AnswerInput.questionId h) as [q |] eqn:Hq; [| done].
  destruct (forallb _ _) eqn:Hvalid; [| done].
  apply elem_of_cons in Hin as [-> | Hin]; [| by eapply IH].
  exists q. split; [done |]. by apply forallb_elements.
Qed.

(** X12. Validation covers the writes, but for the empty string: when the
    scoring loop of a submit ends with a score, every entry names a question
    of the quiz and every non-empty choice id names a choice of that
    question; so if no choice id is empty, every entry is writable. *)
Theorem validated_entries_writable (quizId : string) (answers : list AnswerInput.t)
    (score : Z) (s : Store) :
  scoreLoop (Map_of sel_id (question_findMany quizId s)) answers 0 = inr score →
  (∀ a, a ∈ answers →
        AnswerInput.questionId a
        ∈ Question.id <$> filter (λ q, Question.quizId q = quizId) (questions s)
        ∧ ∀ c, c ∈ choiceIdsOrEmpty a → c ≠ EmptyString →
               c ∈ Choice.id <$> filter (λ ch, Choice.questionId ch = AnswerInput.questionId a)
                                   (choices s))
  ∧ (choiceIds_truthy answers → writable answers s).
Proof.
  intros Hloop.
  assert (Hentries : ∀ a, a ∈ answers →
            AnswerInput.questionId a
            ∈ Question.id <$> filter (λ q, Question.quizId q = quizId) (questions s)
            ∧ ∀ c, c ∈ choiceIdsOrEmpty a → c ≠ EmptyString →
                   c ∈ Choice.id
                       <$> filter (λ ch, Choice.questionId ch = AnswerInput.questionId a)
                             (choices s)).
  { intros a Ha.
    destruct (scoreLoop_accepts _ _ _ _ a Hloop Ha) as (q & Hq & Hsub).
    apply Map_of_Some in Hq as [Hq Hid]. split.
    - rewrite <- question_findMany_ids, <- Hid. by apply list_elem_of_fmap_2.
    - intros c Hc Hne. rewrite <- Hid, <- (question_findMany_choices _ _ _ Hq).
      assert (Hin : c ∈ submittedSet a).
      { unfold submittedSet, Set_of. apply elem_of_list_to_set, list_elem_of_filter.
        split; [| done]. unfold truthy. by rewrite decide_False. }
      apply Hsub in Hin. unfold validChoiceIds, Set_of in Hin.
      by apply elem_of_list_to_set in Hin. }
  split; [exact Hentries |].
  intros Htruthy a Ha. destruct (Hentries a Ha) as [Hq Hcs]. split.
  - apply list_elem_of_fmap in Hq as (q & -> & Hq%list_elem_of_filter).
    apply list_elem_of_fmap_2. tauto.
  - unfold connectable. apply forallb_forall. intros c Hc%list_elem_of_In.
    apply bool_decide_eq_true.
    unfold choiceIds_truthy in Htruthy. rewrite Forall_forall in Htruthy.
    specialize (Htruthy a Ha). rewrite Forall_forall in Htruthy.
    destruct (list_elem_of_fmap_1 _ _ _ (Hcs c Hc (Htruthy c Hc))) as (ch & -> & Hch).
    apply list_elem_of_fmap_2. by apply list_elem_of_filter in Hch as [_ ?].
Qed.

(** X13. What an accepted submit reports: the score is never [null]; it is
    the number of entries of the request that are scored correct, each entry
    on its own, so it is at most the number of entries; [totalQuestions] is
    the number of questions of the quiz, which is not zero. *)
Theorem accepted_score_counts_entries (env : Env) (req : Request Body.t) (b : Body.t)
    (s s' : Store) (id : string) (reported : option Z) (n total : Z) :
  body req = Some b →
  submit_POST env req s = (jsonOk (SubmitOk id reported n total), s') →
  let byQuestionId := Map_of sel_id (question_findMany (Body.quizId b) s) in
  reported
  = Some (Z.of_nat (length (filter (λ a, entryCorrect byQuestionId a = true)
                              (Body.answers b))))
  ∧ total = Z.of_nat (length (filter (λ q, Question.quizId q = Body.quizId b) (questions s)))
  ∧ 0 < total
  ∧ ∃ score, reported = Some score ∧ 0 ≤ score ≤ Z.of_nat (length (Body.answers b)).
Proof.
  intros Hb Hresp byQuestionId.
  assert (Hne : question_findMany (Body.quizId b) s ≠ []).
  { unfold submit_POST in Hresp. rewrite Hb in Hresp.
    intros Hnil. rewrite Hnil in Hresp. simpl in Hresp.
    by repeat case_match. }
  destruct (submit_POST_cases env req s)
    as [[_ Hst] | (au & b0 & sc & r & _ & Hb0 & Hloop & Htx & Hr)];
    rewrite Hresp in *; [done |].
  rewrite Hb in Hb0. injection Hb0 as <-.
  injection Hr as _ Hscore _ ->.
  assert (Hsc : reported = Some sc).
  { apply submit_tx_commit in Htx as [(e & s1 & _ & _ & Hs & _) | (_ & -> & _)];
      simpl in *; congruence. }
  apply scoreLoop_counts_entries in Hloop as [-> _]. fold byQuestionId in Hsc.
  pose proof (length_filter (λ a, entryCorrect byQuestionId a = true) (Body.answers b)).
  split; [rewrite Hsc; f_equal; lia |].
  split; [unfold question_findMany; by rewrite length_fmap |].
  split; [destruct (question_findMany _ _); [done | simpl; lia] |].
  eexists. split; [exact Hsc | lia].
Qed.

(** ** The quiz page *)

Section Page.
Import Paper.

Lemma Array_from_Set_elem xs c : c ∈ Array_from_Set xs ↔ c ∈ xs.
Proof.
  induction xs as [| x xs IH]; [done |].
  simpl. rewrite !elem_of_cons, list_elem_of_filter, IH.
  destruct (decide (c = x)); [tauto | tauto].
Qed.

Lemma Array_from_Set_NoDup xs : NoDup (Array_from_Set xs).
Proof.
  induction xs as [| x xs IH]; [constructor |].
  simpl. constructor.
  - rewrite list_elem_of_filter. by intros [Hne _].
  - by apply NoDup_filter.
Qed.

Lemma Array_from_Set_sublist xs : Array_from_Set xs `sublist_of` xs.
Proof.
  induction xs as [| x xs IH]; [done |].
  simpl. apply sublist_skip. etrans; [apply sublist_filter | exact IH].
Qed.

Lemma Array_from_Set_fixed xs : NoDup xs → Array_from_Set xs = xs.
Proof.
  induction 1 as [| x xs Hx _ IH]; [done |].
  simpl. rewrite IH. f_equal. apply filter_all. by intros y Hy ->.
Qed.

Lemma normalizeChoices_elem cs c : c ∈ normalizeChoices cs ↔ c ∈ cs ∧ c ≠ EmptyString.
Proof.
  unfold normalizeChoices. rewrite Array_from_Set_elem, list_elem_of_filter.
  unfold truthy. destruct (decide (c = EmptyString)); [| tauto].
  split; [by intros [? _] | tauto].
Qed.

Lemma normalizeChoices_truthy cs :
  filter (λ c, truthy c = true) (normalizeChoices cs) = normalizeChoices cs.
Proof.
  apply filter_all. intros c [_ Hne]%normalizeChoices_elem.
  unfold truthy. by rewrite decide_False.
Qed.

(** X15. [normalizeChoices] of the page returns the non-empty choice ids of
    its argument, each once, in the order of their first occurrence; it is
    idempotent.  For an entry built with it the set that save stores is the
    set that submit scores, and it is the set submit would score for the
    array as given. *)
Theorem page_normalizeChoices (questionId : string) (choiceIds : list string) :
  NoDup (normalizeChoices choiceIds)
  ∧ (∀ c, c ∈ normalizeChoices choiceIds ↔ c ∈ choiceIds ∧ c ≠ EmptyString)
  ∧ normalizeChoices choiceIds `sublist_of` choiceIds
  ∧ normalizeChoices (normalizeChoices choiceIds) = normalizeChoices choiceIds
  ∧ Set_of (normalizeChoices choiceIds)
    = submittedSet (AnswerInput.mk questionId (Some (normalizeChoices choiceIds)))
  ∧ submittedSet (AnswerInput.mk questionId (Some (normalizeChoices choiceIds)))
    = submittedSet (AnswerInput.mk questionId (Some choiceIds)).
Proof.
  split_and!.
  - apply Array_from_Set_NoDup.
  - apply normalizeChoices_elem.
  - unfold normalizeChoices. etrans; [apply Array_from_Set_sublist | apply sublist_filter].
  - unfold normalizeChoices at 1. rewrite normalizeChoices_truthy.
    apply Array_from_Set_fixed, Array_from_Set_NoDup.
  - unfold submittedSet, choiceIdsOrEmpty. simpl. by rewrite normalizeChoices_truthy.
  - unfold submittedSet, choiceIdsOrEmpty, Set_of. simpl.
    rewrite normalizeChoices_truthy. apply set_eq. intros c.
    rewrite !elem_of_list_to_set, normalizeChoices_elem, list_elem_of_filter.
    unfold truthy. destruct (decide (c = EmptyString)); [| tauto].
    split; [tauto | by intros [? _]].
Qed.

(** The array [toggleChoice] stores for a MULTIPLE_CHOICE question. *)
Lemma toggled_array (c : string) (l0 : list string) :
  let set := Array_from_Set l0 in
  let l := if decide (c ∈ set) then filter (λ y, y ≠ c) set else set ++ [c] in
  NoDup l ∧ (c ∈ l ↔ c ∉ l0) ∧ (∀ c', c' ≠ c → (c' ∈ l ↔ c' ∈ l0)).
Proof.
  intros set l. pose proof (Array_from_Set_NoDup l0) as Hnd. fold set in Hnd.
  unfold l. destruct (decide (c ∈ set)) as [Hin | Hnin].
  - split_and!.
    + by apply NoDup_filter.
    + rewrite list_elem_of_filter. unfold set in Hin.
      rewrite Array_from_Set_elem in Hin.
      split; [by intros [Hn _] | intros Hn; destruct (Hn Hin)].
    + intros c' Hne. rewrite list_elem_of_filter. unfold set.
      rewrite Array_from_Set_elem. tauto.
  - split_and!.
    + apply NoDup_app. split_and!; [done | | apply NoDup_singleton].
      intros x Hx ->%list_elem_of_singleton. done.
    + rewrite elem_of_app, list_elem_of_singleton. unfold set in Hnin.
      rewrite Array_from_Set_elem in Hnin. tauto.
    + intros c' Hne. rewrite elem_of_app, list_elem_of_singleton. unfold set.
      rewrite Array_from_Set_elem. tauto.
Qed.

Lemma toggleChoice_lookup (q : QuestionView.t) (c : string) (st : State) :
  toggleChoice q c st !! QuestionView.id q
  = Some (match QuestionView.type q with
          | SINGLE_CHOICE => [c]
          | MULTIPLE_CHOICE =>
              let set := Array_from_Set (default [] (st !! QuestionView.id q)) in
              if decide (c ∈ set) then filter (λ y, y ≠ c) set else set ++ [c]
          end).
Proof. unfold toggleChoice. destruct (QuestionView.type q); apply lookup_insert_eq. Qed.

Lemma toggleChoice_lookup_ne (q : QuestionView.t) (c : string) (st : State) k :
  k ≠ QuestionView.id q → toggleChoice q c st !! k = st !! k.
Proof.
  intros Hk. unfold toggleChoice. cbv zeta.
  destruct (QuestionView.type q); by rewrite lookup_insert_ne.
Qed.

(** X16. One input of the page: the answers of the other questions stay;
    a SINGLE_CHOICE question gets exactly the chosen choice; for a
    MULTIPLE_CHOICE question the chosen choice changes sides and every other
    choice stays where it was, the array has no duplicates afterwards, and
    the same input twice gives back the same set of choices. *)
Theorem toggleChoice_effect (q : QuestionView.t) (c : string) (st : State) :
  let existing := default [] (st !! QuestionView.id q) in
  (∀ k, k ≠ QuestionView.id q → toggleChoice q c st !! k = st !! k)
  ∧ (QuestionView.type q = SINGLE_CHOICE →
     toggleChoice q c st !! QuestionView.id q = Some [c])
  ∧ (QuestionView.type q = MULTIPLE_CHOICE →
     ∃ l, toggleChoice q c st !! QuestionView.id q = Some l
          ∧ NoDup l
          ∧ (c ∈ l ↔ c ∉ existing)
          ∧ (∀ c', c' ≠ c → (c' ∈ l ↔ c' ∈ existing))
          ∧ ∃ l2, toggleChoice q c (toggleChoice q c st) !! QuestionView.id q = Some l2
                  ∧ Set_of l2 = Set_of existing).
Proof.
  intros existing. split_and!.
  - intros k Hk. by apply toggleChoice_lookup_ne.
  - intros Hty. by rewrite toggleChoice_lookup, Hty.
  - intros Hty.
    destruct (toggled_array c existing) as (Hnd & Hc & Hothers).
    remember (if decide (c ∈ Array_from_Set existing)
              then filter (λ y, y ≠ c) (Array_from_Set existing)
              else Array_from_Set existing ++ [c]) as l1 eqn:Hl1.
    assert (Hfirst : toggleChoice q c st !! QuestionView.id q = Some l1).
    { rewrite toggleChoice_lookup, Hty, Hl1. done. }
    exists l1. split; [exact Hfirst |].
    split; [exact Hnd |]. split; [exact Hc |]. split; [exact Hothers |].
    destruct (toggled_array c l1) as (_ & Hc2 & Hothers2).
    exists (if decide (c ∈ Array_from_Set l1)
            then filter (λ y, y ≠ c) (Array_from_Set l1)
            else Array_from_Set l1 ++ [c]).
    split; [rewrite toggleChoice_lookup, Hty, Hfirst; done |].
    unfold Set_of. apply set_eq. intros x. rewrite !elem_of_list_to_set.
    destruct (decide (x = c)) as [-> | Hne].
    + rewrite Hc2, Hc. destruct (decide (c ∈ existing)); tauto.
    + rewrite (Hothers2 x Hne). by apply Hothers.
Qed.

(** What the page holds after any inputs: arrays without duplicates, under
    ids of questions of the quiz, of choices of a question with that id. *)
Lemma reachable_invariant (questions : list QuestionView.t) (st : State) :
  reachable questions st →
  ∀ k l, st !! k = Some l →
    NoDup l
    ∧ k ∈ QuestionView.id <$> questions
    ∧ ∀ c, c ∈ l → ∃ q, q ∈ questions ∧ QuestionView.id q = k
                        ∧ c ∈ ChoiceView.id <$> QuestionView.choices q.
Proof.
  induction 1 as [| st q c Hreach IH Hq Hc]; intros k l Hl; [by rewrite lookup_empty in Hl |].
  destruct (decide (k = QuestionView.id q)) as [-> | Hne].
  2: { rewrite toggleChoice_lookup_ne in Hl by done. by apply IH. }
  rewrite toggleChoice_lookup in Hl. injection Hl as <-.
  split_and!; [| by apply list_elem_of_fmap_2 |].
  - destruct (QuestionView.type q); [apply NoDup_singleton |].
    by destruct (toggled_array c (default [] (st !! QuestionView.id q))) as [? _].
  - intros c' Hc'.
    destruct (decide (c' = c)) as [-> | Hne]; [by exists q |].
    destruct (QuestionView.type q).
    { apply list_elem_of_singleton in Hc'. done. }
    destruct (toggled_array c (default [] (st !! QuestionView.id q)))
      as (_ & _ & Hothers).
    apply (Hothers c' Hne) in Hc'.
    destruct (st !! QuestionView.id q) as [l0 |] eqn:Hl0;
      [| by apply not_elem_of_nil in Hc'].
    by apply (IH _ _ Hl0).
Qed.

(** *** What the page is sent *)

Lemma question_le_total : Total question_le.
Proof. intros a b. unfold question_le. lia. Qed.

Lemma choice_le_total : Total choice_le.
Proof. intros a b. unfold choice_le. lia. Qed.

Lemma quiz_questions_elem quizId s v :
  v ∈ quiz_questions quizId s
  ↔ ∃ q, q ∈ questions s ∧ Question.quizId q = quizId ∧ v = question_view s q.
Proof.
  unfold quiz_questions. rewrite list_elem_of_fmap. split.
  - intros (q & -> & Hq). rewrite merge_sort_Permutation in Hq.
    apply list_elem_of_filter in Hq as [? ?]. by exists q.
  - intros (q & Hq & Hquiz & ->). exists q. split; [done |].
    rewrite merge_sort_Permutation. by apply list_elem_of_filter.
Qed.

Lemma question_view_choice_ids s q :
  ChoiceView.id <$> QuestionView.choices (question_view s q)
  ≡ₚ Choice.id <$> filter (λ c, Choice.questionId c = Question.id q) (choices s).
Proof.
  simpl. rewrite <- list_fmap_compose. unfold byOrder, sel_choices_of.
  by rewrite merge_sort_Permutation.
Qed.

(** X17. What a 200 reply of [GET /api/quiz?id=] carries: the quiz exists
    and is published, or the caller is an administrator; the questions are
    those the submit operation scores against, as many as [totalQuestions]
    counts, in ascending order; each comes with the choices of its question
    in ascending order. *)
Theorem quiz_GET_view (req : Request unit) (id : string) (s : Store)
    (quiz : Quiz.t) (views : list QuestionView.t) :
  quiz_GET req id s = Done 200 (quiz, views) →
  quiz_findUnique id s = Some quiz
  ∧ (Quiz.isPublished quiz = true ∨ ∃ au, auth req = Some au ∧ isAdmin au = true)
  ∧ QuestionView.id <$> views ≡ₚ sel_id <$> question_findMany id s
  ∧ length views = length (question_findMany id s)
  ∧ Sorted (λ a b, QuestionView.order a ≤ QuestionView.order b) views
  ∧ ∀ v, v ∈ views →
      Sorted (λ a b, ChoiceView.order a ≤ ChoiceView.order b) (QuestionView.choices v)
      ∧ ∃ sel, sel ∈ question_findMany id s
               ∧ sel_id sel = QuestionView.id v ∧ sel_type sel = QuestionView.type v
               ∧ ChoiceView.id <$> QuestionView.choices v ≡ₚ Choice.id <$> sel_choices sel.
Proof.
  unfold quiz_GET. destruct (rateOk req); [| done]. simpl.
  destruct (quiz_findUnique id s) as [quiz0 |] eqn:Hquiz; [| done].
  destruct (negb (Quiz.isPublished quiz0) && _) eqn:Hvis; [done |].
  intros [= <- <-]. split; [done |]. split.
  { destruct (Quiz.isPublished quiz0); [by left |]. right.
    destruct (auth req) as [au |]; [| done]. exists au. simpl in Hvis.
    by destruct (isAdmin au). }
  unfold quiz_questions, question_findMany. split_and!.
  - rewrite <- !list_fmap_compose. by rewrite merge_sort_Permutation.
  - rewrite !length_fmap. by rewrite merge_sort_Permutation.
  - apply (Sorted_fmap _ question_le); [done |].
    apply (@Sorted_merge_sort _ question_le _ question_le_total).
  - intros v (q & -> & Hq)%list_elem_of_fmap. rewrite merge_sort_Permutation in Hq.
    split.
    + simpl. apply (Sorted_fmap _ choice_le); [done |].
      apply (@Sorted_merge_sort _ choice_le _ choice_le_total).
    + eexists. split; [by apply list_elem_of_fmap_2 |]. simpl.
      split; [done |]. split; [done |]. apply question_view_choice_ids.
Qed.

(** *** The requests of the page *)

Lemma flattenedAnswers_elem st entries a :
  entries_of st entries → a ∈ flattenedAnswers entries →
  ∃ k l, st !! k = Some l ∧ a = AnswerInput.mk k (Some (normalizeChoices l)).
Proof.
  unfold entries_of, flattenedAnswers. intros Hperm Ha.
  apply list_elem_of_fmap in Ha as ([k l] & -> & He).
  apply list_elem_of_filter in He as [_ He]. rewrite Hperm in He.
  apply elem_of_map_to_list in He. by exists k, l.
Qed.

Lemma flattenedAnswers_NoDup st entries :
  entries_of st entries → NoDup (AnswerInput.questionId <$> flattenedAnswers entries).
Proof.
  unfold entries_of, flattenedAnswers. intros Hperm.
  rewrite <- list_fmap_compose.
  apply (NoDup_fmap_filter fst (λ e, (0 < length e.2)%nat) entries).
  rewrite Hperm. apply NoDup_fst_map_to_list.
Qed.

(** The scoring loop ends with a score when every entry passes the two
    checks. *)
Lemma scoreLoop_accepted byQuestionId answers acc :
  (∀ a, a ∈ answers → ∃ q, byQuestionId !! AnswerInput.questionId a = Some q
                            ∧ submittedSet a ⊆ validChoiceIds q) →
  ∃ score, scoreLoop byQuestionId answers acc = inr score.
Proof.
  revert acc. induction answers as [| a rest IH]; intros acc Hall; [by eexists |].
  destruct (Hall a) as (q & Hq & Hsub); [by left |].
  rewrite (scoreLoop_valid _ _ q) by done.
  apply IH. intros a' Ha'. apply Hall. by right.
Qed.

Lemma scoreLoop_bounded {V} (key : V → string) (vs : list V)
    (byQuestionId : gmap string QuestionSel) answers score :
  (∀ k q, byQuestionId !! k = Some q → k ∈ key <$> vs) →
  NoDup (AnswerInput.questionId <$> answers) →
  scoreLoop byQuestionId answers 0 = inr score →
  0 ≤ score ≤ Z.of_nat (length vs).
Proof.
  intros Hkeys Hnd Hloop.
  apply scoreLoop_counts_entries in Hloop as [-> Hall].
  pose proof (length_filter (λ a, entryCorrect byQuestionId a = true) answers) as Hle.
  assert (Hsub : AnswerInput.questionId <$> answers ⊆+ key <$> vs).
  { apply NoDup_submseteq; [done |]. intros k Hk.
    apply list_elem_of_fmap in Hk as (a & -> & Ha).
    destruct (Hall a Ha) as [q Hq]. by apply (Hkeys _ q). }
  apply submseteq_length in Hsub. rewrite !length_fmap in Hsub. lia.
Qed.

(** The entries the page builds from a state reached on the quiz as loaded
    pass both checks of the scoring loop and are writable. *)
Lemma page_entries_valid quizId s st entries a :
  reachable (quiz_questions quizId s) st →
  entries_of st entries → a ∈ flattenedAnswers entries →
  (∃ q, Map_of sel_id (question_findMany quizId s) !! AnswerInput.questionId a = Some q
        ∧ submittedSet a ⊆ validChoiceIds q)
  ∧ AnswerInput.questionId a ∈ Question.id <$> questions s
  ∧ connectable (choiceIdsOrEmpty a) s = true.
Proof.
  intros Hreach Hentries Ha.
  destruct (flattenedAnswers_elem st entries a Hentries Ha) as (k & l & Hl & ->).
  destruct (reachable_invariant _ _ Hreach k l Hl) as (_ & Hk & Hcs). simpl.
  apply list_elem_of_fmap in Hk as (v & -> & Hv).
  apply quiz_questions_elem in Hv as (row & Hrow & Hquiz & ->). simpl in *.
  assert (Hchoice : ∀ c, c ∈ normalizeChoices l →
            c ∈ Choice.id <$> filter (λ ch, Choice.questionId ch = Question.id row)
                                (choices s)).
  { intros c [Hc _]%normalizeChoices_elem.
    destruct (Hcs c Hc) as (v' & Hv' & Hid & Hin).
    apply quiz_questions_elem in Hv' as (row' & _ & _ & ->).
    rewrite question_view_choice_ids in Hin. simpl in Hid. by rewrite <- Hid. }
  split_and!.
  - destruct (Map_of sel_id (question_findMany quizId s) !! Question.id row)
      as [sel |] eqn:Hsel.
    + exists sel. split; [done |]. apply Map_of_Some in Hsel as [Hsel Hid].
      intros c Hc. unfold submittedSet, Set_of in Hc.
      apply elem_of_list_to_set, list_elem_of_filter in Hc as [_ Hc].
      unfold validChoiceIds, Set_of. apply elem_of_list_to_set.
      rewrite (question_findMany_choices _ _ _ Hsel), Hid. by apply Hchoice.
    + apply Map_of_None in Hsel. destruct Hsel.
      rewrite question_findMany_ids. apply list_elem_of_fmap_2.
      by apply list_elem_of_filter.
  - by apply list_elem_of_fmap_2.
  - unfold connectable, choiceIdsOrEmpty. simpl.
    apply forallb_forall. intros c Hc%list_elem_of_In. apply bool_decide_eq_true.
    destruct (list_elem_of_fmap_1 _ _ _ (Hchoice c Hc)) as (ch & -> & Hch).
    apply list_elem_of_fmap_2. by apply list_elem_of_filter in Hch as [_ ?].
Qed.

(** X18. The page and the server agree.  After any inputs on the quiz as
    loaded, starting from an empty draft, the autosave and the submit of the
    page, when they get past authentication, the rate limit and the check of
    the quiz, and when the next attempt number of the user for the quiz and
    the number of questions of the quiz fit an INTEGER column, are answered
    200: no entry is rejected as invalid and no write fails; the score of
    the submit is at most [totalQuestions]. *)
Theorem page_requests_are_accepted
    (env : Env) (req : Request Body.t) (au : AuthContext) (quizId : string)
    (hint : option string) (s : Store) (st : State) (entries : list (string * list string)) :
  NoDup (Attempt.id <$> attempts s) →
  newAttemptId env ∉ Attempt.id <$> attempts s →
  answers_refer s →
  reachable (quiz_questions quizId s) st →
  entries_of st entries →
  served req au (body_of quizId hint entries) s →
  question_findMany quizId s ≠ [] →
  int4 (nextAttemptNo (auth_userId au) quizId s) = true →
  int4 (Z.of_nat (length (question_findMany quizId s))) = true →
  (∃ id n s', save_POST env req s = (jsonOk (SaveOk id n), s'))
  ∧ ∃ id score n s',
      submit_POST env req s
      = (jsonOk (SubmitOk id (Some score) n
                   (Z.of_nat (length (question_findMany quizId s)))), s')
      ∧ 0 ≤ score ≤ Z.of_nat (length (question_findMany quizId s)).
Proof.
  intros Hids Hfresh Hrefer Hreach Hentries Hserved Hne Hno Hcount.
  set (b := body_of quizId hint entries) in *.
  pose proof (λ a, page_entries_valid quizId s st entries a Hreach Hentries) as Hvalid.
  assert (Hw : writable (Body.answers b) s).
  { intros a Ha. by destruct (Hvalid a Ha) as (_ & ? & ?). }
  assert (Hnd : NoDup (AnswerInput.questionId <$> Body.answers b))
    by by apply (flattenedAnswers_NoDup st).
  assert (Hquiz : is_Some (quiz_findUnique (Body.quizId b) s)).
  { destruct Hserved as (_ & _ & _ & _ & quiz & Hquiz & _). by eexists. }
  split.
  - rewrite (save_POST_served env req au b s Hserved).
    destruct (save_tx_commits env (auth_userId au) b s Hfresh Hquiz Hrefer)
      as (r & s' & -> & _);
      [split; [done | split; [right; by split | apply int4_zero]] |].
    by eexists _, _, s'.
  - destruct (scoreLoop_accepted (Map_of sel_id (question_findMany quizId s))
                (Body.answers b) 0) as [score Hloop].
    { intros a Ha. by destruct (Hvalid a Ha) as (? & _). }
    assert (Hval : validated req au b score s) by done.
    assert (Hbound : 0 ≤ score ≤ Z.of_nat (length (question_findMany quizId s))).
    { apply (scoreLoop_bounded sel_id (question_findMany quizId s) _ _ _) in Hloop;
        [done | | done].
      intros k q [Hq <-]%Map_of_Some. by apply list_elem_of_fmap_2. }
    pose proof (int4_below _ _ Hcount Hbound) as Hfit.
    rewrite (submit_POST_validated env req au b score s Hval).
    destruct (submit_tx_commits env (auth_userId au) b score s Hids Hfresh Hquiz Hrefer)
      as (r & s' & -> & -> & _); [split; [done | split; [right; by split | done]] |].
    by eexists _, score, _, s'.
Qed.

(** *** The progress display *)

Lemma answeredCount_filter (questions : list QuestionView.t) (st : State) :
  answeredCount questions st
  = Z.of_nat (length (filter (λ q, (0 < length (default [] (st !! QuestionView.id q)))%nat)
                        questions)).
Proof.
  unfold answeredCount.
  assert (Hacc : ∀ acc,
            foldl (λ count q,
                     if decide (0 < length (default [] (st !! QuestionView.id q)))%nat
                     then count + 1 else count) acc questions
            = acc + Z.of_nat (length (filter
                       (λ q, (0 < length (default [] (st !! QuestionView.id q)))%nat)
                       questions))).
  { induction questions as [| q qs IH]; intros acc; [simpl; lia |].
    simpl. rewrite IH, filter_cons.
    destruct (decide (0 < length (default [] (st !! QuestionView.id q)))%nat);
      simpl length; lia. }
  rewrite Hacc. lia.
Qed.

(** X19. [answeredCount], the "Answered n/N" of the header, is the number of
    questions with a non-empty array, so it is at most the number of
    questions; when the questions have distinct ids and the state was reached
    by inputs from an empty draft, it is the number of entries that the page
    sends to save and submit. *)
Theorem answeredCount_is_sent (questions : list QuestionView.t) (st : State)
    (entries : list (string * list string)) :
  0 ≤ answeredCount questions st ≤ Z.of_nat (length questions)
  ∧ (NoDup (QuestionView.id <$> questions) →
     reachable questions st →
     entries_of st entries →
     answeredCount questions st = Z.of_nat (length (flattenedAnswers entries))).
Proof.
  rewrite answeredCount_filter. split.
  { pose proof (length_filter
                  (λ q, (0 < length (default [] (st !! QuestionView.id q)))%nat) questions).
    lia. }
  intros Hnd Hreach Hentries. f_equal.
  unfold flattenedAnswers. rewrite length_fmap.
  rewrite <- (length_fmap QuestionView.id), <- (length_fmap fst).
  apply Permutation_length, NoDup_Permutation.
  - by apply NoDup_fmap_filter.
  - apply NoDup_fmap_filter. unfold entries_of in Hentries. rewrite Hentries.
    apply NoDup_fst_map_to_list.
  - intros k. rewrite !list_elem_of_fmap. split.
    + intros (q & -> & [Hlen Hq]%list_elem_of_filter).
      destruct (st !! QuestionView.id q) as [l |] eqn:Hl; [| simpl in Hlen; lia].
      exists (QuestionView.id q, l). split; [done |].
      apply list_elem_of_filter. split; [done |].
      unfold entries_of in Hentries. rewrite Hentries. by apply elem_of_map_to_list.
    + intros ([k' l] & -> & [Hlen He]%list_elem_of_filter). simpl in *.
      unfold entries_of in Hentries. rewrite Hentries in He.
      apply elem_of_map_to_list in He.
      destruct (reachable_invariant _ _ Hreach k' l He) as (_ & Hk & _).
      apply list_elem_of_fmap in Hk as (q & -> & Hq).
      exists q. split; [done |]. apply list_elem_of_filter. split; [| done].
      by rewrite He.
Qed.
End Page.

(** ** From one request of a session to the next *)

Lemma attempt_findHinted_unique (r : Attempt.t) (s : Store) :
  NoDup (Attempt.id <$> attempts s) →
  r ∈ attempts s → Attempt.status r = IN_PROGRESS →
  attempt_findHinted (Attempt.id r) (Attempt.userId r) (Attempt.quizId r) s = Some r.
Proof.
  intros Hnd Hr Hst.
  destruct (attempt_findHinted _ _ _ s) as [a |] eqn:Hfind.
  - apply attempt_findHinted_Some in Hfind as (Ha & Hid & _).
    by rewrite (same_id_same_row _ _ _ Hnd Ha Hr Hid).
  - rewrite attempt_findHinted_None in Hfind. by destruct (Hfind r Hr).
Qed.

(** X20. The attempt id a save returns is a hint that works: the attempt it
    names is in the store with the reported number, in progress, and a
    following save or submit of the same user for the same quiz that echoes
    the id, as the page does, resolves that attempt, whatever its entries;
    so it creates no further attempt. *)
Theorem saved_attempt_is_resumed (env : Env) (req : Request Body.t) (au : AuthContext)
    (b : Body.t) (s s' : Store) (id : string) (n : Z) :
  NoDup (Attempt.id <$> attempts s) →
  auth req = Some au → body req = Some b →
  save_POST env req s = (jsonOk (SaveOk id n), s') →
  id ≠ EmptyString →
  ∃ r, r ∈ attempts s' ∧ Attempt.id r = id ∧ Attempt.attemptNo r = n
       ∧ Attempt.status r = IN_PROGRESS
       ∧ ∀ answers,
           save_resolve (auth_userId au) (Body.mk (Body.quizId b) (Some id) answers) s'
           = Some r
           ∧ submit_resolve (auth_userId au) (Body.mk (Body.quizId b) (Some id) answers) s'
             = Some r.
Proof.
  intros Hnd Hau Hb Hresp Hid.
  destruct (save_POST_cases env req s)
    as [[_ Hst] | (au0 & b0 & r & quiz & Hau0 & Hb0 & Htx & Hr & _)];
    rewrite Hresp in *; [done |].
  rewrite Hau in Hau0. injection Hau0 as <-. rewrite Hb in Hb0. injection Hb0 as <-.
  injection Hr as -> ->. simpl in Htx.
  assert (Hrow : r ∈ attempts s' ∧ Attempt.userId r = auth_userId au
                 ∧ Attempt.quizId r = Body.quizId b ∧ Attempt.status r = IN_PROGRESS
                 ∧ NoDup (Attempt.id <$> attempts s')).
  { apply save_tx_commit in Htx as [[Hres (_ & _ & _ & Hatt & _)] | (_ & -> & Hc)].
    - rewrite Hatt. unfold save_resolve in Hres. destruct (hintOf b).
      + apply attempt_findHinted_Some in Hres. tauto.
      + apply attempt_findLatest_Some in Hres. tauto.
    - destruct Hc as (Hfresh & _ & _ & _ & Hatt & _). rewrite Hatt. simpl.
      split_and!; try done.
      + apply elem_of_app. right. by left.
      + rewrite fmap_app. apply NoDup_app. split_and!; [done | | apply NoDup_singleton].
        intros x Hx ->%list_elem_of_singleton. done. }
  destruct Hrow as (Hin & Hu & Hq & Hst & Hnd').
  exists r. split_and!; try done.
  intros answers.
  assert (Hhint : hintOf (Body.mk (Body.quizId b) (Some (Attempt.id r)) answers)
                  = Some (Attempt.id r)).
  { unfold hintOf, truthy. simpl. by rewrite decide_False. }
  unfold save_resolve, submit_resolve. rewrite Hhint. simpl.
  rewrite <- Hu, <- Hq. split; by apply attempt_findHinted_unique.
Qed.

(** ** Requests that fail *)

Lemma PUT_move_cases req s :
  (PUT_move req s).2 = s ∧ status (PUT_move req s).1 ≠ 200
  ∨ ∃ b s', body req = Some b ∧ move_tx b s = inr (tt, s')
            ∧ PUT_move req s = (jsonOk MoveOk, s').
Proof.
  unfold PUT_move, transaction.
  destruct (auth req) as [au |]; [| by left].
  destruct (isAdmin au); [| by left]. destruct (rateOk req); [| by left]. simpl.
  destruct (body req) as [b |]; [| by left].
  destruct (truthy (MoveBody.id b)); [| by left]. simpl.
  destruct (move_tx b s) as [e | [[] s']] eqn:Htx.
  - left. split; [done |]. simpl. destruct e; simpl; try done.
    by destruct (decide _).
  - right. by exists b, s'.
Qed.

(** X21. A request that is not answered with success leaves no trace: for
    save, submit and the reordering of questions every reply other than 200,
    for the creation of a question every reply other than 201, and for its
    deletion every reply other than 200 comes with the store as it was; and
    the replies of save and submit have one of six statuses. *)
Theorem failed_requests_write_nothing (env : Env) (aenv : AuthoringEnv)
    (trim : string → string) (s : Store) :
  (∀ req, status (save_POST env req s).1 ∈ [200; 400; 401; 404; 429; 500]
          ∧ (status (save_POST env req s).1 ≠ 200 → (save_POST env req s).2 = s))
  ∧ (∀ req, status (submit_POST env req s).1 ∈ [200; 400; 401; 404; 429; 500]
            ∧ (status (submit_POST env req s).1 ≠ 200 → (submit_POST env req s).2 = s))
  ∧ (∀ req, status (PUT_move req s).1 ≠ 200 → (PUT_move req s).2 = s)
  ∧ (∀ req, reply_status (question_POST trim aenv req s).1 ≠ 201 →
            (question_POST trim aenv req s).2 = s)
  ∧ (∀ req, reply_status (question_DELETE req s).1 ≠ 200 → (question_DELETE req s).2 = s).
Proof.
  split_and!.
  - intros req. split.
    + unfold save_POST. repeat case_match; simpl; by_evaluation.
    + intros Hst. destruct (save_POST_cases env req s)
        as [[Hs _] | (au & b & r & quiz & _ & _ & _ & Hr & _)]; [done |].
      by rewrite Hr in Hst.
  - intros req. split.
    + destruct (submit_POST_cases env req s)
        as [[_ _] | (au & b & sc & r & _ & _ & _ & _ & ->)]; [| by_evaluation].
      unfold submit_POST. repeat case_match; simpl; try by_evaluation.
      match goal with H : scoreLoop _ _ _ = inl _ |- _ =>
        rewrite (scoreLoop_status _ _ _ _ H) end. by_evaluation.
    + intros Hst. destruct (submit_POST_cases env req s)
        as [[Hs _] | (au & b & sc & r & _ & _ & _ & _ & Hr)]; [done |].
      by rewrite Hr in Hst.
  - intros req Hst. destruct (PUT_move_cases req s) as [[Hs _] | (b & s' & _ & _ & Hr)];
      [done |]. by rewrite Hr in Hst.
  - intros req. apply question_POST_refused.
  - intros req. unfold question_DELETE, transaction. repeat case_match; simpl; done.
Qed.

(** ** Reordering never reorders *)

(** X22. With question ids unique, the reordering branch of [PUT] never
    changes the store, whatever the request: it answers 200 only when the
    question has no neighbor in the direction of the move, and then there is
    nothing to exchange; when there is a neighbor the first update of the
    exchange violates the unique index on (quizId, order) and the reply is
    400. *)
Theorem move_never_reorders (req : Request MoveBody.t) (s : Store) :
  NoDup (Question.id <$> questions s) →
  (PUT_move req s).2 = s
  ∧ (status (PUT_move req s).1 = 200 →
     ∃ b q, body req = Some b ∧ question_findUnique (MoveBody.id b) s = Some q
            ∧ match MoveBody.move b with
              | UP => question_findPrevious q s
              | DOWN => question_findNext q s
              end = None)
  ∧ (∀ b q n, body req = Some b → question_findUnique (MoveBody.id b) s = Some q →
              match MoveBody.move b with
              | UP => question_findPrevious q s
              | DOWN => question_findNext q s
              end = Some n →
              status (PUT_move req s).1 ∈ [400; 403; 429]).
Proof.
  intros Hnd.
  assert (Htx : ∀ b s', move_tx b s = inr (tt, s') →
            s' = s ∧ ∃ q, question_findUnique (MoveBody.id b) s = Some q
                          ∧ match MoveBody.move b with
                            | UP => question_findPrevious q s
                            | DOWN => question_findNext q s
                            end = None).
  { intros b s' Hb.
    destruct (question_findUnique (MoveBody.id b) s) as [q |] eqn:Hq.
    2: { unfold move_tx, mbind, tx_bind, tx_read in Hb. by rewrite Hq in Hb. }
    destruct (match MoveBody.move b with
              | UP => question_findPrevious q s
              | DOWN => question_findNext q s
              end) as [n |] eqn:Hn.
    { by rewrite (move_with_neighbor_fails b s q n Hnd Hq Hn) in Hb. }
    split; [| by exists q].
    unfold move_tx, mbind, tx_bind, tx_read in Hb. rewrite Hq in Hb.
    replace (match MoveBody.move b with
             | UP => question_findPrevious q
             | DOWN => question_findNext q
             end s) with (@None Question.t) in Hb by (by destruct (MoveBody.move b)).
    by injection Hb as <-. }
  split_and!.
  - destruct (PUT_move_cases req s) as [[Hs _] | (b & s' & _ & Hb & ->)]; [done |].
    by destruct (Htx b s' Hb) as [-> _].
  - intros Hst. destruct (PUT_move_cases req s) as [[_ Hne] | (b & s' & Hbody & Hb & _)];
      [done |]. destruct (Htx b s' Hb) as [_ (q & Hq & Hn)]. by exists b, q.
  - intros b q n Hbody Hq Hn. unfold PUT_move, transaction. rewrite Hbody.
    destruct (auth req) as [au |]; [| by_evaluation].
    destruct (isAdmin au); [| by_evaluation]. destruct (rateOk req); [| by_evaluation].
    simpl. destruct (truthy (MoveBody.id b)); [| by_evaluation]. simpl.
    rewrite (move_with_neighbor_fails b s q n Hnd Hq Hn). by_evaluation.
Qed.

(** ** Updating a question *)

Section UpdatingProperties.
Variable trim : string → string.
Variable env : AuthoringEnv.
Variable library_message : TxError → string.

Lemma keeps_rows_refl s : keeps_rows s s.
Proof. by repeat split. Qed.

Lemma keeps_rows_trans s1 s2 s3 : keeps_rows s1 s2 → keeps_rows s2 s3 → keeps_rows s1 s3.
Proof. intros (?&?&?&?) (?&?&?&?). repeat split; congruence. Qed.

Lemma choice_deleteMany_keeps ids s u s' :
  choice_deleteMany ids s = inr (u, s') → keeps_rows s s'.
Proof.
  intros [= _ <-]. repeat split. simpl. rewrite <- list_fmap_compose.
  by apply list_fmap_ext.
Qed.

Lemma upsert_choice_keeps qid i c s u s' :
  upsert_choice env qid i c s = inr (u, s') → keeps_rows s s'.
Proof.
  unfold upsert_choice. destruct (truthy _).
  - unfold choice_update. destruct (head _); [| done].
    destruct (negb _); [done |]. destruct (decide _); [done |]. by intros [= _ <-].
  - intros H. apply choice_insert_commit in H as (_ & _ & _ & ->). by repeat split.
Qed.

Lemma update_choices_keeps b q existing given s u s' :
  update_choices trim env b q existing given s = inr (u, s') → keeps_rows s s'.
Proof.
  unfold update_choices. cbv zeta.
  destruct (decide (length _ < 2)%nat); [done |].
  destruct (validateCorrectChoices _ _); [done |].
  unfold mbind, tx_bind.
  destruct (decide (_ = ∅)).
  - simpl. apply (tx_forEach_preorder keeps_rows);
      [apply keeps_rows_refl | apply keeps_rows_trans |].
    intros p s1 u1 s2 _ H. by eapply upsert_choice_keeps.
  - destruct (choice_deleteMany _ s) as [e | [[] s1]] eqn:Hdel; [done |].
    apply choice_deleteMany_keeps in Hdel. intros H.
    apply (keeps_rows_trans _ s1); [done |]. revert H.
    apply (tx_forEach_preorder keeps_rows);
      [apply keeps_rows_refl | apply keeps_rows_trans |].
    intros p s2 u2 s3 _ H. by eapply upsert_choice_keeps.
Qed.

Lemma question_update_commit b s q' s1 :
  question_update trim b s = inr (q', s1) →
  ∃ q, question_findUnique (UpdateBody.id b) s = Some q
       ∧ q' = updatedRow trim b q
       ∧ s1 = with_questions
                (fmap (λ r, if decide (Question.id r = Question.id q)
                            then updatedRow trim b q else r)) s.
Proof.
  unfold question_update. destruct (question_findUnique _ s) as [q |]; [| done].
  destruct (negb _); [done |].
  destruct (decide _); [done |]. intros [= <- <-]. by exists q.
Qed.

(** The transaction commits with the question as updated. *)
Lemma update_tx_commit b s r s' :
  update_tx trim env b s = inr (r, s') →
  ∃ q s1, question_update trim b s = inr (updatedRow trim b q, s1)
          ∧ question_findUnique (UpdateBody.id b) s = Some q
          ∧ keeps_rows s1 s'.
Proof.
  unfold update_tx, mbind, tx_bind, tx_read.
  destruct (question_update trim b s) as [e | [q' s1]] eqn:Hupd; [done |].
  pose proof Hupd as Hq. apply question_update_commit in Hq as (q & Hq & -> & Hs1).
  destruct (UpdateBody.choices b) as [given |].
  - destruct (update_choices _ _ _ _ _ _ s1) as [e | [[] s2]] eqn:Hch; [done |].
    intros [= _ <-]. exists q, s1. split_and!; [done | done |].
    by eapply update_choices_keeps.
  - intros [= _ <-]. exists q, s1. split_and!; [done | done | apply keeps_rows_refl].
Qed.

Lemma PUT_update_cases req s :
  (PUT_update trim env library_message req s).2 = s
  ∨ ∃ b r, body req = Some b
           ∧ update_tx trim env b s
             = inr (r, (PUT_update trim env library_message req s).2).
Proof.
  unfold PUT_update, transaction.
  destruct (auth req) as [au |]; [| by left].
  destruct (isAdmin au); [| by left]. destruct (rateOk req); [| by left]. simpl.
  destruct (body req) as [b |]; [| by left].
  destruct (truthy (UpdateBody.id b)); [| by left]. simpl.
  destruct (update_tx trim env b s) as [e | [[r |] s']] eqn:Htx; [by left | |];
    right; by eexists b, _.
Qed.

(** X23. What [PUT] never touches, whatever the request and whether or not
    it succeeds: quizzes, attempts, the answer rows with their attempt and
    question, the ids of the questions, and every question other than the
    one named by the body. *)
Theorem update_frame (req : Request UpdateBody.t) (s : Store) :
  let s' := (PUT_update trim env library_message req s).2 in
  quizzes s' = quizzes s ∧ attempts s' = attempts s
  ∧ answerKey <$> answers s' = answerKey <$> answers s
  ∧ Question.id <$> questions s' = Question.id <$> questions s
  ∧ ∀ q b, q ∈ questions s → body req = Some b → Question.id q ≠ UpdateBody.id b →
           q ∈ questions s'.
Proof.
  intros s'. destruct (PUT_update_cases req s) as [Hs | (b & r & Hb & Htx)].
  { unfold s'. rewrite Hs. by split_and!. }
  fold s' in Htx. apply update_tx_commit in Htx as (q & s1 & Hupd & Hq & Hkeep).
  apply question_update_commit in Hupd as (q0 & Hq0 & _ & ->).
  rewrite Hq in Hq0. injection Hq0 as <-.
  destruct Hkeep as (Hquiz & Hqs & Hatt & Hans). simpl in *.
  apply head_Some_elem_of, list_elem_of_filter in Hq as [Hid _].
  split_and!; try done.
  - rewrite Hqs, <- list_fmap_compose. apply list_fmap_ext. intros i row _. simpl.
    by destruct (decide _).
  - intros q1 b1 Hq1 Hb1 Hne. rewrite Hb in Hb1. injection Hb1 as <-.
    rewrite Hqs. apply list_elem_of_fmap. exists q1. split; [| done].
    rewrite decide_False; [done |]. congruence.
Qed.
Lemma question_update_unchanged_order b s q :
  UpdateBody.order b = None →
  NoDup ((λ r, (Question.quizId r, Question.order r)) <$> questions s) →
  question_findUnique (UpdateBody.id b) s = Some q →
  question_update trim b s
  = inr (updatedRow trim b q,
         with_questions (fmap (λ r, if decide (Question.id r = Question.id q)
                                    then updatedRow trim b q else r)) s).
Proof.
  intros Horder Hkeys Hq. unfold question_update. rewrite Hq, Horder.
  cbn [fmap option_fmap option_map default from_option negb].
  rewrite decide_False; [done |].
  rewrite Exists_exists. intros (r & Hr & Hne & Hquiz & Hord).
  unfold updatedRow in Hord. rewrite Horder in Hord. simpl in Hord.
  apply head_Some_elem_of, list_elem_of_filter in Hq as [_ Hin].
  apply Hne. f_equal.
  apply (same_key_same_row (λ r, (Question.quizId r, Question.order r)) (questions s));
    [done | done | done |]. by rewrite Hquiz, Hord.
Qed.

Lemma question_findUnique_updated (f : Question.t → Question.t) id q s :
  (∀ r, Question.id (f r) = Question.id r) →
  question_findUnique id s = Some q →
  question_findUnique id (with_questions (fmap f) s) = Some (f q).
Proof.
  intros Hf. unfold question_findUnique. simpl.
  induction (questions s) as [| r rows IH]; [done |].
  rewrite fmap_cons, !filter_cons, Hf.
  destruct (decide (Question.id r = id)); [by intros [= ->] | exact IH].
Qed.

(** X24. [PUT] validates the correct choices only when the body carries
    choices.  A body with a [type] and neither [choices] nor [order], for a
    question that exists, is answered 200 whatever the choices of the
    question are: the type is replaced and the choices stay.  So a question
    with several correct choices, or none, can be made SINGLE_CHOICE, and
    from then on no submission is scored correct for it. *)
Theorem type_change_is_not_validated
    (req : Request UpdateBody.t) (b : UpdateBody.t) (s : Store) (q : Question.t)
    (ty : QuestionType) :
  reaches_update req b →
  UpdateBody.choices b = None → UpdateBody.order b = None → UpdateBody.type b = Some ty →
  NoDup ((λ r, (Question.quizId r, Question.order r)) <$> questions s) →
  question_findUnique (UpdateBody.id b) s = Some q →
  let s' := (PUT_update trim env library_message req s).2 in
  let sel := mkSel (Question.id q) ty (sel_choices_of q s) in
  (PUT_update trim env library_message req s).1
  = Done 200 (updatedRow trim b q, byOrder (sel_choices_of q s))
  ∧ choices s' = choices s
  ∧ updatedRow trim b q ∈ questions s'
  ∧ Question.type (updatedRow trim b q) = ty
  ∧ sel ∈ question_findMany (Question.quizId q) s'
  ∧ (ty = SINGLE_CHOICE → size (correctSet sel) ≠ 1%nat →
     ∀ submitted, isCorrect (sel_type sel) submitted (correctSet sel) = false).
Proof.
  intros ((au & Hau & Hadm) & Hrate & Hbody & Hid) Hchoices Horder Hty Hkeys Hq s' sel.
  set (f := λ r, if decide (Question.id r = Question.id q)
                 then updatedRow trim b q else r).
  assert (Hf : ∀ r, Question.id (f r) = Question.id r).
  { intros r. unfold f. by destruct (decide _). }
  assert (Hfq : f q = updatedRow trim b q) by (unfold f; by rewrite decide_True).
  pose proof Hq as Hin. apply head_Some_elem_of, list_elem_of_filter in Hin as [Hqid Hin].
  assert (Htx : update_tx trim env b s
                = inr (Some (updatedRow trim b q, byOrder (sel_choices_of q s)),
                       with_questions (fmap f) s)).
  { unfold update_tx, mbind, tx_bind, tx_read.
    rewrite (question_update_unchanged_order b s q Horder Hkeys Hq), Hchoices. simpl.
    rewrite <- Hqid in Hq.
    pose proof (question_findUnique_updated f _ q s Hf Hq) as Hfind.
    rewrite Hfq in Hfind. unfold f in Hfind. by rewrite Hfind. }
  assert (Hput : PUT_update trim env library_message req s
                 = (Done 200 (updatedRow trim b q, byOrder (sel_choices_of q s)),
                    with_questions (fmap f) s)).
  { unfold PUT_update, transaction. rewrite Hau, Hadm, Hrate, Hbody. simpl.
    unfold truthy. rewrite decide_False by done. simpl. by rewrite Htx. }
  unfold s'. rewrite Hput. simpl.
  assert (Hrow : updatedRow trim b q ∈ f <$> questions s).
  { rewrite <- Hfq. by apply list_elem_of_fmap_2. }
  split_and!; try done.
  - unfold updatedRow. simpl. by rewrite Hty.
  - unfold question_findMany. simpl. apply list_elem_of_fmap.
    exists (updatedRow trim b q). split.
    + unfold sel, updatedRow. simpl. by rewrite Hty.
    + by apply list_elem_of_filter.
  - intros -> Hsize submitted. apply not_true_is_false.
    change (sel_type sel) with SINGLE_CHOICE.
    rewrite isCorrect_single. by intros (c & _ & _ & Hone).
Qed.

(** X25. Validation of the choices comes after the first write of the
    transaction, and the rollback undoes it: when the update of the question
    itself goes through but the body has fewer than two non-empty choices,
    or their correct choices do not fit the type, the reply is 400 with the
    message of the check and the store is as before the request, prompt,
    type and order included. *)
Theorem rejected_update_is_rolled_back
    (req : Request UpdateBody.t) (b : UpdateBody.t) (s s1 : Store) (q' : Question.t)
    (given : list ChoiceInput.t) :
  reaches_update req b →
  question_update trim b s = inr (q', s1) →
  UpdateBody.choices b = Some given →
  ((length (normalizeChoices trim given) < 2)%nat →
   PUT_update trim env library_message req s
   = (Refused 400 "At least 2 non-empty choices are required.", s))
  ∧ ∀ m, (2 ≤ length (normalizeChoices trim given))%nat →
         validateCorrectChoices (default (Question.type q') (UpdateBody.type b))
           (normalizeChoices trim given) = Some m →
         PUT_update trim env library_message req s = (Refused 400 m, s).
Proof.
  intros ((au & Hau & Hadm) & Hrate & Hbody & Hid) Hupd Hchoices.
  assert (Hput : ∀ e, update_tx trim env b s = inl e →
            PUT_update trim env library_message req s
            = (Refused (update_errorStatus library_message e)
                 (update_errorMessage library_message e), s)).
  { intros e He. unfold PUT_update, transaction. rewrite Hau, Hadm, Hrate, Hbody. simpl.
    unfold truthy. rewrite decide_False by done. simpl. by rewrite He. }
  split.
  - intros Hlen. rewrite (Hput (AppError "At least 2 non-empty choices are required."));
      [done |].
    unfold update_tx, mbind, tx_bind, tx_read. rewrite Hupd, Hchoices.
    unfold update_choices. cbv zeta. by rewrite decide_True.
  - intros m Hlen Hval. rewrite (Hput (AppError m)).
    + unfold update_errorStatus. simpl.
      unfold validateCorrectChoices in Hval.
      destruct (decide (_ < 1)%nat); [by injection Hval as <- |].
      destruct (decide (_ ∧ _)); [by injection Hval as <- | done].
    + unfold update_tx, mbind, tx_bind, tx_read. rewrite Hupd, Hchoices.
      unfold update_choices. cbv zeta. rewrite decide_False by lia. by rewrite Hval.
Qed.
Lemma upsert_choice_answers qid i c s u s' :
  upsert_choice env qid i c s = inr (u, s') → answers s' = answers s.
Proof.
  unfold upsert_choice. destruct (truthy _).
  - unfold choice_update. destruct (head _); [| done].
    destruct (negb _); [done |]. destruct (decide _); [done |]. by intros [= _ <-].
  - intros H. by apply choice_insert_commit in H as (_ & _ & _ & ->).
Qed.

Lemma upsert_loop_answers qid (ps : list (nat * ChoiceInput.t)) s u s' :
  tx_forEach (λ p, upsert_choice env qid p.1 p.2) ps s = inr (u, s') →
  answers s' = answers s.
Proof.
  apply (tx_forEach_preorder (λ s s', answers s' = answers s)).
  - done.
  - intros s1 s2 s3 H12 H23. congruence.
  - intros p s1 u1 s2 _ H. by eapply upsert_choice_answers.
Qed.

(** X26. Editing the choices of a question rewrites recorded answers.  When
    [PUT] with choices is answered 200, every choice of the question whose id
    is not among the ids of the body has been deleted, and with it its
    selection in every answer, of submitted attempts too; nothing else of the
    answers changes, and the attempts, their scores included, stay as they
    were. *)
Theorem removed_choices_leave_answers
    (req : Request UpdateBody.t) (b : UpdateBody.t) (s s' : Store) (q : Question.t)
    (given : list ChoiceInput.t) (updated : Question.t * list Choice.t) :
  body req = Some b →
  UpdateBody.choices b = Some given →
  question_findUnique (UpdateBody.id b) s = Some q →
  PUT_update trim env library_message req s = (Done 200 updated, s') →
  let removed : gset string :=
    Set_of (Choice.id <$> sel_choices_of q s)
    ∖ Set_of (filter (λ i, truthy i = true)
                (omap ChoiceInput.id (normalizeChoices trim given))) in
  answers s'
  = (λ r, Answer.mk (Answer.attemptId r) (Answer.questionId r) (Answer.choices r ∖ removed))
    <$> answers s
  ∧ attempts s' = attempts s
  ∧ ∀ r c, r ∈ answers s' → c ∈ removed → c ∉ Answer.choices r.
Proof.
  intros Hbody Hchoices Hq Hput removed.
  assert (Htx : ∃ r, update_tx trim env b s = inr (r, s')).
  { unfold PUT_update, transaction in Hput. rewrite Hbody in Hput.
    destruct (auth req) as [au |]; [| done].
    destruct (isAdmin au); [| done]. destruct (rateOk req); [| done]. simpl in Hput.
    destruct (truthy (UpdateBody.id b)); [| done]. simpl in Hput.
    destruct (update_tx trim env b s) as [e | [[r |] s2]]; [done | | done].
    injection Hput as _ <-. by eexists. }
  destruct Htx as [r Htx].
  assert (Hatt : attempts s' = attempts s).
  { pose proof Htx as Hcommit.
    apply update_tx_commit in Hcommit as (q0 & s0 & Hupd0 & _ & (_ & _ & Hatt & _)).
    apply question_update_commit in Hupd0 as (q2 & _ & _ & ->). exact Hatt. }
  unfold update_tx, mbind, tx_bind, tx_read in Htx.
  destruct (question_update trim b s) as [e | [q' s1]] eqn:Hupd; [done |].
  apply question_update_commit in Hupd as (q1 & Hq1 & -> & ->).
  rewrite Hq in Hq1. injection Hq1 as <-.
  rewrite Hchoices in Htx.
  destruct (update_choices _ _ _ _ _ _ _) as [e | [[] s2]] eqn:Hch; [done |].
  injection Htx as _ <-.
  assert (Hans : answers s2
                 = (λ r, Answer.mk (Answer.attemptId r) (Answer.questionId r)
                           (Answer.choices r ∖ removed)) <$> answers s).
  { unfold update_choices in Hch. cbv zeta in Hch.
    destruct (decide (length _ < 2)%nat); [done |].
    destruct (validateCorrectChoices _ _); [done |].
    unfold mbind, tx_bind in Hch.
    change (sel_choices_of (updatedRow trim b q)
              (with_questions
                 (fmap (λ r, if decide (Question.id r = Question.id q)
                             then updatedRow trim b q else r)) s))
      with (sel_choices_of q s) in Hch.
    fold removed in Hch.
    destruct (decide (removed = ∅)) as [Hnone | Hsome].
    - simpl in Hch. apply upsert_loop_answers in Hch. rewrite Hch. simpl.
      rewrite Hnone. rewrite <- (list_fmap_id (answers s)) at 1.
      apply list_fmap_ext. intros i [aid qid cs] _. simpl.
      by rewrite difference_empty_L.
    - simpl in Hch. apply upsert_loop_answers in Hch. by rewrite Hch. }
  split_and!; [exact Hans | exact Hatt |].
  intros r0 c Hr0 Hc. rewrite Hans in Hr0.
  apply list_elem_of_fmap in Hr0 as (r1 & -> & _). simpl.
  rewrite elem_of_difference. tauto.
Qed.
End UpdatingProperties.

(** ** Publishing *)

Lemma quiz_findUnique_updated (f : Quiz.t → Quiz.t) id quiz s :
  (∀ r, Quiz.id (f r) = Quiz.id r) →
  quiz_findUnique id s = Some quiz →
  quiz_findUnique id
    (mkStore (f <$> quizzes s) (questions s) (choices s) (attempts s) (answers s))
  = Some (f quiz).
Proof.
  intros Hf. unfold quiz_findUnique. simpl.
  induction (quizzes s) as [| r rows IH]; [done |].
  rewrite fmap_cons, !filter_cons, Hf.
  destruct (decide (Quiz.id r = id)); [by intros [= ->] | exact IH].
Qed.

(** X27. Unpublishing takes effect at once and everywhere.  After a [PUT]
    of the administrator that sets [isPublished] to false and is answered
    200, every save and every submit for that quiz is refused, the store
    staying as it is, and [GET] answers 404 to whoever is not an
    administrator; questions, choices, attempts and answers of the quiz are
    kept. *)
Theorem unpublished_quiz_is_closed
    (req : Request QuizUpdate.t) (b : QuizUpdate.t) (s s' : Store) (quiz : Quiz.t) :
  body req = Some b →
  QuizUpdate.isPublished b = Some false →
  quiz_PUT req s = (Done 200 quiz, s') →
  Quiz.id quiz = QuizUpdate.id b ∧ Quiz.isPublished quiz = false
  ∧ questions s' = questions s ∧ choices s' = choices s
  ∧ attempts s' = attempts s ∧ answers s' = answers s
  ∧ (∀ env r sent, body r = Some sent → Body.quizId sent = QuizUpdate.id b →
       status (save_POST env r s').1 ≠ 200 ∧ (save_POST env r s').2 = s'
       ∧ status (submit_POST env r s').1 ≠ 200 ∧ (submit_POST env r s').2 = s')
  ∧ (∀ r, default false (isAdmin <$> auth r) = false →
          reply_status (quiz_GET r (QuizUpdate.id b) s') ≠ 200).
Proof.
  intros Hbody Hflag Hput.
  assert (Htx : quiz_update b s = inr (quiz, s')).
  { unfold quiz_PUT in Hput. rewrite Hbody in Hput.
    destruct (auth req) as [au |]; [| done].
    destruct (isAdmin au); [| done]. destruct (rateOk req); [| done]. simpl in Hput.
    destruct (truthy (QuizUpdate.id b)); [| done]. simpl in Hput.
    destruct (quiz_update b s) as [e | [q1 s1]]; [done |]. by injection Hput as -> ->. }
  unfold quiz_update in Htx.
  destruct (quiz_findUnique (QuizUpdate.id b) s) as [quiz0 |] eqn:Hfind; [| done].
  rewrite Hflag in Htx. simpl in Htx. injection Htx as <- <-.
  pose proof Hfind as Hid. apply head_Some_elem_of, list_elem_of_filter in Hid as [Hid _].
  set (f := λ r, if decide (Quiz.id r = Quiz.id quiz0)
                 then Quiz.mk (Quiz.id quiz0) false else r).
  assert (Hf : ∀ r, Quiz.id (f r) = Quiz.id r).
  { intros r. unfold f. by destruct (decide _). }
  pose proof (quiz_findUnique_updated f _ _ s Hf Hfind) as Hnow.
  assert (Hfq : f quiz0 = Quiz.mk (Quiz.id quiz0) false).
  { unfold f. by rewrite decide_True. }
  rewrite Hfq in Hnow. fold f. simpl.
  split_and!; try done.
  - intros env r sent Hb Hquiz. unfold save_POST, submit_POST. rewrite Hb, Hquiz.
    destruct (auth r) as [au |]; [| done].
    destruct (rateOk r); [| done]. simpl.
    destruct (truthy (QuizUpdate.id b)); [| done]. simpl.
    by rewrite Hnow.
  - intros r Hnot. unfold quiz_GET. destruct (rateOk r); [| done]. simpl.
    rewrite Hnow. simpl. by rewrite Hnot.
Qed.

(** ** The constraints are kept *)

Lemma connectable_elem ids s c :
  connectable ids s = true → c ∈ ids → c ∈ Choice.id <$> choices s.
Proof.
  unfold connectable. rewrite forallb_forall. intros Hall Hc%list_elem_of_In.
  specialize (Hall c Hc). by apply bool_decide_eq_true in Hall.
Qed.

Lemma answer_upsert_consistent aid a s u s' :
  answer_upsert aid a s = inr (u, s') →
  answers_consistent s → answers_consistent s'.
Proof.
  intros Hup (Hkeys & Hrefer & Hchoices). unfold answers_consistent, answers_choose in *.
  pose proof (answer_upsert_keys _ _ _ _ _ Hup Hkeys) as Hkeys'.
  pose proof (answer_upsert_touches _ _ _ _ _ Hup) as (_ & Hqs & Hcs & Hatt & _).
  split; [done |]. unfold answers_refer. rewrite Hqs, Hcs, Hatt.
  unfold answer_upsert in Hup. destruct (answer_exists _ _ _) eqn:Hex.
  - destruct (connectable _ _) eqn:Hconn; [| done]. injection Hup as _ <-. simpl.
    split; apply Forall_fmap, Forall_forall; intros r Hr; simpl;
      unfold answers_refer in Hrefer; rewrite Forall_forall in Hrefer, Hchoices;
      unfold set_choices; destruct (decide _); simpl; try by apply Hrefer.
    + intros c Hc. unfold Set_of in Hc. apply elem_of_list_to_set in Hc.
      by eapply connectable_elem.
    + by apply Hchoices.
  - unfold answer_create in Hup. rewrite Hex in Hup.
    destruct (decide (aid ∉ _)) as [| Haid]; [done |]. apply dec_stable in Haid.
    destruct (decide (_ ∉ _)) as [| Hq]; [done |]. apply dec_stable in Hq.
    destruct (connectable _ _) eqn:Hconn; [| done]. injection Hup as _ <-. simpl.
    split; (apply Forall_app; split; [done |]); apply Forall_singleton; simpl; [done |].
    intros c Hc. unfold Set_of in Hc. apply elem_of_list_to_set in Hc.
    by eapply connectable_elem.
Qed.

Lemma upsert_all_consistent aid xs s u s' :
  tx_forEach (answer_upsert aid) xs s = inr (u, s') →
  answers_consistent s → answers_consistent s'.
Proof.
  apply (tx_forEach_preorder (λ s s', answers_consistent s → answers_consistent s')).
  - done.
  - intros s1 s2 s3 H12 H23 ?. by apply H23, H12.
  - intros a s1 u1 s2 _ H. exact (answer_upsert_consistent _ _ _ _ _ H).
Qed.

Lemma attempt_create_commit row nested s r s' :
  attempt_create row nested s = inr (r, s') →
  (Attempt.id row ∉ Attempt.id <$> attempts s)
  ∧ (attemptKey row ∉ attemptKey <$> attempts s)
  ∧ Attempt.quizId row ∈ Quiz.id <$> quizzes s
  ∧ tx_forEach (answer_create (Attempt.id row)) nested
      (with_attempts (λ rows, rows ++ [row]) s) = inr (tt, s').
Proof.
  unfold attempt_create, mbind, tx_bind, mret, tx_ret.
  destruct (negb _); [done |]. destruct (negb _); [done |].
  destruct (decide (Attempt.id row ∈ _)) as [| Hfresh]; [done |].
  destruct (decide (Exists _ _)) as [| Hkey]; [done |].
  destruct (decide (Attempt.quizId row ∈ _)) as [Hquiz |]; [| done].
  destruct (tx_forEach _ _ _) as [err | [[] s1]] eqn:E; [done |].
  intros [= _ <-]. split_and!; try done.
  intros (a & [= Hu Hq Hn] & Ha)%list_elem_of_fmap. apply Hkey, Exists_exists.
  by exists a.
Qed.

Lemma created_consistent row nested s r s' :
  attempt_create row nested s = inr (r, s') → consistent s → consistent s'.
Proof.
  intros (Hfresh & Hkey & Hquiz & Htx)%attempt_create_commit
         [(Hids & Hkeys & Hquizzes) (Hakeys & Hrefer & Hchoices)].
  apply create_all_as_upsert in Htx.
  pose proof (upsert_all_touches _ _ _ _ _ Htx) as (Hq' & _ & _ & Hatt & _).
  split.
  - unfold attempts_consistent. rewrite Hatt, Hq'. simpl. rewrite !fmap_app. simpl.
    split_and!.
    + apply NoDup_app. split_and!; [done | | apply NoDup_singleton].
      intros x Hx ->%list_elem_of_singleton. done.
    + apply NoDup_app. split_and!; [done | | apply NoDup_singleton].
      intros x Hx ->%list_elem_of_singleton. done.
    + apply Forall_app. split; [done | by apply Forall_singleton].
  - apply (upsert_all_consistent _ _ _ _ _ Htx). split_and!; [done | | done].
    unfold answers_refer in *. simpl. eapply Forall_impl; [exact Hrefer |].
    intros x [Hx ?]. split; [| done]. rewrite fmap_app. apply elem_of_app. by left.
Qed.

Lemma finalized_consistent id t score s :
  consistent s → consistent (with_attempts (finalize_row id t score) s).
Proof.
  intros [(Hids & Hkeys & Hquizzes) (Hakeys & Hrefer & Hchoices)].
  assert (Hkey : attemptKey <$> finalize_row id t score (attempts s)
                 = attemptKey <$> attempts s).
  { unfold finalize_row. rewrite <- list_fmap_compose. apply list_fmap_ext.
    intros i a _. simpl. by destruct (decide _). }
  split.
  - unfold attempts_consistent. simpl. rewrite finalize_row_ids, Hkey.
    split_and!; [done | done |].
    unfold finalize_row. apply Forall_fmap. eapply Forall_impl; [exact Hquizzes |].
    intros a Ha. simpl. by destruct (decide _).
  - unfold answers_consistent, answers_refer. simpl. by rewrite finalize_row_ids.
Qed.

Lemma step_consistent s o : consistent s → consistent (step s o).
Proof.
  intros Hs. destruct o as [env req | env req]; simpl.
  - destruct (save_POST_cases env req s) as [[-> _] | (au & b & r & quiz & _ & _ & Htx & _)];
      [done |].
    unfold save_tx, mbind, tx_bind, tx_read, mret, tx_ret in Htx.
    destruct (save_resolve _ _ s) as [r0 |].
    + destruct (tx_forEach _ _ _) as [err | [[] s1]] eqn:E; [done |].
      injection Htx as _ <-.
      pose proof (upsert_all_touches _ _ _ _ _ E) as (Hq' & _ & _ & Hatt & _).
      destruct Hs as [Hattempts Hanswers]. split.
      * unfold attempts_consistent. by rewrite Hatt, Hq'.
      * by apply (upsert_all_consistent _ _ _ _ _ E).
    + by eapply created_consistent.
  - destruct (submit_POST_cases env req s)
      as [[-> _] | (au & b & score & r & _ & _ & _ & Htx & _)]; [done |].
    unfold submit_tx, mbind, tx_bind, tx_read in Htx.
    destruct (submit_resolve _ _ s) as [e |].
    + destruct (tx_forEach _ _ _) as [err | [[] s1]] eqn:E; [done |].
      apply attempt_update_finalize in Htx as ->.
      apply finalized_consistent.
      pose proof (upsert_all_touches _ _ _ _ _ E) as (Hq' & _ & _ & Hatt & _).
      destruct Hs as [Hattempts Hanswers]. split.
      * unfold attempts_consistent. by rewrite Hatt, Hq'.
      * by apply (upsert_all_consistent _ _ _ _ _ E).
    + by eapply created_consistent.
Qed.

(** X28. Save and submit keep the constraints of the schema on attempts and
    answers: over any sequence of requests, attempt ids and the triples
    (user, quiz, attemptNo) stay unique, each attempt belongs to a quiz,
    there is one answer per (attempt, question), each answer belongs to an
    attempt and a question that exist, and each choice of an answer is a
    choice that exists. *)
Theorem run_keeps_constraints (ops : list Op) (s : Store) :
  consistent s → consistent (run ops s).
Proof.
  revert s. induction ops as [| o ops IH]; intros s Hs; [done |].
  apply IH. by apply step_consistent.
Qed.

(** *** The requests of the administrator *)

(** The store after a request that leaves attempts alone, keeps the ids of
    the quizzes and the keys of the answers, and leaves no answer without its
    question or one of its choices. *)
Lemma consistent_kept s s' :
  attempts s' = attempts s →
  Quiz.id <$> quizzes s' = Quiz.id <$> quizzes s →
  answerKey <$> answers s' = answerKey <$> answers s →
  Forall (λ r, Answer.questionId r ∈ Question.id <$> questions s') (answers s') →
  Forall (λ r, ∀ c, c ∈ Answer.choices r → c ∈ Choice.id <$> choices s') (answers s') →
  consistent s → consistent s'.
Proof.
  intros Hatt Hquiz Hkeys Hqs Hcs [(Hids & Hakeys & Hquizzes) (Hnd & Hrefer & _)].
  split.
  - unfold attempts_consistent. by rewrite Hatt, Hquiz.
  - split_and!; [by rewrite Hkeys | | done].
    unfold answers_refer in *. rewrite Hatt.
    assert (Hattempt : Forall (λ k, k.1 ∈ Attempt.id <$> attempts s)
                         (answerKey <$> answers s')).
    { rewrite Hkeys. apply Forall_fmap. eapply Forall_impl; [exact Hrefer |].
      by intros r [? _]. }
    apply Forall_fmap in Hattempt. rewrite Forall_forall in Hattempt, Hqs.
    apply Forall_forall. intros r Hr. split; [by apply Hattempt | by apply Hqs].
Qed.

Lemma answers_questions_kept s s' :
  answerKey <$> answers s' = answerKey <$> answers s →
  (∀ k, k ∈ Question.id <$> questions s → k ∈ Question.id <$> questions s') →
  answers_refer s →
  Forall (λ r, Answer.questionId r ∈ Question.id <$> questions s') (answers s').
Proof.
  intros Hkeys Hsub Hrefer.
  assert (H : Forall (λ k, k.2 ∈ Question.id <$> questions s') (answerKey <$> answers s')).
  { rewrite Hkeys. apply Forall_fmap. eapply Forall_impl; [exact Hrefer |].
    intros r [_ ?]. by apply Hsub. }
  by apply Forall_fmap in H.
Qed.

Section AdministratorKeeps.
Variable trim : string → string.
Variable env : AuthoringEnv.
Variable library_message : TxError → string.

Lemma question_POST_cases req s :
  (question_POST trim env req s).2 = s
  ∨ ∃ row cs, question_POST trim env req s
              = (Done 201 (row, cs), (question_POST trim env req s).2).
Proof.
  unfold question_POST, transaction.
  repeat case_match; simpl; try (by left); right; by eexists _, _.
Qed.

Lemma question_POST_consistent req s :
  consistent s → consistent (question_POST trim env req s).2.
Proof.
  intros Hs. destruct (question_POST_cases req s) as [-> | (row & cs & Hpost)]; [done |].
  apply question_POST_created in Hpost
    as (b & given & _ & _ & _ & _ & _ & _ & _ & _ & _ & Htx).
  apply question_create_commit in Htx as (_ & _ & _ & -> & _). simpl.
  pose proof Hs as [_ (_ & Hrefer & Hchoices)]. unfold answers_choose in Hchoices.
  apply (consistent_kept s); simpl; try done.
  - eapply Forall_impl; [exact Hrefer |]. intros r [_ Hq]. rewrite fmap_app.
    apply elem_of_app. by left.
  - eapply Forall_impl; [exact Hchoices |]. intros r Hr c Hc. rewrite fmap_app.
    apply elem_of_app. left. by apply Hr.
Qed.

Lemma question_DELETE_consistent req s :
  consistent s → consistent (question_DELETE req s).2.
Proof.
  intros Hs. unfold question_DELETE, transaction.
  destruct (auth req) as [au |]; [| done].
  destruct (isAdmin au); [| done]. destruct (rateOk req); [| done]. simpl.
  destruct (body req) as [[id |] |]; [| done | done].
  destruct (truthy id); [| done]. simpl.
  destruct (decide (deletable id s)) as [Hd | Hn].
  2: { by destruct (question_delete_throws id s Hn) as [e ->]. }
  rewrite (question_delete_commit id s Hd). simpl.
  pose proof Hs as [_ (_ & Hrefer & Hchoices)]. unfold answers_choose in Hchoices. destruct Hd as [_ Hnone].
  apply (consistent_kept s); simpl; try done.
  - rewrite <- list_fmap_compose. by apply list_fmap_ext.
  - apply Forall_fmap. simpl. unfold answers_refer in Hrefer.
    rewrite Forall_forall in Hrefer, Hnone. apply Forall_forall. intros r Hr. simpl.
    destruct (Hrefer r Hr) as [_ (q & Hid & Hq)%list_elem_of_fmap].
    apply list_elem_of_fmap. exists q. split; [done |].
    apply list_elem_of_filter. split; [| done]. rewrite <- Hid. by apply Hnone.
  - apply Forall_fmap. rewrite Forall_forall in Hchoices. apply Forall_forall.
    intros r Hr c Hc. simpl in Hc. apply elem_of_difference in Hc as [Hc Hgone].
    destruct (list_elem_of_fmap_1 _ _ _ (Hchoices r Hr c Hc)) as (ch & -> & Hch).
    apply list_elem_of_fmap_2, list_elem_of_filter. split; [| done].
    intros Hq. apply Hgone. unfold Set_of. apply elem_of_list_to_set.
    apply list_elem_of_fmap_2. by apply list_elem_of_filter.
Qed.

Lemma question_updateOrder_kept id o s u s' :
  question_updateOrder id o s = inr (u, s') →
  quizzes s' = quizzes s ∧ choices s' = choices s ∧ attempts s' = attempts s
  ∧ answers s' = answers s
  ∧ Question.id <$> questions s' = Question.id <$> questions s.
Proof.
  unfold question_updateOrder. destruct (question_findUnique id s); [| done].
  destruct (decide _); [done |]. intros [= _ <-]. simpl. split_and!; try done.
  rewrite <- list_fmap_compose. apply list_fmap_ext. intros i r _. simpl.
  by destruct (decide _).
Qed.

Lemma PUT_move_consistent req s : consistent s → consistent (PUT_move req s).2.
Proof.
  intros Hs. destruct (PUT_move_cases req s) as [[-> _] | (b & s' & _ & Htx & ->)];
    [done |]. simpl.
  assert (Hkept : quizzes s' = quizzes s ∧ choices s' = choices s
                  ∧ attempts s' = attempts s ∧ answers s' = answers s
                  ∧ Question.id <$> questions s' = Question.id <$> questions s).
  { unfold move_tx, mbind, tx_bind, tx_read, tx_throw, mret, tx_ret in Htx.
    destruct (question_findUnique _ s) as [q |]; [| done].
    destruct (match MoveBody.move b with
              | UP => question_findPrevious q
              | DOWN => question_findNext q
              end s) as [n |]; [| by injection Htx as <-].
    destruct (question_updateOrder _ _ s) as [e | [[] s1]] eqn:H1; [done |].
    apply question_updateOrder_kept in H1 as (? & ? & ? & ? & ?).
    apply question_updateOrder_kept in Htx as (? & ? & ? & ? & ?).
    split_and!; congruence. }
  destruct Hkept as (Hquiz & Hch & Hatt & Hans & Hqs).
  pose proof Hs as [_ (_ & Hrefer & Hchoices)]. unfold answers_choose in Hchoices.
  apply (consistent_kept s); try done; rewrite ?Hquiz, ?Hans, ?Hch, ?Hqs; try done.
  eapply Forall_impl; [exact Hrefer |]. by intros r [_ ?].
Qed.

Lemma quiz_PUT_consistent req s : consistent s → consistent (quiz_PUT req s).2.
Proof.
  intros Hs. unfold quiz_PUT.
  destruct (auth req) as [au |]; [| done].
  destruct (isAdmin au); [| done]. destruct (rateOk req); [| done]. simpl.
  destruct (body req) as [b |]; [| done].
  destruct (truthy (QuizUpdate.id b)); [| done]. simpl.
  unfold quiz_update. destruct (quiz_findUnique _ s) as [quiz |]; [| done]. simpl.
  pose proof Hs as [_ (_ & Hrefer & Hchoices)]. unfold answers_choose in Hchoices.
  apply (consistent_kept s); simpl; try done.
  - rewrite <- list_fmap_compose. apply list_fmap_ext. intros i r _. simpl.
    by destruct (decide _).
  - eapply Forall_impl; [exact Hrefer |]. by intros r [_ ?].
Qed.

Lemma choice_deleteMany_chooses ids s u s' :
  choice_deleteMany ids s = inr (u, s') → answers_choose s → answers_choose s'.
Proof.
  intros [= _ <-] Hs. unfold answers_choose in *. simpl.
  apply Forall_fmap. rewrite Forall_forall in Hs. apply Forall_forall.
  intros r Hr c Hc. simpl in Hc. apply elem_of_difference in Hc as [Hc Hgone].
  destruct (list_elem_of_fmap_1 _ _ _ (Hs r Hr c Hc)) as (ch & -> & Hch).
  apply list_elem_of_fmap_2, list_elem_of_filter. by split.
Qed.

Lemma upsert_choice_chooses qid i c s u s' :
  upsert_choice env qid i c s = inr (u, s') → answers_choose s → answers_choose s'.
Proof.
  unfold upsert_choice, answers_choose. destruct (truthy _).
  - unfold choice_update. destruct (head _); [| done].
    destruct (negb _); [done |]. destruct (decide _); [done |]. intros [= _ <-] Hs. simpl.
    rewrite <- list_fmap_compose.
    erewrite list_fmap_ext; [exact Hs |]. intros j ch _. simpl.
    destruct (decide _) as [-> |]; done.
  - intros H Hs. apply choice_insert_commit in H as (_ & _ & _ & ->). simpl.
    eapply Forall_impl; [exact Hs |]. intros r Hr c' Hc'. rewrite fmap_app.
    apply elem_of_app. left. by apply Hr.
Qed.

Lemma update_choices_chooses b q existing given s u s' :
  update_choices trim env b q existing given s = inr (u, s') →
  answers_choose s → answers_choose s'.
Proof.
  unfold update_choices. cbv zeta.
  destruct (decide (length _ < 2)%nat); [done |].
  destruct (validateCorrectChoices _ _); [done |].
  unfold mbind, tx_bind.
  assert (Hloop : ∀ ps s1 u1 s2,
            tx_forEach (λ p, upsert_choice env (Question.id q) p.1 p.2) ps s1
            = inr (u1, s2) → answers_choose s1 → answers_choose s2).
  { intros ps s1 u1 s2.
    apply (tx_forEach_preorder (λ s1 s2, answers_choose s1 → answers_choose s2)).
    - done.
    - intros t1 t2 t3 H12 H23 ?. by apply H23, H12.
    - intros p t1 v t2 _ H. by eapply upsert_choice_chooses. }
  destruct (decide (_ = ∅)).
  - simpl. apply Hloop.
  - destruct (choice_deleteMany _ s) as [e | [[] s1]] eqn:Hdel; [done |].
    intros H Hs. apply (Hloop _ _ _ _ H). by eapply choice_deleteMany_chooses.
Qed.

Lemma PUT_update_consistent req s :
  consistent s → consistent (PUT_update trim env library_message req s).2.
Proof.
  intros Hs. destruct (PUT_update_cases trim env library_message req s)
    as [-> | (b & r & _ & Htx)]; [done |].
  set (s' := (PUT_update trim env library_message req s).2) in *.
  unfold update_tx, mbind, tx_bind, tx_read in Htx.
  destruct (question_update trim b s) as [e | [q' s1]] eqn:Hupd; [done |].
  apply question_update_commit in Hupd as (q1 & _ & _ & Hs1).
  assert (Hids : Question.id <$> questions s1 = Question.id <$> questions s).
  { rewrite Hs1. simpl. rewrite <- list_fmap_compose. apply list_fmap_ext.
    intros i row _. simpl. by destruct (decide _). }
  assert (H1 : quizzes s1 = quizzes s ∧ attempts s1 = attempts s
               ∧ answers s1 = answers s ∧ choices s1 = choices s)
    by (by rewrite Hs1).
  destruct H1 as (Hquiz1 & Hatt1 & Hans1 & Hch1).
  assert (Hrest : keeps_rows s1 s' ∧ (answers_choose s1 → answers_choose s')).
  { destruct (UpdateBody.choices b) as [given |].
    - destruct (update_choices _ _ _ _ _ _ s1) as [e | [[] s2]] eqn:Hch; [done |].
      injection Htx as _ <-.
      split; [by eapply update_choices_keeps | by eapply update_choices_chooses].
    - injection Htx as _ <-. split; [apply keeps_rows_refl | done]. }
  destruct Hrest as [(Hquiz & Hqs & Hatt & Hkeys) Hchoose].
  pose proof Hs as [_ (_ & Hrefer & Hchoices)].
  apply (consistent_kept s); try congruence.
  - apply (answers_questions_kept s); [congruence | | done].
    intros k. by rewrite Hqs, Hids.
  - apply Hchoose. unfold answers_choose. by rewrite Hans1, Hch1.
Qed.

(** X29. The requests of the administrator keep the constraints on attempts
    and answers too: creating, updating, reordering and deleting a question
    and updating a quiz leave the attempts as they are and every answer with
    its attempt, its question and choices that exist.  A question with
    answers is not deleted, and a choice that is deleted is taken out of the
    answers that hold it. *)
Theorem administrator_keeps_constraints (s : Store) :
  consistent s →
  (∀ req, consistent (question_POST trim env req s).2)
  ∧ (∀ req, consistent (PUT_update trim env library_message req s).2)
  ∧ (∀ req, consistent (PUT_move req s).2)
  ∧ (∀ req, consistent (question_DELETE req s).2)
  ∧ (∀ req, consistent (quiz_PUT req s).2).
Proof.
  intros Hs. split_and!; intros req.
  - by apply question_POST_consistent.
  - by apply PUT_update_consistent.
  - by apply PUT_move_consistent.
  - by apply question_DELETE_consistent.
  - by apply quiz_PUT_consistent.
Qed.
End AdministratorKeeps.

(** ** A session of the page *)

Lemma saved_row env u b s r s1 :
  save_tx env u b s = inr (r, s1) →
  r ∈ attempts s1 ∧ Attempt.userId r = u ∧ Attempt.quizId r = Body.quizId b
  ∧ Attempt.status r = IN_PROGRESS
  ∧ quizzes s1 = quizzes s ∧ questions s1 = questions s ∧ choices s1 = choices s
  ∧ (length (attempts s1) ≤ S (length (attempts s)))%nat
  ∧ (Attempt.id r ∈ Attempt.id <$> attempts s ∨ Attempt.id r = newAttemptId env).
Proof.
  intros [[Hres (Hq & Hqs & Hcs & Hatt & _)] | (_ & -> & Hc)]%save_tx_commit.
  - rewrite Hatt.
    assert (Hr : r ∈ attempts s ∧ Attempt.userId r = u ∧ Attempt.quizId r = Body.quizId b
                 ∧ Attempt.status r = IN_PROGRESS).
    { unfold save_resolve in Hres. destruct (hintOf b).
      - apply attempt_findHinted_Some in Hres. tauto.
      - apply attempt_findLatest_Some in Hres. tauto. }
    destruct Hr as (Hin & ? & ? & ?). split_and!; try done; [lia |].
    left. by apply list_elem_of_fmap_2.
  - destruct Hc as (_ & Hq & Hqs & Hcs & Hatt & _). rewrite Hatt. simpl.
    split_and!; try done.
    + apply elem_of_app. right. by left.
    + rewrite length_app. simpl. lia.
    + by right.
Qed.

Section Session.
Import Paper.

(** X30. An autosave followed by the submit makes one attempt, not two.
    For a state the page reached on the quiz as loaded, the next attempt
    number of the user for the quiz and the number of questions of the quiz
    fitting an INTEGER column: the save without an
    attempt id is answered 200 with an attempt id, and the submit that echoes
    this id with the same entries is answered 200 for the same attempt, with
    the same attempt number and with a score; after the two requests the
    store has at most one attempt more than before, and that attempt is
    SUBMITTED with the reported score. *)
Theorem session_makes_one_attempt
    (env1 env2 : Env) (req1 : Request Body.t) (au : AuthContext) (quizId : string)
    (s : Store) (st : State) (entries : list (string * list string)) :
  consistent s →
  EmptyString ∉ Attempt.id <$> attempts s →
  newAttemptId env1 ≠ EmptyString →
  newAttemptId env1 ∉ Attempt.id <$> attempts s →
  reachable (quiz_questions quizId s) st →
  entries_of st entries →
  question_findMany quizId s ≠ [] →
  served req1 au (body_of quizId None entries) s →
  int4 (nextAttemptNo (auth_userId au) quizId s) = true →
  int4 (Z.of_nat (length (question_findMany quizId s))) = true →
  ∃ id n s1 score s2,
    save_POST env1 req1 s = (jsonOk (SaveOk id n), s1)
    ∧ submit_POST env2
        (mkRequest (Some au) true (Some (body_of quizId (Some id) entries))) s1
      = (jsonOk (SubmitOk id (Some score) n
                   (Z.of_nat (length (question_findMany quizId s)))), s2)
    ∧ (length (attempts s2) ≤ S (length (attempts s)))%nat
    ∧ ∃ a, a ∈ attempts s2 ∧ Attempt.id a = id ∧ Attempt.status a = SUBMITTED
           ∧ Attempt.score a = Some score.
Proof.
  intros Hcons Hnoempty Hne1 Hfresh Hreach Hentries Hqne Hserved Hno Hcount.
  pose proof Hcons as [(Hids & _ & _) (_ & Hrefer & _)].
  set (b1 := body_of quizId None entries) in *.
  pose proof (λ a, page_entries_valid quizId s st entries a Hreach Hentries) as Hvalid.
  assert (Hw : writable (flattenedAnswers entries) s).
  { intros a Ha. by destruct (Hvalid a Ha) as (_ & ? & ?). }
  assert (Hnd : NoDup (AnswerInput.questionId <$> flattenedAnswers entries))
    by by apply (flattenedAnswers_NoDup st).
  pose proof Hserved as (_ & _ & _ & Hquizne & quiz & Hquiz & Hpub).
  (* the save *)
  destruct (save_tx_commits env1 (auth_userId au) b1 s Hfresh (mk_is_Some _ _ Hquiz) Hrefer)
    as (r & s1 & Htx1 & _);
    [split; [done | split; [right; by split | apply int4_zero]] |].
  assert (Hsave : save_POST env1 req1 s
                  = (jsonOk (SaveOk (Attempt.id r) (Attempt.attemptNo r)), s1)).
  { by rewrite (save_POST_served env1 req1 au b1 s Hserved), Htx1. }
  destruct (saved_row _ _ _ _ _ _ Htx1)
    as (Hin & Hu & Hq & Hst & Hqz & Hqs & Hcs & Hlen & Hidr).
  assert (Hcons1 : consistent s1).
  { pose proof (step_consistent s (Save env1 req1) Hcons) as H. simpl in H.
    by rewrite Hsave in H. }
  pose proof Hcons1 as [(Hids1 & _ & _) _].
  assert (Hidne : Attempt.id r ≠ EmptyString).
  { destruct Hidr as [Hold | ->]; [| done]. intros Heq. by rewrite Heq in Hold. }
  (* the store after the save, as the submit sees it *)
  set (b2 := body_of quizId (Some (Attempt.id r)) entries).
  set (req2 := mkRequest (Some au) true (Some b2)).
  assert (Hmany : question_findMany quizId s1 = question_findMany quizId s).
  { unfold question_findMany. by rewrite Hqs, Hcs. }
  assert (Hw1 : writable (Body.answers b2) s1) by by apply (writable_same _ s).
  assert (Hserved2 : served req2 au b2 s1).
  { split_and!; try done. exists quiz. split; [| done].
    unfold quiz_findUnique in *. by rewrite Hqz. }
  destruct (scoreLoop_accepted (Map_of sel_id (question_findMany quizId s1))
              (Body.answers b2) 0) as [score Hloop].
  { rewrite Hmany. intros a Ha. by destruct (Hvalid a Ha) as (? & _). }
  assert (Hval : validated req2 au b2 score s1).
  { split; [done |]. split; [| done].
    change (question_findMany quizId s1 ≠ []). by rewrite Hmany. }
  assert (Hres : submit_resolve (auth_userId au) b2 s1 = Some r).
  { unfold submit_resolve, hintOf, truthy. simpl. rewrite decide_False by done.
    rewrite <- Hu. change quizId with (Body.quizId b1). rewrite <- Hq.
    by apply attempt_findHinted_unique. }
  assert (Hfit : int4 score = true).
  { apply (int4_below _ _ Hcount). rewrite Hmany in Hloop.
    apply (scoreLoop_bounded sel_id (question_findMany quizId s) _ _ _) in Hloop;
      [done | | done].
    intros k q0 [Hq0 <-]%Map_of_Some. by apply list_elem_of_fmap_2. }
  destruct (submit_tx_resolved env2 (auth_userId au) b2 score s1 r Hids1 Hres Hw1 Hfit)
    as (s2 & Htx2 & Hatt2).
  exists (Attempt.id r), (Attempt.attemptNo r), s1, score, s2.
  split; [exact Hsave |]. split.
  { change (submit_POST env2 req2 s1
            = (jsonOk (SubmitOk (Attempt.id r) (Some score) (Attempt.attemptNo r)
                         (Z.of_nat (length (question_findMany quizId s)))), s2)).
    rewrite (submit_POST_validated env2 req2 au b2 score s1 Hval), Htx2. simpl.
    change (Body.quizId b2) with quizId. by rewrite Hmany. }
  split.
  { rewrite Hatt2. unfold finalize_row. by rewrite length_fmap. }
  exists (finalize (now env2) score r). split_and!; try done.
  rewrite Hatt2. unfold finalize_row. apply list_elem_of_fmap. exists r.
  split; [by rewrite decide_True | done].
Qed.
End Session.

(** ** The theorems at work *)

Lemma window_quota_witness :
  let o := RateLimit.mkOptions "save:u1" 2 60000 in
  RateLimit.window_closed o 5 ∅
  ∧ RateLimit.ok <$> (RateLimit.calls o [5; 10; 20; 60004] ∅).1 = [true; true; false; false]
  ∧ RateLimit.allowed (RateLimit.calls o [5; 10; 20; 60004] ∅).1 = 2%nat
  ∧ Forall (λ r, RateLimit.r_resetMs r = 60005) (RateLimit.calls o [5; 10; 20; 60004] ∅).1.
Proof.
  intros o.
  assert (Hclosed : RateLimit.window_closed o 5 ∅) by exact I.
  assert (Htimes : Forall (λ t, t < 5 + RateLimit.windowMs o) [10; 20; 60004])
    by by_evaluation.
  destruct (window_quota o 5 [10; 20; 60004] ∅ Hclosed Htimes) as (_ & _ & Hadm & Hreset & _).
  split_and!; [exact Hclosed | by vm_compute | exact Hadm | exact Hreset].
Defined.

Lemma rejected_until_reset_witness :
  let o := RateLimit.mkOptions "save:u1" 2 60000 in
  let full : gmap string RateLimit.Bucket := {[ "save:u1" := RateLimit.mkBucket 60005 2 ]} in
  RateLimit.ok (RateLimit.rateLimit o 20 full).1 = false
  ∧ (RateLimit.rateLimit o 20 full).2 = full
  ∧ RateLimit.r_resetMs (RateLimit.rateLimit o 20 full).1 = 60005
  ∧ RateLimit.ok (RateLimit.rateLimit o 60004 full).1 = false
  ∧ RateLimit.ok (RateLimit.rateLimit o 60005 full).1 = true.
Proof.
  intros o full.
  assert (Hrej : RateLimit.ok (RateLimit.rateLimit o 20 full).1 = false) by by vm_compute.
  destruct (rejected_until_reset o 20 full Hrej) as (Hsame & _ & _ & Hlater).
  assert (Hreset : RateLimit.r_resetMs (RateLimit.rateLimit o 20 full).1 = 60005)
    by by vm_compute.
  split_and!; [exact Hrej | exact Hsame | exact Hreset | |].
  - apply (Hlater 60004). rewrite Hreset. lia.
  - apply (Hlater 60005). rewrite Hreset. lia.
Defined.

Lemma keys_are_independent_witness :
  let o := RateLimit.mkOptions "save:u1" 1 60000 in
  let o' := RateLimit.mkOptions "save:u2" 1 60000 in
  bool_decide (RateLimit.key o = RateLimit.key o') = false
  ∧ (RateLimit.rateLimit o 7 (RateLimit.rateLimit o' 5 ∅).2).1
    = RateLimit.mkResult true 1 0 60007.
Proof.
  intros o o'.
  assert (Hne : RateLimit.key o ≠ RateLimit.key o') by by_evaluation.
  destruct (keys_are_independent o o' 7 5 ∅ Hne) as [_ Hsame].
  split; [by vm_compute |]. rewrite Hsame. by vm_compute.
Defined.

Lemma created_question_is_answerable_witness :
  let req := Authored.request (Authored.post None [Authored.yes; Authored.blank; Authored.no]) in
  let sel := mkSel "q9" SINGLE_CHOICE (sel_choices_of Authored.row Authored.after) in
  question_POST trim_ascii Authored.env req Scenario.catalogue
  = (Done 201 (Authored.row, Authored.rows), Authored.after)
  ∧ sel ∈ question_findMany "quiz1" Authored.after
  ∧ size (correctSet sel) = 1%nat
  ∧ isCorrect SINGLE_CHOICE (correctSet sel) (correctSet sel) = true.
Proof.
  intros req sel.
  assert (Hfk : ∀ c, c ∈ choices Scenario.catalogue →
                     Choice.questionId c ∈ Question.id <$> questions Scenario.catalogue).
  { apply Forall_forall. by_evaluation. }
  assert (Hpost : question_POST trim_ascii Authored.env req Scenario.catalogue
                  = (Done 201 (Authored.row, Authored.rows), Authored.after))
    by by vm_compute.
  destruct (created_question_is_answerable trim_ascii Authored.env req _ _ _ _ Hfk Hpost)
    as (_ & _ & _ & _ & _ & Hsel & _ & _ & _ & Hone & Hcorrect).
  split_and!; [exact Hpost | exact Hsel | by apply Hone | exact Hcorrect].
Defined.

Lemma create_without_orders_commits_witness :
  let given := [Authored.yes; Authored.blank; Authored.no] in
  let b := Authored.post None given in
  passes_checks trim_ascii (Authored.request b) b given
  ∧ fresh_ids Authored.env 2 Scenario.catalogue
  ∧ Question.order (questionRow trim_ascii Authored.env b Scenario.catalogue) = 2
  ∧ (∃ cs s', question_POST trim_ascii Authored.env (Authored.request b) Scenario.catalogue
              = (Done 201 (questionRow trim_ascii Authored.env b Scenario.catalogue, cs), s')).
Proof.
  intros given b.
  assert (Hpass : passes_checks trim_ascii (Authored.request b) b given).
  { split_and!; [by exists Scenario.root | done | done | done
                | exists " fourth "; split; [done | by vm_compute]
                | done | by vm_compute | by vm_compute]. }
  assert (Hfresh : fresh_ids Authored.env (length (normalizeChoices trim_ascii given))
                     Scenario.catalogue).
  { split_and!; [by_evaluation | by_evaluation |].
    intros i Hi. change (length (normalizeChoices trim_ascii given)) with 2%nat in Hi.
    destruct i as [| [| i]]; [by_evaluation | by_evaluation | lia]. }
  assert (Hfk : ∀ c, c ∈ choices Scenario.catalogue →
                     Choice.questionId c ∈ Question.id <$> questions Scenario.catalogue).
  { apply Forall_forall. by_evaluation. }
  assert (Hnone : Forall (λ c, ChoiceInput.order c = None) given) by by_evaluation.
  assert (Hquiz : CreateBody.quizId b ∈ Quiz.id <$> quizzes Scenario.catalogue)
    by by_evaluation.
  assert (Hcount : int4 (Z.of_nat (length given)) = true) by by vm_compute.
  destruct (create_without_orders_commits trim_ascii Authored.env (Authored.request b) b given
              Scenario.catalogue Hpass eq_refl Hnone Hquiz Hfk Hfresh Hcount)
    as (_ & _ & Hdone & _).
  split_and!; [exact Hpass | exact Hfresh | by vm_compute | apply Hdone; by vm_compute].
Defined.

(** When the greatest order of the quiz is the greatest number of the
    column, the request without [order] is not answered 201. *)
Example order_after_the_last_is_refused :
  let s := with_questions
             (λ rows, rows ++ [Question.mk "q8" "last" SINGLE_CHOICE 2147483647 "quiz1"])
             Scenario.catalogue in
  let b := Authored.post None [Authored.yes; Authored.no] in
  Question.order (questionRow trim_ascii Authored.env b s) = 2147483648
  ∧ question_POST trim_ascii Authored.env (Authored.request b) s = (Crashed, s).
Proof. split; by vm_compute. Qed.

Lemma colliding_orders_crash_witness :
  let given := [Authored.first_a; Authored.first_b] in
  let b := Authored.post None given in
  passes_checks trim_ascii (Authored.request b) b given
  ∧ (λ c, default 0 (ChoiceInput.order c)) <$> normalizeChoices trim_ascii given = [0; 0]
  ∧ question_POST trim_ascii Authored.env (Authored.request b) Scenario.catalogue
    = (Crashed, Scenario.catalogue).
Proof.
  intros given b.
  assert (Hpass : passes_checks trim_ascii (Authored.request b) b given).
  { split_and!; [by exists Scenario.root | done | done | done
                | exists " fourth "; split; [done | by vm_compute]
                | done | by vm_compute | by vm_compute]. }
  assert (Hdup : ¬ NoDup ((λ c, default 0 (ChoiceInput.order c))
                            <$> normalizeChoices trim_ascii given)) by by_evaluation.
  split_and!; [exact Hpass | by vm_compute |].
  exact (colliding_orders_crash trim_ascii Authored.env (Authored.request b) b given
           Scenario.catalogue Hpass (or_introl Hdup)).
Defined.

Lemma delete_200_or_409_witness :
  (question_DELETE (deletion "q2") Scenario.submitted).1
  = Refused 409 "Unable to delete question (may have existing answers)."
  ∧ (question_DELETE (deletion "missing") Scenario.submitted).1
    = Refused 409 "Unable to delete question (may have existing answers)."
  ∧ deletable "q3" Scenario.submitted
  ∧ (question_DELETE (deletion "q3") Scenario.submitted).1 = Done 200 tt.
Proof.
  assert (Hadmin : ∃ au, auth (deletion "q2") = Some au ∧ isAdmin au = true)
    by by exists Scenario.root.
  assert (Hd : deletable "q3" Scenario.submitted) by (split; by_evaluation).
  assert (Hanswered : ¬ deletable "q2" Scenario.submitted).
  { intros [_ Hnone]. revert Hnone. by_evaluation. }
  assert (Hmissing : ¬ deletable "missing" Scenario.submitted).
  { intros [Hin _]. revert Hin. by_evaluation. }
  split_and!.
  - destruct (delete_200_or_409 (deletion "q2") "q2" Scenario.submitted
                Hadmin eq_refl eq_refl) as [_ H409]; [done |].
    by rewrite (H409 Hanswered).
  - destruct (delete_200_or_409 (deletion "missing") "missing" Scenario.submitted
                Hadmin eq_refl eq_refl) as [_ H409]; [done |].
    by rewrite (H409 Hmissing).
  - exact Hd.
  - destruct (delete_200_or_409 (deletion "q3") "q3" Scenario.submitted
                Hadmin eq_refl eq_refl) as [H200 _]; [done |].
    by apply H200.
Defined.

Lemma deleted_question_leaves_no_trace_witness :
  let s' := (question_DELETE (deletion "q3") strayed).2 in
  question_DELETE (deletion "q3") strayed = (Done 200 tt, s')
  ∧ Answer.choices <$> answers strayed = [Set_of ["A"; "G"]]
  ∧ Answer.choices <$> answers s' = [Set_of ["A"; "G"] ∖ choiceIdsOf "q3" strayed]
  ∧ Set_of ["A"; "G"] ∖ choiceIdsOf "q3" strayed = ({["A"]} : gset string)
  ∧ Question.id <$> questions s' = ["q1"; "q2"].
Proof.
  intros s'.
  assert (Hdel : question_DELETE (deletion "q3") strayed = (Done 200 tt, s'))
    by by vm_compute.
  destruct (deleted_question_leaves_no_trace (deletion "q3") "q3" strayed s' eq_refl Hdel)
    as (_ & Hq & _ & _ & _ & _ & Hchoices & _).
  split_and!; [exact Hdel | by vm_compute | exact Hchoices | by_evaluation |].
  rewrite Hq. by vm_compute.
Defined.

Lemma save_outcome_witness :
  let twice := [Scenario.pick "q1" ["A"]; Scenario.pick "q1" ["B"]] in
  writes_commit None "u1" (Body.mk "quiz1" None Scenario.draft_answers) None
    Scenario.catalogue
  ∧ (∃ s', save_POST Scenario.first (Scenario.request "quiz1" None Scenario.draft_answers)
             Scenario.catalogue = (jsonOk (SaveOk "att1" 1), s'))
  ∧ NoDup (AnswerInput.questionId <$> twice) = NoDup ["q1"; "q1"]
  ∧ save_POST Scenario.first (Scenario.request "quiz1" None twice) Scenario.catalogue
    = (uncaught, Scenario.catalogue).
Proof.
  intros twice.
  assert (Hserved : ∀ xs, served (Scenario.request "quiz1" None xs) Scenario.alice
                            (Body.mk "quiz1" None xs) Scenario.catalogue).
  { intros xs. split_and!; try done. by exists (Quiz.mk "quiz1" true). }
  assert (Hfresh : "att1" ∉ Attempt.id <$> attempts Scenario.catalogue) by by_evaluation.
  assert (Hrefer : answers_refer Scenario.catalogue) by constructor.
  assert (Hyes : writes_commit None "u1" (Body.mk "quiz1" None Scenario.draft_answers) None
                   Scenario.catalogue).
  { split; [apply writable_Forall; by_evaluation |].
    split; [right; split; by_evaluation | by vm_compute]. }
  assert (Hno : ¬ writes_commit None "u1" (Body.mk "quiz1" None twice) None
                    Scenario.catalogue).
  { intros (_ & [[r [=]] | [Hnd _]] & _). revert Hnd. by_evaluation. }
  split_and!; [exact Hyes | | done |].
  - destruct (save_outcome Scenario.first _ _ _ _ (Hserved Scenario.draft_answers)
                Hfresh Hrefer) as [Hcommit _].
    destruct (Hcommit Hyes) as (r & s' & Hresp & Hid & Hn).
    exists s'. rewrite Hresp, Hid, Hn. by vm_compute.
  - destruct (save_outcome Scenario.first _ _ _ _ (Hserved twice) Hfresh Hrefer)
      as (_ & Hcrash & _).
    exact (Hcrash eq_refl Hno).
Defined.

(** When the user has an attempt numbered with the greatest number of the
    column, the next save and the next submit without a hint are answered
    500. *)
Example attempt_number_after_the_last_is_refused :
  let s := with_attempts
             (λ _, [Attempt.mk "att0" SUBMITTED 2147483647 50 (Some 60) (Some 0)
                      "u1" "quiz1"])
             Scenario.catalogue in
  nextAttemptNo "u1" "quiz1" s = 2147483648
  ∧ save_POST Scenario.first (Scenario.request "quiz1" None []) s = (uncaught, s)
  ∧ submit_POST Scenario.first (Scenario.request "quiz1" None [Scenario.pick "q1" ["A"]]) s
    = (uncaught, s).
Proof. split_and!; by vm_compute. Qed.

Lemma submit_outcome_witness :
  let twice := [Scenario.pick "q1" ["A"]; Scenario.pick "q1" ["A"]] in
  validated Scenario.finish Scenario.alice
    (Body.mk "quiz1" (Some "att1") [Scenario.pick "q1" ["A"]; Scenario.pick "q2" ["C"; "D"]])
    2 Scenario.drafted
  ∧ (∃ s', submit_POST Scenario.second Scenario.finish Scenario.drafted
           = (jsonOk (SubmitOk "att1" (Some 2) 1 2), s'))
  ∧ validated (Scenario.request "quiz1" None twice) Scenario.alice
      (Body.mk "quiz1" None twice) 2 Scenario.catalogue
  ∧ submit_POST Scenario.first (Scenario.request "quiz1" None twice) Scenario.catalogue
    = (uncaught, Scenario.catalogue).
Proof.
  intros twice.
  assert (Hfinish : validated Scenario.finish Scenario.alice
            (Body.mk "quiz1" (Some "att1")
               [Scenario.pick "q1" ["A"]; Scenario.pick "q2" ["C"; "D"]])
            2 Scenario.drafted).
  { split; [| split; by vm_compute].
    split_and!; [done | done | done | done |].
    exists (Quiz.mk "quiz1" true). split; by vm_compute. }
  assert (Htwice : validated (Scenario.request "quiz1" None twice) Scenario.alice
            (Body.mk "quiz1" None twice) 2 Scenario.catalogue).
  { split; [| split; by vm_compute].
    split_and!; [done | done | done | done |].
    exists (Quiz.mk "quiz1" true). split; by vm_compute. }
  assert (Hyes : writes_commit (Some Scenario.att1_draft) "u1"
            (Body.mk "quiz1" (Some "att1")
               [Scenario.pick "q1" ["A"]; Scenario.pick "q2" ["C"; "D"]])
            (Some 2) Scenario.drafted).
  { split; [apply writable_Forall; by_evaluation |].
    split; [left; by eexists | by vm_compute]. }
  assert (Hno : ¬ writes_commit None "u1" (Body.mk "quiz1" None twice) (Some 2)
                    Scenario.catalogue).
  { intros (_ & [[r [=]] | [Hnd _]] & _). revert Hnd. by_evaluation. }
  split_and!; [exact Hfinish | | exact Htwice |].
  - destruct (submit_outcome Scenario.second _ _ _ _ _ Hfinish) as [Hcommit _];
      [by_evaluation | by_evaluation | by_evaluation |].
    destruct (Hcommit Hyes) as (id & n & s' & Hresp & -> & ->). by exists s'.
  - destruct (submit_outcome Scenario.first _ _ _ _ _ Htwice) as [_ Hcrash];
      [by_evaluation | by_evaluation | constructor |].
    exact (Hcrash eq_refl Hno).
Defined.

Lemma validated_entries_writable_witness :
  let answers := [Scenario.pick "q1" ["A"]; Scenario.pick "q2" ["C"; "D"]] in
  scoreLoop (Map_of sel_id (question_findMany "quiz1" Scenario.catalogue)) answers 0 = inr 2
  ∧ choiceIds_truthy answers
  ∧ writable answers Scenario.catalogue.
Proof.
  intros answers.
  assert (Hloop : scoreLoop (Map_of sel_id (question_findMany "quiz1" Scenario.catalogue))
                    answers 0 = inr 2) by by vm_compute.
  assert (Htruthy : choiceIds_truthy answers) by by_evaluation.
  destruct (validated_entries_writable "quiz1" answers 2 Scenario.catalogue Hloop)
    as [_ Hw].
  split_and!; [exact Hloop | exact Htruthy | exact (Hw Htruthy)].
Defined.

Lemma accepted_score_counts_entries_witness :
  let s' := (submit_POST Scenario.second Scenario.finish Scenario.drafted).2 in
  submit_POST Scenario.second Scenario.finish Scenario.drafted
  = (jsonOk (SubmitOk "att1" (Some 2) 1 2), s')
  ∧ Some 2
    = Some (Z.of_nat
              (length (filter (λ a, entryCorrect
                                      (Map_of sel_id
                                         (question_findMany "quiz1" Scenario.drafted)) a
                                    = true)
                         [Scenario.pick "q1" ["A"]; Scenario.pick "q2" ["C"; "D"]]))).
Proof.
  intros s'.
  assert (Hresp : submit_POST Scenario.second Scenario.finish Scenario.drafted
                  = (jsonOk (SubmitOk "att1" (Some 2) 1 2), s')) by by vm_compute.
  destruct (accepted_score_counts_entries Scenario.second Scenario.finish _ _ _ _ _ _ _
              eq_refl Hresp) as (Hscore & _).
  split; [exact Hresp | exact Hscore].
Defined.

Lemma score_bounded_without_duplicates_witness :
  let s' := (submit_POST Scenario.second Scenario.finish Scenario.drafted).2 in
  submit_POST Scenario.second Scenario.finish Scenario.drafted
  = (jsonOk (SubmitOk "att1" (Some 2) 1 2), s')
  ∧ 0 ≤ 2 ≤ 2.
Proof.
  intros s'.
  assert (Hresp : submit_POST Scenario.second Scenario.finish Scenario.drafted
                  = (jsonOk (SubmitOk "att1" (Some 2) 1 2), s')) by by vm_compute.
  split; [exact Hresp |].
  apply (score_bounded_without_duplicates Scenario.second Scenario.finish Scenario.drafted
           _ "att1" 2 1 2 s' eq_refl); [by_evaluation | exact Hresp].
Defined.

Lemma quiz_GET_view_witness :
  quiz_GET Session.visitor "quiz1" Scenario.catalogue
  = Done 200 (Quiz.mk "quiz1" true, [Session.view1; Session.view2])
  ∧ length [Session.view1; Session.view2]
    = length (question_findMany "quiz1" Scenario.catalogue)
  ∧ Sorted (λ a b, QuestionView.order a ≤ QuestionView.order b)
      [Session.view1; Session.view2].
Proof.
  assert (Hget : quiz_GET Session.visitor "quiz1" Scenario.catalogue
                 = Done 200 (Quiz.mk "quiz1" true, [Session.view1; Session.view2]))
    by by vm_compute.
  destruct (quiz_GET_view Session.visitor "quiz1" Scenario.catalogue _ _ Hget)
    as (_ & _ & _ & Hlen & Hsorted & _).
  split_and!; [exact Hget | exact Hlen | exact Hsorted].
Defined.

Lemma page_requests_are_accepted_witness :
  Paper.reachable (quiz_questions "quiz1" Scenario.catalogue) Session.inputs
  ∧ Session.inputs = {[ "q1" := ["A"]; "q2" := ["C"; "D"] ]}
  ∧ (∃ id n s', save_POST Scenario.first Session.sent Scenario.catalogue
                = (jsonOk (SaveOk id n), s'))
  ∧ ∃ id score n s',
      submit_POST Scenario.first Session.sent Scenario.catalogue
      = (jsonOk (SubmitOk id (Some score) n
                   (Z.of_nat (length (question_findMany "quiz1" Scenario.catalogue)))), s')
      ∧ 0 ≤ score ≤ Z.of_nat (length (question_findMany "quiz1" Scenario.catalogue)).
Proof.
  assert (Hviews : quiz_questions "quiz1" Scenario.catalogue
                   = [Session.view1; Session.view2]) by by vm_compute.
  assert (Hreach : Paper.reachable (quiz_questions "quiz1" Scenario.catalogue)
                     Session.inputs).
  { rewrite Hviews. unfold Session.inputs.
    repeat (apply Paper.reachable_toggle; [| by_evaluation | by_evaluation]).
    apply Paper.reachable_empty. }
  assert (Hserved : served Session.sent Scenario.alice
                      (Paper.body_of "quiz1" None (map_to_list Session.inputs))
                      Scenario.catalogue).
  { split_and!; [done | done | done | done |]. by exists (Quiz.mk "quiz1" true). }
  destruct (page_requests_are_accepted Scenario.first Session.sent Scenario.alice "quiz1"
              None Scenario.catalogue Session.inputs (map_to_list Session.inputs))
    as [Hsave Hsubmit];
    [by_evaluation | by_evaluation | apply Forall_nil_2 | exact Hreach
    | unfold Paper.entries_of; reflexivity
    | exact Hserved | by vm_compute | by vm_compute | by vm_compute |].
  split_and!; [exact Hreach | by_evaluation | exact Hsave | exact Hsubmit].
Defined.

Lemma saved_attempt_is_resumed_witness :
  let req := Scenario.request "quiz1" None Scenario.draft_answers in
  let s1 := (save_POST Scenario.first req Scenario.catalogue).2 in
  save_POST Scenario.first req Scenario.catalogue = (jsonOk (SaveOk "att1" 1), s1)
  ∧ ∃ r, Attempt.id r = "att1"
         ∧ save_resolve "u1" (Body.mk "quiz1" (Some "att1") []) s1 = Some r
         ∧ submit_resolve "u1" (Body.mk "quiz1" (Some "att1") []) s1 = Some r.
Proof.
  intros req s1.
  assert (Hresp : save_POST Scenario.first req Scenario.catalogue
                  = (jsonOk (SaveOk "att1" 1), s1)) by by vm_compute.
  split; [exact Hresp |].
  destruct (saved_attempt_is_resumed Scenario.first req Scenario.alice
              (Body.mk "quiz1" None Scenario.draft_answers) Scenario.catalogue s1 "att1" 1)
    as (r & _ & Hid & _ & _ & Hnext); [by_evaluation | done | done | exact Hresp | done |].
  exists r. destruct (Hnext []) as [Hsave Hsubmit]. by split_and!.
Defined.

Lemma move_never_reorders_witness :
  (PUT_move (Scenario.reorder "q2" UP) Scenario.catalogue).2 = Scenario.catalogue
  ∧ (PUT_move (Scenario.reorder "q1" DOWN) Scenario.catalogue).2 = Scenario.catalogue
  ∧ status (PUT_move (Scenario.reorder "q2" UP) Scenario.catalogue).1 = 400.
Proof.
  assert (Hnd : NoDup (Question.id <$> questions Scenario.catalogue)) by by_evaluation.
  destruct (move_never_reorders (Scenario.reorder "q2" UP) Scenario.catalogue Hnd)
    as (Hup & _ & _).
  destruct (move_never_reorders (Scenario.reorder "q1" DOWN) Scenario.catalogue Hnd)
    as (Hdown & _ & _).
  split_and!; [exact Hup | exact Hdown | by vm_compute].
Defined.

Lemma type_change_is_not_validated_witness :
  let sel := mkSel "q2" SINGLE_CHOICE
               (sel_choices_of (Question.mk "q2" "second" MULTIPLE_CHOICE 1 "quiz1")
                  Scenario.catalogue) in
  (PUT_update trim_ascii Authored.env Edited.library_text (Edited.put Edited.retype)
     Scenario.catalogue).1
  = Done 200 (Question.mk "q2" "second" SINGLE_CHOICE 1 "quiz1",
              [Choice.mk "C" true 0 "q2"; Choice.mk "D" true 1 "q2";
               Choice.mk "E" false 2 "q2"])
  ∧ size (correctSet sel) = 2%nat
  ∧ isCorrect (sel_type sel) {["C"]} (correctSet sel) = false
  ∧ isCorrect (sel_type sel) {["C"; "D"]} (correctSet sel) = false.
Proof.
  intros sel.
  assert (Hadm : reaches_update (Edited.put Edited.retype) Edited.retype).
  { split_and!; try done. by exists Scenario.root. }
  assert (Hsize : size (correctSet sel) = 2%nat) by by_evaluation.
  destruct (type_change_is_not_validated trim_ascii Authored.env Edited.library_text
              (Edited.put Edited.retype) Edited.retype Scenario.catalogue
              (Question.mk "q2" "second" MULTIPLE_CHOICE 1 "quiz1") SINGLE_CHOICE
              Hadm eq_refl eq_refl eq_refl)
    as (Hput & _ & _ & _ & _ & Hnever); [by_evaluation | by vm_compute |].
  split_and!.
  - rewrite Hput. by vm_compute.
  - exact Hsize.
  - apply Hnever; [done |]. change (size (correctSet sel) ≠ 1%nat). rewrite Hsize. lia.
  - apply Hnever; [done |]. change (size (correctSet sel) ≠ 1%nat). rewrite Hsize. lia.
Defined.

Lemma rejected_update_is_rolled_back_witness :
  (∃ s1, question_update trim_ascii Edited.reword Scenario.catalogue
         = inr (Question.mk "q1" "changed" SINGLE_CHOICE 0 "quiz1", s1))
  ∧ length (normalizeChoices trim_ascii [Authored.yes; Authored.blank]) = 1%nat
  ∧ PUT_update trim_ascii Authored.env Edited.library_text (Edited.put Edited.reword)
      Scenario.catalogue
    = (Refused 400 "At least 2 non-empty choices are required.", Scenario.catalogue).
Proof.
  assert (Hadm : reaches_update (Edited.put Edited.reword) Edited.reword).
  { split_and!; try done. by exists Scenario.root. }
  assert (Hupd : ∃ s1, question_update trim_ascii Edited.reword Scenario.catalogue
                       = inr (Question.mk "q1" "changed" SINGLE_CHOICE 0 "quiz1", s1)).
  { eexists. by vm_compute. }
  assert (Hlen : length (normalizeChoices trim_ascii [Authored.yes; Authored.blank]) = 1%nat)
    by by vm_compute.
  split_and!; [exact Hupd | exact Hlen |].
  destruct Hupd as [s1 Hupd].
  destruct (rejected_update_is_rolled_back trim_ascii Authored.env Edited.library_text
              (Edited.put Edited.reword) Edited.reword Scenario.catalogue s1 _
              [Authored.yes; Authored.blank] Hadm Hupd eq_refl) as [Hshort _].
  apply Hshort. rewrite Hlen. lia.
Defined.

Lemma removed_choices_leave_answers_witness :
  let res := PUT_update trim_ascii Authored.env Edited.library_text
               (Edited.put Edited.prune) Scenario.submitted in
  res.1 = Done 200 (Question.mk "q2" "second" MULTIPLE_CHOICE 1 "quiz1",
                    [Choice.mk "C" true 0 "q2"; Choice.mk "E" false 1 "q2"])
  ∧ Answer.choices <$> answers Scenario.submitted = [Set_of ["A"]; Set_of ["C"; "D"]]
  ∧ attempts res.2 = [Scenario.att1_final]
  ∧ ∀ r, r ∈ answers res.2 → "D" ∉ Answer.choices r.
Proof.
  intros res.
  assert (Hput : PUT_update trim_ascii Authored.env Edited.library_text
                   (Edited.put Edited.prune) Scenario.submitted
                 = (Done 200 (Question.mk "q2" "second" MULTIPLE_CHOICE 1 "quiz1",
                              [Choice.mk "C" true 0 "q2"; Choice.mk "E" false 1 "q2"]),
                    res.2)) by by vm_compute.
  destruct (removed_choices_leave_answers trim_ascii Authored.env Edited.library_text
              (Edited.put Edited.prune) Edited.prune Scenario.submitted res.2
              (Question.mk "q2" "second" MULTIPLE_CHOICE 1 "quiz1")
              [Edited.keepC; Edited.keepE]
              (Question.mk "q2" "second" MULTIPLE_CHOICE 1 "quiz1",
               [Choice.mk "C" true 0 "q2"; Choice.mk "E" false 1 "q2"])
              eq_refl eq_refl)
    as (_ & Hatt & Hgone); [by vm_compute | exact Hput |].
  split_and!.
  - unfold res. by rewrite Hput.
  - by vm_compute.
  - rewrite Hatt. by vm_compute.
  - intros r Hr. apply (Hgone r "D" Hr). by_evaluation.
Defined.

Lemma unpublished_quiz_is_closed_witness :
  let s' := (quiz_PUT (publish "quiz1" false) Scenario.drafted).2 in
  quiz_PUT (publish "quiz1" false) Scenario.drafted = (Done 200 (Quiz.mk "quiz1" false), s')
  ∧ status (save_POST Scenario.second (Scenario.request "quiz1" (Some "att1") []) s').1 = 404
  ∧ status (submit_POST Scenario.second Scenario.finish s').1 = 404
  ∧ (submit_POST Scenario.second Scenario.finish s').2 = s'
  ∧ attempts s' = [Scenario.att1_draft].
Proof.
  intros s'.
  assert (Hput : quiz_PUT (publish "quiz1" false) Scenario.drafted
                 = (Done 200 (Quiz.mk "quiz1" false), s')) by by vm_compute.
  destruct (unpublished_quiz_is_closed (publish "quiz1" false)
              (QuizUpdate.mk "quiz1" (Some false)) Scenario.drafted s' _
              eq_refl eq_refl Hput) as (_ & _ & _ & _ & Hatt & _ & Hclosed & _).
  destruct (Hclosed Scenario.second Scenario.finish _ eq_refl eq_refl)
    as (_ & _ & _ & Hsame).
  split_and!; [exact Hput | by vm_compute | by vm_compute | exact Hsame |].
  rewrite Hatt. by vm_compute.
Defined.

Lemma run_keeps_constraints_witness :
  let ops := [Save Scenario.first (Scenario.request "quiz1" None Scenario.draft_answers);
              Submit Scenario.second Scenario.finish;
              Submit Scenario.third
                (Scenario.request "quiz1" None [Scenario.pick "q1" ["B"]])] in
  consistent Scenario.catalogue
  ∧ consistent (run ops Scenario.catalogue)
  ∧ Attempt.id <$> attempts (run ops Scenario.catalogue) = ["att1"; "att3"]
  ∧ answerKey <$> answers (run ops Scenario.catalogue)
    = [("att1", "q1"); ("att1", "q2"); ("att3", "q1")].
Proof.
  intros ops.
  assert (Hs : consistent Scenario.catalogue).
  { split; split_and!; try apply Forall_nil_2; apply NoDup_nil_2. }
  split_and!; [exact Hs | exact (run_keeps_constraints ops _ Hs) | by vm_compute
              | by vm_compute].
Defined.

Lemma administrator_keeps_constraints_witness :
  consistent Scenario.submitted
  ∧ consistent (question_DELETE (deletion "q3") Scenario.submitted).2
  ∧ consistent (PUT_update trim_ascii Authored.env Edited.library_text
                  (Edited.put Edited.prune) Scenario.submitted).2
  ∧ Answer.choices
    <$> answers (PUT_update trim_ascii Authored.env Edited.library_text
                   (Edited.put Edited.prune) Scenario.submitted).2
    = [Set_of ["A"]; Set_of ["C"; "D"] ∖ {["D"]}].
Proof.
  assert (Hs : consistent Scenario.submitted).
  { apply (step_consistent _ (Submit Scenario.second Scenario.finish)).
    apply (step_consistent _ (Save Scenario.first (Scenario.request "quiz1" None []))).
    split; split_and!; try apply Forall_nil_2; apply NoDup_nil_2. }
  destruct (administrator_keeps_constraints trim_ascii Authored.env Edited.library_text
              Scenario.submitted Hs) as (_ & Hput & _ & Hdelete & _).
  split_and!; [exact Hs | apply Hdelete | apply Hput | by vm_compute].
Defined.

Lemma session_makes_one_attempt_witness :
  consistent Scenario.catalogue
  ∧ Paper.reachable (quiz_questions "quiz1" Scenario.catalogue) Session.inputs
  ∧ ∃ id n s1 score s2,
      save_POST Scenario.first Session.sent Scenario.catalogue = (jsonOk (SaveOk id n), s1)
      ∧ submit_POST Scenario.second
          (mkRequest (Some Scenario.alice) true
             (Some (Paper.body_of "quiz1" (Some id) (map_to_list Session.inputs)))) s1
        = (jsonOk (SubmitOk id (Some score) n
                     (Z.of_nat (length (question_findMany "quiz1" Scenario.catalogue)))),
           s2)
      ∧ (length (attempts s2) ≤ S (length (attempts Scenario.catalogue)))%nat
      ∧ ∃ a, a ∈ attempts s2 ∧ Attempt.id a = id ∧ Attempt.status a = SUBMITTED
             ∧ Attempt.score a = Some score.
Proof.
  assert (Hs : consistent Scenario.catalogue).
  { split; split_and!; try apply Forall_nil_2; apply NoDup_nil_2. }
  assert (Hviews : quiz_questions "quiz1" Scenario.catalogue
                   = [Session.view1; Session.view2]) by by vm_compute.
  assert (Hreach : Paper.reachable (quiz_questions "quiz1" Scenario.catalogue)
                     Session.inputs).
  { rewrite Hviews. unfold Session.inputs.
    repeat (apply Paper.reachable_toggle; [| by_evaluation | by_evaluation]).
    apply Paper.reachable_empty. }
  assert (Hserved : served Session.sent Scenario.alice
                      (Paper.body_of "quiz1" None (map_to_list Session.inputs))
                      Scenario.catalogue).
  { split_and!; [done | done | done | done |]. by exists (Quiz.mk "quiz1" true). }
  split_and!; [exact Hs | exact Hreach |].
  apply (session_makes_one_attempt Scenario.first Scenario.second Session.sent
           Scenario.alice "quiz1" Scenario.catalogue Session.inputs
           (map_to_list Session.inputs) Hs);
    [by_evaluation | done | by_evaluation | exact Hreach
    | unfold Paper.entries_of; reflexivity | by vm_compute | exact Hserved
    | by vm_compute | by vm_compute].
Defined.
